(** * CScript diagnostic provider (src/src/extension.ts)

    A shallow embedding of [CScriptDiagnosticProvider]: the per-line check
    methods, the document-wide bracket count and [updateDiagnostics], with
    the JavaScript string and regular-expression primitives they call.

    Modelling conventions.
    - A JavaScript string is a [list ascii]: one element per code unit, the
      code units being restricted to U+0000..U+00FF.  Indices are [nat];
      results that can be [-1] ([indexOf], [lastIndexOf], [search]) and every
      argument of [new vscode.Range] are [Z].
    - A regular expression literal is a value of [regex]; [run] is the
      backtracking matcher of ECMAScript, giving every way to match at a
      position in priority order, so that the head of the list is the match
      JavaScript reports.
    - Each check method only pushes onto the shared [diagnostics] array; it
      is modelled by the list of diagnostics it pushes, in push order.
    - A [Range] records the four arguments of [new vscode.Range] as they are
      passed.  The constructor throws on a negative argument: [newRange] is
      the constructor where an argument can be negative, [None] being the
      exception, which leaves [updateDiagnostics] before anything is stored.
      Where the arguments are never negative ([pushed_constructible]) the
      range is written directly. *)

From Stdlib Require Import ZArith Ascii String List Lia Bool DecimalString.
From stdpp Require Import gmap strings.
Import ListNotations.

Local Open Scope nat_scope.

(** ** Characters and strings *)

Module Js.

Definition str (s : string) : list ascii := list_ascii_of_string s.

Definition code (c : ascii) : nat := nat_of_ascii c.

Definition chr (a : ascii) (c : ascii) : bool := Ascii.eqb c a.

(** [\d] *)
Definition isDigit (c : ascii) : bool := (48 <=? code c) && (code c <=? 57).

(** [\w]: [A-Za-z0-9_] *)
Definition isWord (c : ascii) : bool :=
  ((65 <=? code c) && (code c <=? 90)) || ((97 <=? code c) && (code c <=? 122))
  || isDigit c || (code c =? 95).

(** [\s], which is also what [trim] strips: TAB, LF, VT, FF, CR, SP and
    NBSP are the white space and line terminators below U+0100. *)
Definition isSpace (c : ascii) : bool :=
  ((9 <=? code c) && (code c <=? 13)) || (code c =? 32) || (code c =? 160).

(** [.]: anything but a line terminator (LF and CR below U+0100). *)
Definition isDot (c : ascii) : bool := negb ((code c =? 10) || (code c =? 13)).

Definition oneOf (cs : string) (c : ascii) : bool :=
  existsb (Ascii.eqb c) (str cs).

Fixpoint startsWith (p s : list ascii) : bool :=
  match p, s with
  | [], _ => true
  | a :: p', b :: s' => Ascii.eqb a b && startsWith p' s'
  | _ :: _, [] => false
  end.

Definition endsWith (p s : list ascii) : bool := startsWith (rev p) (rev s).

(** [s.indexOf(p)]: the first index at which [p] occurs, or [-1]. *)
Fixpoint indexOfFrom (i : nat) (p s : list ascii) : Z :=
  if startsWith p s then Z.of_nat i
  else match s with
       | [] => (-1)%Z
       | _ :: s' => indexOfFrom (S i) p s'
       end.

Definition indexOf (p s : list ascii) : Z := indexOfFrom 0 p s.

(** [s.lastIndexOf(p)]: the last index at which [p] occurs, or [-1]. *)
Fixpoint lastIndexOfFrom (i : nat) (p s : list ascii) : Z :=
  let later := match s with
               | [] => (-1)%Z
               | _ :: s' => lastIndexOfFrom (S i) p s'
               end in
  if (0 <=? later)%Z then later
  else if startsWith p s then Z.of_nat i else (-1)%Z.

Definition lastIndexOf (p s : list ascii) : Z := lastIndexOfFrom 0 p s.

Definition includes (p s : list ascii) : bool := (0 <=? indexOf p s)%Z.

Fixpoint trimStart (s : list ascii) : list ascii :=
  match s with
  | c :: s' => if isSpace c then trimStart s' else s
  | [] => []
  end.

Definition trim (s : list ascii) : list ascii :=
  rev (trimStart (rev (trimStart s))).

(** [text.split('\n')]: never empty; the text without line feeds is one
    line. *)
Fixpoint split_lines (text : list ascii) : list (list ascii) :=
  match text with
  | [] => [[]]
  | c :: text' =>
      if chr "010" c then [] :: split_lines text'
      else match split_lines text' with
           | l :: ls => (c :: l) :: ls
           | [] => [[c]]
           end
  end.

(** Decimal rendering of a number inside a template literal. *)
Definition showZ (z : Z) : string := NilZero.string_of_int (Z.to_int z).

End Js.

(** ** Regular expressions *)

Module Regex.
Import Js.

(** The constructs the provider's literals use.  [Chr p] is a character
    class (or a single character), [Grp n r] the [n]-th capturing group. *)
Inductive regex : Type :=
| Eps
| Chr (p : ascii -> bool)
| Seq (r1 r2 : regex)
| Alt (r1 r2 : regex)
| Star (r : regex)
| Grp (n : nat) (r : regex)
| Bol
| Eol
| WordB.

Definition Plus (r : regex) : regex := Seq r (Star r).
Definition Opt (r : regex) : regex := Alt r Eps.

(** A literal string, character by character. *)
Fixpoint Lit (s : list ascii) : regex :=
  match s with
  | [] => Eps
  | c :: s' => Seq (Chr (chr c)) (Lit s')
  end.

(** The matcher's state: the input is split at the current position, the
    part already passed being kept reversed, so that the current index is
    [length (before st)]. *)
Record mstate : Type := MState {
  before : list ascii;
  after : list ascii;
  caps : list (nat * list ascii)
}.

Definition pos (st : mstate) : nat := length (before st).

(** The characters passed between [st] and a later state [st']. *)
Definition consumed (st st' : mstate) : list ascii :=
  rev (firstn (pos st' - pos st) (before st')).

(** Greedy [r*]: iterate while possible, longest first; an iteration that
    consumes nothing is rejected, as in ECMAScript's RepeatMatcher.  Every
    accepted iteration shortens [after], so [S (length (after st))] rounds
    are always enough. *)
Fixpoint star_loop (step : mstate -> list mstate) (fuel : nat) (st : mstate)
  : list mstate :=
  match fuel with
  | 0 => [st]
  | S fuel' =>
      flat_map (fun st' =>
                  if length (after st') <? length (after st)
                  then star_loop step fuel' st' else [])
               (step st)
      ++ [st]
  end.

Definition wordBefore (st : mstate) : bool :=
  match before st with c :: _ => isWord c | [] => false end.

Definition wordAfter (st : mstate) : bool :=
  match after st with c :: _ => isWord c | [] => false end.

(** All the ways [r] matches at [st], in backtracking order.  The literals
    of the provider repeat character classes only, so no capture has to be
    cleared between the rounds of a repetition. *)
Fixpoint run (r : regex) (st : mstate) : list mstate :=
  match r with
  | Eps => [st]
  | Chr p =>
      match after st with
      | c :: rest =>
          if p c then [MState (c :: before st) rest (caps st)] else []
      | [] => []
      end
  | Seq r1 r2 => flat_map (run r2) (run r1 st)
  | Alt r1 r2 => run r1 st ++ run r2 st
  | Star r' => star_loop (run r') (S (length (after st))) st
  | Grp n r' =>
      map (fun st' =>
             MState (before st') (after st') ((n, consumed st st') :: caps st'))
          (run r' st)
  | Bol => match before st with [] => [st] | _ :: _ => [] end
  | Eol => match after st with [] => [st] | _ :: _ => [] end
  | WordB => if xorb (wordBefore st) (wordAfter st) then [st] else []
  end.

(** What [exec] and [match] return: [m.index], [m[0]], the groups, and the
    position after the match. *)
Record MatchResult : Type := Match {
  index : nat;
  whole : list ascii;
  groups : list (nat * list ascii);
  rest_before : list ascii;
  rest_after : list ascii
}.

Definition lastIndex (m : MatchResult) : nat := length (rest_before m).

(** [m[n]]; a group that took no part in the match is [undefined]. *)
Fixpoint group (n : nat) (gs : list (nat * list ascii)) : option (list ascii) :=
  match gs with
  | [] => None
  | (k, s) :: gs' => if k =? n then Some s else group n gs'
  end.

Definition result (st st' : mstate) : MatchResult :=
  Match (pos st) (consumed st st') (caps st') (before st') (after st').

(** Leftmost match at or after the current position. *)
Fixpoint search (r : regex) (bef aft : list ascii) : option MatchResult :=
  match run r (MState bef aft []) with
  | st' :: _ => Some (result (MState bef aft []) st')
  | [] =>
      match aft with
      | [] => None
      | c :: aft' => search r (c :: bef) aft'
      end
  end.

(** [re.exec(s)] on a fresh literal, [s.match(re)] without the [g] flag. *)
Definition exec (r : regex) (s : list ascii) : option MatchResult :=
  search r [] s.

(** [re.test(s)] on a fresh literal. *)
Definition test (r : regex) (s : list ascii) : bool :=
  match exec r s with Some _ => true | None => false end.

(** [s.search(re)] *)
Definition search_index (r : regex) (s : list ascii) : Z :=
  match exec r s with Some m => Z.of_nat (index m) | None => (-1)%Z end.

(** [while ((m = re.exec(s)) !== null) { ... }] with the [g] flag: each
    [exec] starts at the [lastIndex] the previous match left.  The loop
    ends at the first failure; [fuel] bounds the number of rounds. *)
Fixpoint exec_loop (fuel : nat) (r : regex) (bef aft : list ascii)
  : list MatchResult :=
  match fuel with
  | 0 => []
  | S fuel' =>
      match search r bef aft with
      | None => []
      | Some m => m :: exec_loop fuel' r (rest_before m) (rest_after m)
      end
  end.

(** Every match of a literal in a [g] loop of the provider is at least one
    character long, so the loop runs at most [length s] rounds before the
    failing [exec]. *)
Definition exec_all (r : regex) (s : list ascii) : list MatchResult :=
  exec_loop (S (length s)) r [] s.

(** [(s.match(re) || []).length] with the [g] flag: the number of
    successive matches; after an empty match the search moves on by one
    character. *)
Fixpoint match_count_loop (fuel : nat) (r : regex) (bef aft : list ascii) : nat :=
  match fuel with
  | 0 => 0
  | S fuel' =>
      match search r bef aft with
      | None => 0
      | Some m =>
          S (if index m <? lastIndex m
             then match_count_loop fuel' r (rest_before m) (rest_after m)
             else match rest_after m with
                  | [] => 0
                  | c :: aft' => match_count_loop fuel' r (c :: rest_before m) aft'
                  end)
      end
  end.

Definition match_count (r : regex) (s : list ascii) : nat :=
  match_count_loop (S (length s)) r [] s.

End Regex.

(** ** JavaScript numbers, as far as [parseInt] of a digit string goes *)

Module Number.
Import Js.

(** [parseInt] of decimal digits is a non-negative integer rounded to the
    nearest double (ties to even), or [Infinity] from [2^1024 - 2^970] on;
    without a leading digit it is [NaN]. *)
Inductive number : Type :=
| Num (z : Z)
| Infinity
| NaN.

Local Open Scope Z_scope.

Definition toDouble (n : Z) : number :=
  if n <? 2 ^ 53 then Num n
  else
    let k := Z.log2 n - 52 in
    let q := Z.shiftr n k in
    let r := Z.land n (2 ^ k - 1) in
    let half := 2 ^ (k - 1) in
    let q' := if (half <? r) || ((r =? half) && Z.odd q) then q + 1 else q in
    let v := q' * 2 ^ k in
    if 2 ^ 1024 <=? v then Infinity else Num v.

Definition digitValue (c : ascii) : Z := Z.of_nat (code c) - 48.

(** The integer a digit string denotes, most significant digit first. *)
Definition decimal (ds : list ascii) : Z :=
  fold_left (fun acc c => 10 * acc + digitValue c) ds 0.

Fixpoint leadingDigits (s : list ascii) : list ascii :=
  match s with
  | c :: s' => if isDigit c then c :: leadingDigits s' else []
  | [] => []
  end.

(** [parseInt(s)] for [s] without sign, blanks or radix prefix, which is
    all a [\d+] capture can be. *)
Definition parseInt (s : list ascii) : number :=
  match leadingDigits s with
  | [] => NaN
  | ds => toDouble (decimal ds)
  end.

(** [a >= b] *)
Definition geq (a b : number) : bool :=
  match a, b with
  | Num x, Num y => y <=? x
  | Infinity, Num _ => true
  | Infinity, Infinity => true
  | _, _ => false
  end.

End Number.

(** ** Diagnostics *)

Import Js Regex Number.

Inductive DiagnosticSeverity : Type := Error | Warning | Information.

(** The four arguments of [new vscode.Range(...)], as passed. *)
Record Range : Type := mkRange {
  startLine : Z;
  startCharacter : Z;
  endLine : Z;
  endCharacter : Z
}.

Record Diagnostic : Type := mkDiagnostic {
  range : Range;
  message : string;
  severity : DiagnosticSeverity;
  source : string
}.

(** [new vscode.Diagnostic(range, message, severity)] followed by
    [diagnostic.source = 'cscript']. *)
Definition diag (r : Range) (msg : string) (sev : DiagnosticSeverity) : Diagnostic :=
  mkDiagnostic r msg sev "cscript".

(** A range inside line [lineNumber]. *)
Definition lineRange (lineNumber : nat) (c1 c2 : Z) : Range :=
  mkRange (Z.of_nat lineNumber) c1 (Z.of_nat lineNumber) c2.

Definition len (s : list ascii) : Z := Z.of_nat (length s).

(** [m[n]] for a group that is part of every match of its literal. *)
Definition grp (n : nat) (m : MatchResult) : list ascii :=
  match group n (groups m) with Some s => s | None => [] end.

Definition dq : string := String "034" EmptyString.

(** [Cat [r1; ...; rn]] is the concatenation [r1 ... rn]. *)
Definition Cat (rs : list regex) : regex := fold_right Seq Eps rs.

Definition sp : regex := Chr isSpace.
Definition lit (s : string) : regex := Lit (str s).
Definition notChr (a : ascii) (c : ascii) : bool := negb (chr a c).

(** ** The check methods of [CScriptDiagnosticProvider] *)

(** [/\|[^>]/g] *)
Definition pipelineRegex : regex := Seq (Chr (chr "|")) (Chr (notChr ">")).

Definition pipelineError (lineNumber index : nat) : Diagnostic :=
  diag (lineRange lineNumber (Z.of_nat index) (Z.of_nat index + 2))
       ("Invalid pipeline operator. Use " ++ dq ++ "|>" ++ dq
        ++ " for pipeline operations.")
       Error.

Definition checkPipelineOperators (line : list ascii) (lineNumber : nat)
  : list Diagnostic :=
  map (fun m => pipelineError lineNumber (index m)) (exec_all pipelineRegex line)
  ++ (if endsWith (str "|>") (trim line)
      then [diag (lineRange lineNumber (lastIndexOf (str "|>") line) (len line))
                 "Pipeline operator at end of line requires a continuation on the next line."
                 Warning]
      else []).

(** [/\{/g] and [/\}/g], and the other bracket characters further down. *)
Definition count (c : ascii) (line : list ascii) : Z :=
  Z.of_nat (match_count (Chr (chr c)) line).

(** [/\bmatch\s*\{/g] *)
Definition matchKeyword : regex :=
  Cat [WordB; lit "match"; Star sp; Chr (chr "{")].

(** The literal of [matchArm], piece by piece: [^], [\s*], group 1 [.+],
    [\s*], [=>], [\s*], group 2 [.*], [$]. *)
Definition matchArm : regex :=
  Cat [Bol; Star sp; Grp 1 (Plus (Chr isDot)); Star sp; lit "=>"; Star sp;
       Grp 2 (Star (Chr isDot)); Eol].

(** The [for (let i = lineNumber; i < lines.length; i++)] loop of
    [checkMatchExpressions], over the lines from [lineNumber] on; the result
    is [foundClosing]. *)
Fixpoint findClosing (rest : list (list ascii)) (i lineNumber : nat)
  (braceCount : Z) : bool :=
  match rest with
  | [] => false
  | currentLine :: rest' =>
      let braceCount := (braceCount + count "{" currentLine)%Z in
      let braceCount := (braceCount - count "}" currentLine)%Z in
      if (braceCount =? 0)%Z && (lineNumber <? i) then true
      else findClosing rest' (S i) lineNumber braceCount
  end.

Definition matchNotClosed (line : list ascii) (lineNumber : nat) : Diagnostic :=
  diag (lineRange lineNumber (indexOf (str "match") line)
                  (indexOf (str "match") line + 5))
       "Match expression is not properly closed with }"
       Error.

Definition matchArmError (line : list ascii) (lineNumber : nat) : Diagnostic :=
  diag (lineRange lineNumber 0 (len line))
       ("Match arm must have a pattern before " ++ dq ++ "=>" ++ dq)
       Error.

Definition checkMatchExpressions (line : list ascii) (lineNumber : nat)
  (lines : list (list ascii)) : list Diagnostic :=
  (if test matchKeyword line
   then if findClosing (skipn lineNumber lines) lineNumber lineNumber 0
        then []
        else [matchNotClosed line lineNumber]
   else [])
  ++ (if test matchArm (trim line)
      then match exec matchArm line with
           | Some m =>
               match trim (grp 1 m) with
               | [] => [matchArmError line lineNumber]
               | _ :: _ => []
               end
           | None => []
           end
      else []).

(** [/^[a-zA-Z_$][a-zA-Z0-9_$]*$/] *)
Definition isIdentStart (c : ascii) : bool :=
  ((65 <=? code c) && (code c <=? 90)) || ((97 <=? code c) && (code c <=? 122))
  || chr "_" c || chr "$" c.

Definition isIdentPart (c : ascii) : bool := isIdentStart c || isDigit c.

Definition identifierRegex : regex :=
  Cat [Bol; Chr isIdentStart; Star (Chr isIdentPart); Eol].

(** [/\bfrom\s+(\w+)\s+in\s+/] *)
Definition fromRegex : regex :=
  Cat [WordB; lit "from"; Plus sp; Grp 1 (Plus (Chr isWord)); Plus sp;
       lit "in"; Plus sp].

Definition checkLinqQueries (line : list ascii) (lineNumber : nat)
  : list Diagnostic :=
  (if test fromRegex line
   then match exec fromRegex line with
        | Some m =>
            if negb (test identifierRegex (grp 1 m))
            then let varStart := indexOf (grp 1 m) line in
                 [diag (lineRange lineNumber varStart (varStart + len (grp 1 m)))
                       "Invalid variable name in LINQ query. Must be a valid identifier."
                       Error]
            else []
        | None => []
        end
   else [])
  ++ (if test (Cat [WordB; lit "from"; WordB]) line
         && negb (test (Cat [WordB; lit "select"; WordB]) line)
      then [diag (lineRange lineNumber (indexOf (str "from") line)
                            (indexOf (str "from") line + 4))
                 "LINQ query should end with a select clause."
                 Information]
      else []).

(** [/\boperator\s+([+\-*/%=<>!&|^~]+)\s*\(/] *)
Definition operatorRegex : regex :=
  Cat [WordB; lit "operator"; Plus sp; Grp 1 (Plus (Chr (oneOf "+-*/%=<>!&|^~")));
       Star sp; Chr (chr "(")].

Definition validOperators : list string :=
  ["+"; "-"; "*"; "/"; "%"; "=="; "!="; "<"; ">"; "<="; ">="; "&&"; "||";
   "&"; "|"; "^"; "~"; "<<"; ">>"; "+="; "-="; "*="; "/="; "%="]%string.

(** [xs.join(sep)] *)
Fixpoint join (sep : string) (xs : list string) : string :=
  match xs with
  | [] => ""
  | [x] => x
  | x :: xs' => x ++ sep ++ join sep xs'
  end.

Definition checkOperatorOverloading (line : list ascii) (lineNumber : nat)
  : list Diagnostic :=
  match exec operatorRegex line with
  | Some m =>
      if negb (bool_decide (string_of_list_ascii (grp 1 m) ∈ validOperators))
      then let opStart := indexOf (grp 1 m) line in
           [diag (lineRange lineNumber opStart (opStart + len (grp 1 m)))
                 ("Invalid operator " ++ dq ++ string_of_list_ascii (grp 1 m) ++ dq
                  ++ " for overloading. Valid operators: "
                  ++ join ", " validOperators)
                 Error]
      else []
  | None => []
  end.

(** [/\bfunction\s+(\w+)\s*\(/] *)
Definition functionRegex : regex :=
  Cat [WordB; lit "function"; Plus sp; Grp 1 (Plus (Chr isWord)); Star sp;
       Chr (chr "(")].

(** [/=>\s*$/] *)
Definition arrowRegex : regex := Cat [lit "=>"; Star sp; Eol].

Definition arrowWarning (line : list ascii) (lineNumber : nat) : Diagnostic :=
  diag (lineRange lineNumber (lastIndexOf (str "=>") line) (len line))
       "Arrow function body is missing."
       Warning.

Definition checkFunctionSyntax (line : list ascii) (lineNumber : nat)
  : list Diagnostic :=
  (match exec functionRegex line with
   | Some m =>
       if negb (test identifierRegex (grp 1 m))
       then let fnStart := indexOf (grp 1 m) line in
            [diag (lineRange lineNumber fnStart (fnStart + len (grp 1 m)))
                  "Invalid function name. Must be a valid identifier."
                  Error]
       else []
   | None => []
   end)
  ++ (if test arrowRegex line then [arrowWarning line lineNumber] else []).

(** [/^\t+ +/] and [/^ +\t/] *)
Definition tabsThenSpace : regex := Cat [Bol; Plus (Chr (chr "009")); Plus (Chr (chr " "))].
Definition spacesThenTab : regex := Cat [Bol; Plus (Chr (chr " ")); Chr (chr "009")].

(** [/\S/] *)
Definition nonSpace : regex := Chr (fun c => negb (isSpace c)).

(** The Warning of the mixed-indentation rule, with the arguments the code
    passes to the constructors. *)
Definition mixedIndentation (line : list ascii) (lineNumber : nat) : Diagnostic :=
  diag (lineRange lineNumber 0 (search_index nonSpace line))
       "Mixed tabs and spaces for indentation. Choose either tabs or spaces consistently."
       Warning.

(** [new vscode.Range(startLine, startCharacter, endLine, endCharacter)]:
    the editor refuses a negative line or character with an exception. *)
Definition newRange (startLine startCharacter endLine endCharacter : Z)
  : option Range :=
  if (0 <=? startLine)%Z && (0 <=? startCharacter)%Z
     && (0 <=? endLine)%Z && (0 <=? endCharacter)%Z
  then Some (mkRange startLine startCharacter endLine endCharacter)
  else None.

(** [openBraces] and [closeBraces] are computed and never read.  The end
    column is [line.search(/\S/)], which is [-1] on a line of blanks: there
    the constructor throws and nothing is pushed. *)
Definition checkBracesAndIndentation (line : list ascii) (lineNumber : nat)
  (lines : list (list ascii)) : option (list Diagnostic) :=
  let openBraces := count "{" line in
  let closeBraces := count "}" line in
  if test tabsThenSpace line || test spacesThenTab line
  then match newRange (Z.of_nat lineNumber) 0 (Z.of_nat lineNumber)
                      (search_index nonSpace line) with
       | Some range =>
           Some [diag range
                      "Mixed tabs and spaces for indentation. Choose either tabs or spaces consistently."
                      Warning]
       | None => None
       end
  else Some [].

(** The character loop of [checkUnclosedStrings]; [stringChar] is [None] for
    the empty string.  The result is the final [(inString, stringChar)]. *)
Fixpoint stringScan (chars : list ascii) (inString : bool)
  (stringChar : option ascii) (escaped : bool) : bool * option ascii :=
  match chars with
  | [] => (inString, stringChar)
  | char :: chars' =>
      if escaped then stringScan chars' inString stringChar false
      else if chr "\" char then stringScan chars' inString stringChar true
      else if negb inString && (chr "034" char || chr "'" char || chr "`" char)
      then stringScan chars' true (Some char) false
      else if inString && bool_decide (Some char = stringChar)
      then stringScan chars' false None false
      else stringScan chars' inString stringChar false
  end.

Definition checkUnclosedStrings (line : list ascii) (lineNumber : nat)
  : list Diagnostic :=
  match stringScan line false None false with
  | (true, stringChar) =>
      [diag (lineRange lineNumber 0 (len line))
            ("Unclosed "
             ++ (if bool_decide (stringChar = Some "`"%char)
                 then "template literal" else "string")
             ++ ".")
            Error]
  | (false, _) => []
  end.

(** [/\b\d+\w+\b/g] *)
Definition invalidIdentifier : regex :=
  Cat [WordB; Plus (Chr isDigit); Plus (Chr isWord); WordB].

Definition identifierError (lineNumber : nat) (m : MatchResult) : Diagnostic :=
  diag (lineRange lineNumber (Z.of_nat (index m))
                  (Z.of_nat (index m) + len (whole m)))
       "Identifiers cannot start with a number."
       Error.

Definition checkInvalidIdentifiers (line : list ascii) (lineNumber : nat)
  : list Diagnostic :=
  map (identifierError lineNumber) (exec_all invalidIdentifier line).

Definition checkSemicolonUsage (line : list ascii) (lineNumber : nat)
  : list Diagnostic :=
  if includes (str ":") line && endsWith (str ";") (trim line)
  then [diag (lineRange lineNumber (lastIndexOf (str ";") line) (len line))
             "Semicolon not needed when using Python-style syntax with colons."
             Information]
  else [].

(** [/\bstruct\s+(\w+)/] and [/^[A-Z][a-zA-Z0-9_]*$/] *)
Definition structRegex : regex :=
  Cat [WordB; lit "struct"; Plus sp; Grp 1 (Plus (Chr isWord))].

Definition isUpper (c : ascii) : bool := (65 <=? code c) && (code c <=? 90).

Definition pascalRegex : regex := Cat [Bol; Chr isUpper; Star (Chr isWord); Eol].

Definition checkStructSyntax (line : list ascii) (lineNumber : nat)
  : list Diagnostic :=
  match exec structRegex line with
  | Some m =>
      if negb (test pascalRegex (grp 1 m))
      then let structStart := indexOf (grp 1 m) line in
           [diag (lineRange lineNumber structStart (structStart + len (grp 1 m)))
                 "Struct names should start with an uppercase letter and follow PascalCase convention."
                 Warning]
      else []
  | None => []
  end.

(** [/\{\s*(get|set)[;\s]*(get|set)?[;\s]*\}/] *)
Definition semiOrSpace (c : ascii) : bool := chr ";" c || isSpace c.

Definition autoPropertyRegex : regex :=
  Cat [Chr (chr "{"); Star sp; Grp 1 (Alt (lit "get") (lit "set"));
       Star (Chr semiOrSpace); Opt (Grp 2 (Alt (lit "get") (lit "set")));
       Star (Chr semiOrSpace); Chr (chr "}")].

(** [/\{\s*([^}]+)\s*\}/] *)
Definition braceBlock : regex :=
  Cat [Chr (chr "{"); Star sp; Grp 1 (Plus (Chr (notChr "}"))); Star sp;
       Chr (chr "}")].

Definition autoPropertyError (line : list ascii) (lineNumber : nat) : Diagnostic :=
  diag (lineRange lineNumber (indexOf (str "{") line) (indexOf (str "}") line + 1))
       ("Auto-property must include at least one of " ++ dq ++ "get" ++ dq
        ++ " or " ++ dq ++ "set" ++ dq ++ ".")
       Error.

Definition checkAutoProperties (line : list ascii) (lineNumber : nat)
  : list Diagnostic :=
  if test autoPropertyRegex line
  then match exec braceBlock line with
       | Some m =>
           if negb (includes (str "get") (grp 1 m))
              && negb (includes (str "set") (grp 1 m))
           then [autoPropertyError line lineNumber]
           else []
       | None => []
       end
  else [].

(** [/(\d+)\.\.(\d+|_)/g] *)
Definition rangeRegex : regex :=
  Cat [Grp 1 (Plus (Chr isDigit)); Chr (chr "."); Chr (chr ".");
       Grp 2 (Alt (Plus (Chr isDigit)) (Chr (chr "_")))].

Definition rangeError (lineNumber : nat) (m : MatchResult) : Diagnostic :=
  diag (lineRange lineNumber (Z.of_nat (index m))
                  (Z.of_nat (index m) + len (whole m)))
       "Range start must be less than range end."
       Error.

(** The body of the [while] loop of [checkRangeOperators] for one match. *)
Definition rangeCheck (lineNumber : nat) (m : MatchResult) : list Diagnostic :=
  if negb (bool_decide (grp 2 m = str "_"))
  then let start := parseInt (grp 1 m) in
       let end_ := parseInt (grp 2 m) in
       if geq start end_ then [rangeError lineNumber m] else []
  else [].

Definition checkRangeOperators (line : list ascii) (lineNumber : nat)
  : list Diagnostic :=
  flat_map (rangeCheck lineNumber) (exec_all rangeRegex line).

(** [/\bwith\s*\{/] *)
Definition withRegex : regex := Cat [WordB; lit "with"; Star sp; Chr (chr "{")].

Definition checkWithExpressions (line : list ascii) (lineNumber : nat)
  : list Diagnostic :=
  if test withRegex line
  then if negb (includes (str "=") line) || startsWith (str "with") (trim line)
       then [diag (lineRange lineNumber (indexOf (str "with") line)
                             (indexOf (str "with") line + 4))
                  (dq ++ "with" ++ dq
                   ++ " expression must be used with an assignment or return statement.")
                  Warning]
       else []
  else [].

Definition checkGeneralSyntax (line : list ascii) (lineNumber : nat)
  : list Diagnostic :=
  checkUnclosedStrings line lineNumber
  ++ checkInvalidIdentifiers line lineNumber
  ++ checkSemicolonUsage line lineNumber
  ++ checkStructSyntax line lineNumber
  ++ checkAutoProperties line lineNumber
  ++ checkRangeOperators line lineNumber
  ++ checkWithExpressions line lineNumber.

(** The counting loop of [checkMultiLineConstructs]; the result is
    [(braceCount, bracketCount, parenCount)]. *)
Fixpoint countLoop (lines : list (list ascii)) (braceCount bracketCount parenCount : Z)
  : Z * Z * Z :=
  match lines with
  | [] => (braceCount, bracketCount, parenCount)
  | line :: lines' =>
      countLoop lines'
        (braceCount + count "{" line - count "}" line)%Z
        (bracketCount + count "[" line - count "]" line)%Z
        (parenCount + count "(" line - count ")" line)%Z
  end.

(** [new vscode.Range(lastLineIndex, 0, lastLineIndex, lines[lastLineIndex].length)] *)
Definition lastLineRange (lines : list (list ascii)) : Range :=
  let lastLineIndex := (Z.of_nat (length lines) - 1)%Z in
  mkRange lastLineIndex 0 lastLineIndex (len (List.last lines [])).

Definition unclosedBraces (lines : list (list ascii)) (braceCount : Z) : Diagnostic :=
  diag (lastLineRange lines)
       (showZ braceCount ++ " unclosed brace(s). Missing closing brace '}'.")
       Error.

Definition extraBraces (lines : list (list ascii)) (braceCount : Z) : Diagnostic :=
  diag (lastLineRange lines)
       (showZ (Z.abs braceCount) ++ " extra closing brace(s).")
       Error.

Definition unclosedBrackets (lines : list (list ascii)) (bracketCount : Z) : Diagnostic :=
  diag (lastLineRange lines)
       (showZ bracketCount ++ " unclosed bracket(s). Missing closing bracket ']'.")
       Error.

Definition unclosedParens (lines : list (list ascii)) (parenCount : Z) : Diagnostic :=
  diag (lastLineRange lines)
       (showZ parenCount
        ++ " unclosed parenthesis(es). Missing closing parenthesis ')'.")
       Error.

Definition checkMultiLineConstructs (lines : list (list ascii)) : list Diagnostic :=
  let '(braceCount, bracketCount, parenCount) := countLoop lines 0 0 0 in
  (if (0 <? braceCount)%Z then [unclosedBraces lines braceCount]
   else if (braceCount <? 0)%Z then [extraBraces lines braceCount]
   else [])
  ++ (if (0 <? bracketCount)%Z then [unclosedBrackets lines bracketCount] else [])
  ++ (if (0 <? parenCount)%Z then [unclosedParens lines parenCount] else []).

(** ** [updateDiagnostics] *)

(** The [for (let lineIndex = 0; lineIndex < lines.length; lineIndex++)] loop:
    [rest] is what is left of [lines] from [lineIndex] on.  An exception in
    [checkBracesAndIndentation] ends the loop, and the diagnostics pushed so
    far are lost with the local array. *)
Fixpoint lineLoop (rest : list (list ascii)) (lineIndex : nat)
  (lines : list (list ascii)) : option (list Diagnostic) :=
  match rest with
  | [] => Some []
  | line :: rest' =>
      let lineNumber := lineIndex in
      let before_ :=
        checkPipelineOperators line lineNumber
        ++ checkMatchExpressions line lineNumber lines
        ++ checkLinqQueries line lineNumber
        ++ checkOperatorOverloading line lineNumber
        ++ checkFunctionSyntax line lineNumber in
      match checkBracesAndIndentation line lineNumber lines with
      | None => None
      | Some indentation =>
          match lineLoop rest' (S lineIndex) lines with
          | None => None
          | Some later =>
              Some (before_ ++ indentation
                    ++ checkGeneralSyntax line lineNumber ++ later)
          end
      end
  end.

(** Everything [updateDiagnostics] pushes onto [diagnostics] between the
    configuration guard and [diagnosticCollection.set]; [None] when an
    exception ends the scan. *)
Definition collect (text : list ascii) : option (list Diagnostic) :=
  let lines := split_lines text in
  match lineLoop lines 0 lines with
  | Some diagnostics => Some (diagnostics ++ checkMultiLineConstructs lines)
  | None => None
  end.

Record TextDocument : Type := mkDocument {
  uri : string;
  getText : list ascii
}.

(** [config.get(key, defaultValue)] on the [cscript] section. *)
Definition configGet (config : gmap string bool) (key : string)
  (defaultValue : bool) : bool :=
  default defaultValue (config !! key).

(** How a call ends, with the state it leaves: it returns, or an exception
    leaves it. *)
Inductive Completion (S : Type) : Type :=
| Returns (s : S)
| Throws (s : S).
Arguments Returns {S} s.
Arguments Throws {S} s.

Definition state {S : Type} (c : Completion S) : S :=
  match c with Returns s | Throws s => s end.

(** The module-level [diagnosticCollection] is threaded through: the
    result holds the collection as the call leaves it.  An exception of the
    scan leaves the function before [diagnosticCollection.set]. *)
Definition updateDiagnostics (config : gmap string bool) (document : TextDocument)
  (diagnosticCollection : gmap string (list Diagnostic))
  : Completion (gmap string (list Diagnostic)) :=
  if negb (configGet config "diagnostics.enabled" true)
  then Returns diagnosticCollection
  else match collect (getText document) with
       | Some diagnostics =>
           Returns (<[uri document := diagnostics]> diagnosticCollection)
       | None => Throws diagnosticCollection
       end.

(** ** The event handlers of [activate] *)

(** A document as the editor hands it to a handler: its language and what
    [updateDiagnostics] reads of it. *)
Record EditorDocument : Type := mkEditorDocument {
  languageId : string;
  textDocument : TextDocument
}.

(** What the handlers share: the module-level [diagnosticCollection] and
    [diagnosticProvider.timeout].  A pending timer is the uri of the
    document object its callback closes over; the callback reads the text of
    that object when it runs, not when it is installed.  [None] when no
    callback is waiting. *)
Record Session : Type := mkSession {
  collection : gmap string (list Diagnostic);
  timeout : option string
}.

(** [document.languageId === 'cscript'] *)
Definition isCScript (document : EditorDocument) : bool :=
  bool_decide (languageId document = "cscript").

(** A handler is given the state the previous event left and gives the
    state it leaves to the next one, whether it returns or an exception of
    [updateDiagnostics] leaves it: that exception goes to the editor, which
    called the handler. *)
Definition onDidOpenTextDocument (config : gmap string bool)
  (document : EditorDocument) (s : Session) : Session :=
  if isCScript document
  then mkSession
         (state (updateDiagnostics config (textDocument document) (collection s)))
         (timeout s)
  else s.

(** [clearTimeout] drops the waiting callback, [setTimeout] installs the
    one for [event.document]. *)
Definition onDidChangeTextDocument (config : gmap string bool)
  (document : EditorDocument) (s : Session) : Session :=
  if isCScript document
  then if configGet config "diagnostics.checkOnType" true
       then mkSession (collection s) (Some (uri (textDocument document)))
       else s
  else s.

(** The 500 ms have passed: the waiting callback, if any, runs once;
    [text] is what [getText()] of the document it holds returns at that
    moment. *)
Definition timeoutElapsed (config : gmap string bool) (text : list ascii)
  (s : Session) : Session :=
  match timeout s with
  | Some u =>
      mkSession (state (updateDiagnostics config (mkDocument u text) (collection s)))
                None
  | None => s
  end.

Definition onDidCloseTextDocument (document : EditorDocument) (s : Session)
  : Session :=
  if isCScript document
  then mkSession (delete (uri (textDocument document)) (collection s)) (timeout s)
  else s.

(** [vscode.workspace.textDocuments.forEach(...)] at activation.  The
    callback is code of [activate] itself: an exception of
    [updateDiagnostics] ends the [forEach], and [activate] with it, so the
    documents that follow are not looked at. *)
Fixpoint checkOpenDocuments (config : gmap string bool)
  (textDocuments : list EditorDocument) (s : Session) : Completion Session :=
  match textDocuments with
  | [] => Returns s
  | document :: textDocuments' =>
      if isCScript document
      then match updateDiagnostics config (textDocument document) (collection s) with
           | Returns c =>
               checkOpenDocuments config textDocuments' (mkSession c (timeout s))
           | Throws c => Throws (mkSession c (timeout s))
           end
      else checkOpenDocuments config textDocuments' s
  end.

(** * Vocabulary of the statements *)

(** [charsIn P r]: every character class of [r] only accepts characters
    satisfying [P]. *)
Fixpoint charsIn (P : ascii -> Prop) (r : regex) : Prop :=
  match r with
  | Chr p => forall c, p c = true -> P c
  | Seq a b | Alt a b => charsIn P a /\ charsIn P b
  | Star a | Grp _ a => charsIn P a
  | Eps | Bol | Eol | WordB => True
  end.

(** [st'] is [st] moved forward over [w]. *)
Definition advanced (P : ascii -> Prop) (st st' : mstate) (w : list ascii) : Prop :=
  after st = w ++ after st' /\ before st' = rev w ++ before st /\ Forall P w.

(** [consuming r]: a syntactic guarantee that no match of [r] is empty. *)
Fixpoint consuming (r : regex) : bool :=
  match r with
  | Chr _ => true
  | Seq a b => consuming a || consuming b
  | Alt a b => consuming a && consuming b
  | Grp _ a => consuming a
  | Eps | Star _ | Bol | Eol | WordB => false
  end.

(** [p] is empty or its last character fails [P]. *)
Definition endsOutside (P : ascii -> Prop) (p : list ascii) : Prop :=
  forall p0 c, p = p0 ++ [c] -> ~ P c.

(** [confined ok r]: a match of [r] that starts inside a piece [p] of the
    line with [ok p] also ends inside [p]. *)
Definition confined (ok : list ascii -> Prop) (r : regex) : Prop :=
  forall bef p rest st',
    p <> [] -> ok p ->
    In st' (run r (MState bef (p ++ rest) [])) ->
    exists w p', p = w ++ p' /\ after st' = p' ++ rest /\ before st' = rev w ++ bef.

(** The states [p*] offers over a run [ds] of [p]-characters that [rest]
    does not prolong: the whole run first, then one character less at a
    time. *)
Fixpoint backtrack (bef ds rest : list ascii) (cs : list (nat * list ascii))
  : list mstate :=
  match ds with
  | [] => [MState bef rest cs]
  | d :: ds' => backtrack (d :: bef) ds' rest cs ++ [MState bef (ds ++ rest) cs]
  end.

(** [s] is empty or its first character fails [P]. *)
Definition startsOutside (P : ascii -> Prop) (s : list ascii) : Prop :=
  forall c s', s = c :: s' -> ~ P c.

(** A boolean character class as a predicate. *)
Definition holds (p : ascii -> bool) : ascii -> Prop := fun c => p c = true.

(** The characters of [\w]. *)
Definition wordChar : ascii -> Prop := holds isWord.

(** [x] is the first element of [l]: the match the backtracking search
    reports. *)
Definition heads {A} (l : list A) (x : A) : Prop := exists tl, l = x :: tl.

(** What a range token is made of before its last character. *)
Definition digitOrDot (c : ascii) : bool := isDigit c || chr "." c.

(** The state after [N..M] has been matched from [B]. *)
Definition afterRange (B N M post : list ascii) : mstate :=
  MState (rev (N ++ str ".." ++ M) ++ B) post [(2, M); (1, N)].

(** The last, resp. first, character of [s] satisfies [p]. *)
Definition lastIs (p : ascii -> bool) (s : list ascii) : bool :=
  match rev s with c :: _ => p c | [] => false end.

Definition firstIs (p : ascii -> bool) (s : list ascii) : bool :=
  match s with c :: _ => p c | [] => false end.

(** The diagnostics that start at column [col]. *)
Definition startingAt (col : nat) (ds : list Diagnostic) : list Diagnostic :=
  List.filter (fun d => (startCharacter (range d) =? Z.of_nat col)%Z) ds.

(** The Error of the range rule over the token [N..M] that follows [pre]. *)
Definition rangeErrorAt (lineNumber : nat) (pre N M : list ascii) : Diagnostic :=
  diag (lineRange lineNumber (len pre) (len pre + (len N + 2 + len M)))
       "Range start must be less than range end."
       Error.

(** Left to right, the columns of a [|] followed by a character other than
    [>]; after such a pair the scan resumes behind it. *)
Fixpoint badPipes (i : nat) (s : list ascii) : list nat :=
  match s with
  | c1 :: ((c2 :: s'') as s') =>
      if chr "|" c1 && notChr ">" c2
      then i :: badPipes (S (S i)) s''
      else badPipes (S i) s'
  | _ => []
  end.

(** The severity of [d] is [Error]. *)
Definition isError (d : Diagnostic) : bool :=
  match severity d with Error => true | _ => false end.

(** The Error diagnostics among [ds]. *)
Definition errorsOf (ds : list Diagnostic) : list Diagnostic := List.filter isError ds.

(** Net opening braces of a line: [{] minus [}]. *)
Definition braceDelta (line : list ascii) : Z :=
  (Z.of_nat (count_occ ascii_dec line "{"%char)
   - Z.of_nat (count_occ ascii_dec line "}"%char))%Z.

(** The sum of a list of integers. *)
Definition sumZ (l : list Z) : Z := fold_right Z.add 0%Z l.

(** The running count of [{] minus [}] over lines [lineNumber .. i]. *)
Definition runningCount (lines : list (list ascii)) (lineNumber i : nat) : Z :=
  sumZ (map braceDelta (firstn (S (i - lineNumber)) (skipn lineNumber lines))).

(** Occurrences of a character in the text, and the net count of an
    opening over a closing character. *)
Definition occ (c : ascii) (text : list ascii) : Z := Z.of_nat (count_occ ascii_dec text c).

Definition net (opening closing : ascii) (text : list ascii) : Z :=
  (occ opening text - occ closing text)%Z.

Definition netLines (opening closing : ascii) (lines : list (list ascii)) : Z :=
  sumZ (map (net opening closing) lines).

(** [capless r]: [r] has no capturing group. *)
Fixpoint capless (r : regex) : bool :=
  match r with
  | Grp _ _ => false
  | Seq a b | Alt a b => capless a && capless b
  | Star a => capless a
  | Eps | Chr _ | Bol | Eol | WordB => true
  end.

(** [matchArm] after its [^\s*]: the pattern group up to the end. *)
Definition armTail : regex :=
  Cat [Grp 1 (Plus (Chr isDot)); Star sp; lit "=>"; Star sp;
       Grp 2 (Star (Chr isDot)); Eol].

(** [s] reads as pattern [w1], blanks [b], [=>], blanks [c], expression
    [d]: the ways [armTail] matches all of [s]. *)
Definition armSplit (s w1 b c d : list ascii) : Prop :=
  s = w1 ++ b ++ str "=>" ++ c ++ d
  /\ w1 <> [] /\ Forall (holds isDot) w1 /\ Forall (holds isSpace) b
  /\ Forall (holds isSpace) c /\ Forall (holds isDot) d.

(** [r] can match from [st] up to the point where [rest] is left. *)
Definition reach (r : regex) (st : mstate) (rest : list ascii) : Prop :=
  exists st', In st' (run r st) /\ after st' = rest.

(** A range lies within the document: its lines exist, and its columns lie
    within the lines they refer to. *)
Definition inBounds (lines : list (list ascii)) (r : Range) : Prop :=
  (0 <= startLine r <= endLine r)%Z
  /\ (endLine r < Z.of_nat (length lines))%Z
  /\ (0 <= startCharacter r <= len (nth (Z.to_nat (startLine r)) lines []))%Z
  /\ (0 <= endCharacter r <= len (nth (Z.to_nat (endLine r)) lines []))%Z.

(** [p] occurs in [s]. *)
Definition factor (p s : list ascii) : Prop := exists a b, s = a ++ p ++ b.

(** [d] is a diagnostic of the provider on line [lineNumber]. *)
Definition onLine (lineNumber : nat) (d : Diagnostic) : Prop :=
  source d = "cscript"
  /\ startLine (range d) = Z.of_nat lineNumber
  /\ endLine (range d) = Z.of_nat lineNumber.

(** Both columns of [d] lie within [line]. *)
Definition colsWithin (line : list ascii) (d : Diagnostic) : Prop :=
  (0 <= startCharacter (range d) <= len line)%Z
  /\ (0 <= endCharacter (range d) <= len line)%Z.

(** The whole string a state is a position of. *)
Definition input (st : mstate) : list ascii := rev (before st) ++ after st.

(** [st'] is a later position of the same string, and what it captured
    beyond [st] occurs in that string. *)
Definition threads (st st' : mstate) : Prop :=
  input st' = input st
  /\ forall n w, In (n, w) (caps st') -> In (n, w) (caps st) \/ factor w (input st).

(** [d] is on line [lineNumber], whose text is [line], and its columns are
    in order within the line, or it is the auto-property Error, whose
    columns are within the line in either order. *)
Definition spot (line : list ascii) (lineNumber : nat) (d : Diagnostic) : Prop :=
  onLine lineNumber d
  /\ ((0 <= startCharacter (range d) <= endCharacter (range d)
       /\ endCharacter (range d) <= len line)%Z
      \/ (d = autoPropertyError line lineNumber /\ colsWithin line d)).

(** The four arguments of [d]'s range pass the constructor. *)
Definition constructible (d : Diagnostic) : Prop :=
  newRange (startLine (range d)) (startCharacter (range d))
           (endLine (range d)) (endCharacter (range d))
  = Some (range d).

(** The piece of [text.split('\n')] as the editor has the line: without the
    carriage return a document with CRLF line ends leaves at its end. *)
Definition lineText (piece : list ascii) : list ascii :=
  if lastIs (chr "013") piece then removelast piece else piece.

(** [1] when the piece ends with a carriage return, [0] otherwise. *)
Definition carriageReturn (piece : list ascii) : Z :=
  if lastIs (chr "013") piece then 1%Z else 0%Z.

(** [denotes r B w rest]: the literal [r] matches the characters [w] when
    [B] is what precedes them, last character first, and [rest] what
    follows.  A repetition is made of rounds that are not empty. *)
Inductive denotes : regex -> list ascii -> list ascii -> list ascii -> Prop :=
| d_eps B rest : denotes Eps B [] rest
| d_chr (p : ascii -> bool) c B rest : p c = true -> denotes (Chr p) B [c] rest
| d_seq r1 r2 B w1 w2 rest :
    denotes r1 B w1 (w2 ++ rest) -> denotes r2 (rev w1 ++ B) w2 rest ->
    denotes (Seq r1 r2) B (w1 ++ w2) rest
| d_alt_l r1 r2 B w rest : denotes r1 B w rest -> denotes (Alt r1 r2) B w rest
| d_alt_r r1 r2 B w rest : denotes r2 B w rest -> denotes (Alt r1 r2) B w rest
| d_star_nil r B rest : denotes (Star r) B [] rest
| d_star_cons r B w1 w2 rest :
    w1 <> [] ->
    denotes r B w1 (w2 ++ rest) -> denotes (Star r) (rev w1 ++ B) w2 rest ->
    denotes (Star r) B (w1 ++ w2) rest
| d_grp n r B w rest : denotes r B w rest -> denotes (Grp n r) B w rest
| d_bol rest : denotes Bol [] [] rest
| d_eol B : denotes Eol B [] []
| d_wordb B rest :
    xorb (firstIs isWord B) (firstIs isWord rest) = true -> denotes WordB B [] rest.

(** [st'] is [st] moved over a match [w] of [r]. *)
Definition moved (r : regex) (st st' : mstate) (w : list ascii) : Prop :=
  after st = w ++ after st' /\ before st' = rev w ++ before st
  /\ denotes r (before st) w (after st').

(** The line starts with tabs and then a space, or with spaces and then a
    tab. *)
Definition mixedStart (line : list ascii) : Prop :=
  exists n rest,
    line = repeat "009"%char (S n) ++ " "%char :: rest
    \/ line = repeat " "%char (S n) ++ "009"%char :: rest.

(** A line that starts with mixed indentation and holds blanks only. *)
Definition blankMixed (line : list ascii) : Prop :=
  mixedStart line /\ Forall (holds isSpace) line.

(** The Warning diagnostics among [ds]. *)
Definition warningsOf (ds : list Diagnostic) : list Diagnostic :=
  List.filter (fun d => match severity d with Warning => true | _ => false end) ds.

(** [c] is not a blank. *)
Definition solid (c : ascii) : Prop := isSpace c = false.

(** [line] ends with [p], blanks apart. *)
Definition endsWithToken (p line : list ascii) : Prop :=
  exists x ws, line = x ++ p ++ ws /\ Forall (holds isSpace) ws.

(** The characters that open a string. *)
Definition isQuote (c : ascii) : bool := chr "034" c || chr "'" c || chr "`" c.

(** A character other than the backslash that, if it is a quote, is [q]. *)
Definition plainOrQuote (q c : ascii) : Prop :=
  c <> "\"%char /\ (isQuote c = true -> c = q).

(** [kw] stands in [line] as a whole word: no word character directly
    before or after it. *)
Definition wholeWord (kw line : list ascii) : Prop :=
  exists a b, line = a ++ kw ++ b
              /\ lastIs isWord a = false /\ firstIs isWord b = false.

(** The Information diagnostics among [ds]. *)
Definition informationOf (ds : list Diagnostic) : list Diagnostic :=
  List.filter (fun d => match severity d with Information => true | _ => false end)
              ds.

(** [line] holds [with], not directly preceded by a word character and
    followed, blanks apart, by an opening brace. *)
Definition withBlock (line : list ascii) : Prop :=
  exists a ws b, line = a ++ str "with" ++ ws ++ "{"%char :: b
                 /\ lastIs isWord a = false /\ Forall (holds isSpace) ws.

(** [pre] ends with a digit followed by two dots. *)
Definition endsWithRange (pre : list ascii) : bool :=
  match rev pre with
  | d2 :: d1 :: c :: _ => chr "." d2 && chr "." d1 && isDigit c
  | _ => false
  end.

(** Where the scan of the range rule stands when it comes to the end of
    [pre], a range token following.  [scanAt true pre]: the token is met,
    the search that finds it starts at or before its column and nothing
    before it reaches into it.  [scanAt false pre]: the token is swallowed,
    [pre] ending with a range [D..] that is itself met, so that the match
    found there takes the digits of the token as its upper bound.  Along a
    chain [D1..D2..D3..] the two alternate. *)
Inductive scanAt : bool -> list ascii -> Prop :=
| scan_free pre :
    lastIs isDigit pre = false -> endsWithRange pre = false -> scanAt true pre
| scan_next b pre D :
    D <> [] -> Forall (holds isDigit) D -> scanAt b pre ->
    scanAt (negb b) (pre ++ D ++ str "..").

Definition met (pre : list ascii) : Prop := scanAt true pre.
Definition swallowed (pre : list ascii) : Prop := scanAt false pre.

(** The loop of the range rule over [line] comes to search from the
    position that has [bef] behind it and [rest] ahead, every match found
    until then starting before column [col]. *)
Definition resumes (line : list ascii) (col : nat) (bef rest : list ascii) : Prop :=
  exists ms1 fuel',
    length rest < fuel'
    /\ exec_all rangeRegex line = ms1 ++ exec_loop fuel' rangeRegex bef rest
    /\ Forall (fun m => index m < col) ms1.

(** * Facts about the matcher *)

Section MatcherFacts.

Lemma advanced_refl P st : advanced P st st [].
Proof. repeat split; constructor. Qed.

Lemma advanced_trans P st1 st2 st3 w1 w2 :
  advanced P st1 st2 w1 -> advanced P st2 st3 w2 -> advanced P st1 st3 (w1 ++ w2).
Proof.
  intros (Ha1 & Hb1 & Hf1) (Ha2 & Hb2 & Hf2). repeat split.
  - rewrite Ha1, Ha2. now rewrite <- app_assoc.
  - rewrite Hb2, Hb1, rev_app_distr. now rewrite <- app_assoc.
  - apply Forall_app; auto.
Qed.

Lemma star_loop_advanced P (step : mstate -> list mstate) :
  (forall st st', In st' (step st) -> exists w, advanced P st st' w) ->
  forall fuel st st',
    In st' (star_loop step fuel st) -> exists w, advanced P st st' w.
Proof.
  intros Hstep fuel. induction fuel as [|fuel IH]; intros st st' Hin; simpl in Hin.
  - destruct Hin as [<-|[]]. exists []. apply advanced_refl.
  - apply in_app_iff in Hin. destruct Hin as [Hin|[<-|[]]].
    + apply in_flat_map in Hin. destruct Hin as (mid & Hmid & Hin).
      destruct (length (after mid) <? length (after st)); [|destruct Hin].
      destruct (Hstep _ _ Hmid) as (w1 & H1).
      destruct (IH _ _ Hin) as (w2 & H2).
      exists (w1 ++ w2). eapply advanced_trans; eauto.
    + exists []. apply advanced_refl.
Qed.

(** Every result of [run] is the start state moved forward over a word
    made of characters the classes of [r] accept. *)
Lemma run_advanced P r :
  charsIn P r ->
  forall st st', In st' (run r st) -> exists w, advanced P st st' w.
Proof.
  induction r as [|p|r1 IH1 r2 IH2|r1 IH1 r2 IH2|r IH|n r IH| | |];
    intros HP st st' Hin; simpl in *.
  - destruct Hin as [<-|[]]. exists []. apply advanced_refl.
  - destruct st as [bef [|c aft] cs]; simpl in *; [destruct Hin|].
    destruct (p c) eqn:Hp; [|destruct Hin]. destruct Hin as [<-|[]].
    exists [c]. repeat split; simpl; auto.
  - destruct HP as [HP1 HP2]. apply in_flat_map in Hin.
    destruct Hin as (mid & Hmid & Hin).
    destruct (IH1 HP1 _ _ Hmid) as (w1 & H1).
    destruct (IH2 HP2 _ _ Hin) as (w2 & H2).
    exists (w1 ++ w2). eapply advanced_trans; eauto.
  - destruct HP as [HP1 HP2]. apply in_app_iff in Hin.
    destruct Hin as [Hin|Hin]; eauto.
  - apply (star_loop_advanced P (run r) (IH HP) (S (length (after st)))).
    exact Hin.
  - apply in_map_iff in Hin. destruct Hin as (mid & <- & Hmid).
    destruct (IH HP _ _ Hmid) as (w & Ha & Hb & Hf).
    exists w. repeat split; simpl; auto.
  - destruct (before st); [|destruct Hin]. destruct Hin as [<-|[]].
    exists []. apply advanced_refl.
  - destruct (after st); [|destruct Hin]. destruct Hin as [<-|[]].
    exists []. apply advanced_refl.
  - destruct (xorb _ _); [|destruct Hin]. destruct Hin as [<-|[]].
    exists []. apply advanced_refl.
Qed.

(** The rounds [run] allows a repetition are enough: more of them change
    nothing. *)
Lemma star_loop_fuel (step : mstate -> list mstate) :
  forall n st f1 f2,
    length (after st) = n -> n < f1 -> n < f2 ->
    star_loop step f1 st = star_loop step f2 st.
Proof.
  induction n as [n IH] using lt_wf_ind. intros st f1 f2 Hn H1 H2.
  destruct f1 as [|f1]; [lia|]. destruct f2 as [|f2]; [lia|].
  cbn [star_loop]. f_equal. apply flat_map_ext. intros st'.
  destruct (length (after st') <? length (after st)) eqn:E; [|reflexivity].
  apply Nat.ltb_lt in E. apply (IH (length (after st'))); lia.
Qed.

Lemma charsIn_True r : charsIn (fun _ => True) r.
Proof. induction r; simpl; auto. Qed.

Lemma run_forward r st st' :
  In st' (run r st) ->
  exists w, after st = w ++ after st' /\ before st' = rev w ++ before st.
Proof.
  intros Hin. destruct (run_advanced _ r (charsIn_True r) _ _ Hin) as (w & Ha & Hb & _).
  eauto.
Qed.

Lemma consuming_shortens r :
  consuming r = true ->
  forall st st', In st' (run r st) -> length (after st') < length (after st).
Proof.
  induction r as [|p|r1 IH1 r2 IH2|r1 IH1 r2 IH2|r IH|n r IH| | |];
    intros Hc st st' Hin; simpl in *; try discriminate.
  - destruct st as [bef [|c aft] cs]; simpl in *; [destruct Hin|].
    destruct (p c); [|destruct Hin]. destruct Hin as [<-|[]]. simpl. lia.
  - apply in_flat_map in Hin. destruct Hin as (mid & Hmid & Hin).
    destruct (run_forward _ _ _ Hmid) as (w1 & Ha1 & _).
    destruct (run_forward _ _ _ Hin) as (w2 & Ha2 & _).
    apply orb_true_iff in Hc. destruct Hc as [Hc|Hc].
    + specialize (IH1 Hc _ _ Hmid). rewrite Ha2, length_app in IH1. lia.
    + specialize (IH2 Hc _ _ Hin). rewrite Ha1, length_app. lia.
  - apply andb_true_iff in Hc. destruct Hc as [Hc1 Hc2].
    apply in_app_iff in Hin. destruct Hin; eauto.
  - apply in_map_iff in Hin. destruct Hin as (mid & <- & Hmid). simpl. eauto.
Qed.

End MatcherFacts.

(** * Facts about the [g] loops *)

Section LoopFacts.

Lemma search_miss r bef c aft :
  run r (MState bef (c :: aft) []) = [] ->
  search r bef (c :: aft) = search r (c :: bef) aft.
Proof. intros H. simpl. now rewrite H. Qed.

Lemma search_hit r bef aft st' tl :
  run r (MState bef aft []) = st' :: tl ->
  search r bef aft = Some (result (MState bef aft []) st').
Proof. intros H. destruct aft; simpl; now rewrite H. Qed.

Lemma exec_loop_miss fuel r bef c aft :
  run r (MState bef (c :: aft) []) = [] ->
  exec_loop fuel r bef (c :: aft) = exec_loop fuel r (c :: bef) aft.
Proof.
  intros H. destruct fuel as [|fuel]; [reflexivity|].
  cbn [exec_loop]. now rewrite (search_miss _ _ _ _ H).
Qed.

Lemma exec_loop_hit fuel r bef aft st' tl :
  run r (MState bef aft []) = st' :: tl ->
  exec_loop (S fuel) r bef aft =
  result (MState bef aft []) st' :: exec_loop fuel r (before st') (after st').
Proof.
  intros H. cbn [exec_loop]. now rewrite (search_hit _ _ _ _ _ H).
Qed.

(** A match is found at or after the position the search starts from, and
    ends no earlier than it begins. *)
Lemma search_bounds r : forall aft bef m,
  search r bef aft = Some m ->
  length bef <= index m /\ index m <= lastIndex m.
Proof.
  induction aft as [|c aft IH]; intros bef m H; simpl in H.
  - destruct (run r (MState bef [] [])) as [|st' tl] eqn:E; [discriminate|].
    injection H as <-. unfold lastIndex, result, pos. simpl.
    destruct (run_forward r _ st' (eq_ind_r (fun l => In st' l) (in_eq _ _) E))
      as (w & _ & Hb).
    simpl in Hb. rewrite Hb, length_app. lia.
  - destruct (run r (MState bef (c :: aft) [])) as [|st' tl] eqn:E.
    + apply IH in H. simpl in H. lia.
    + injection H as <-. unfold lastIndex, result, pos. simpl.
      destruct (run_forward r _ st' (eq_ind_r (fun l => In st' l) (in_eq _ _) E))
        as (w & _ & Hb).
      simpl in Hb. rewrite Hb, length_app. lia.
Qed.

Lemma exec_loop_index_ge r : forall fuel bef aft m,
  In m (exec_loop fuel r bef aft) -> length bef <= index m.
Proof.
  induction fuel as [|fuel IH]; intros bef aft m Hin; simpl in Hin; [destruct Hin|].
  destruct (search r bef aft) as [m0|] eqn:E; [|destruct Hin].
  apply search_bounds in E. destruct Hin as [<-|Hin]; [lia|].
  apply IH in Hin. unfold lastIndex in E. lia.
Qed.

(** A successful search shortens what is left of the line when the literal
    cannot match the empty string. *)
Lemma search_shortens r : consuming r = true ->
  forall aft bef m,
    search r bef aft = Some m -> length (rest_after m) < length aft.
Proof.
  intros Hc. induction aft as [|c aft IH]; intros bef m H; simpl in H.
  - destruct (run r (MState bef [] [])) as [|st' tl] eqn:E; [discriminate|].
    injection H as <-. simpl.
    apply (consuming_shortens r Hc (MState bef [] []) st'). rewrite E. now left.
  - destruct (run r (MState bef (c :: aft) [])) as [|st' tl] eqn:E.
    + apply IH in H. simpl. lia.
    + injection H as <-. simpl.
      apply (consuming_shortens r Hc (MState bef (c :: aft) []) st'). rewrite E. now left.
Qed.

(** The rounds [exec_all] allows are enough: with more fuel the loop of a
    literal that cannot match the empty string finds the same matches. *)
Lemma exec_loop_fuel r : consuming r = true ->
  forall n aft bef f1 f2,
    length aft = n -> length aft < f1 -> length aft < f2 ->
    exec_loop f1 r bef aft = exec_loop f2 r bef aft.
Proof.
  intros Hc n. induction n as [n IH] using lt_wf_ind.
  intros aft bef f1 f2 Hn H1 H2.
  destruct f1 as [|f1]; [lia|]. destruct f2 as [|f2]; [lia|].
  cbn [exec_loop]. destruct (search r bef aft) as [m|] eqn:E; [|reflexivity].
  pose proof (search_shortens r Hc _ _ _ E) as Hlt.
  f_equal. apply (IH (length (rest_after m))); lia.
Qed.

Lemma loop_literals_consume :
  consuming pipelineRegex = true /\ consuming invalidIdentifier = true
  /\ consuming rangeRegex = true.
Proof. repeat split. Qed.

Lemma endsOutside_suffix P a b : b <> [] -> endsOutside P (a ++ b) -> endsOutside P b.
Proof.
  intros _ H p0 c ->. apply (H (a ++ p0) c). now rewrite <- app_assoc.
Qed.

Lemma endsOutside_nil P : endsOutside P [].
Proof. intros p0 c H. destruct p0; discriminate. Qed.

(** A match made of [P]-characters that starts inside [p] cannot run past
    the end of [p] when [p] ends outside [P]. *)
Lemma stays_inside P (p rest w aft' : list ascii) :
  p <> [] -> endsOutside P p -> Forall P w ->
  p ++ rest = w ++ aft' ->
  exists p', p = w ++ p' /\ aft' = p' ++ rest.
Proof.
  intros Hne Hout Hw Heq. apply app_eq_app in Heq.
  destruct Heq as (l & [[-> ->]|[-> ->]]).
  - exists l. split; reflexivity.
  - destruct l as [|x l].
    + exists []. rewrite !app_nil_r. split; reflexivity.
    + exfalso. destruct (exists_last Hne) as (p0 & c & ->).
      apply (Hout p0 c eq_refl).
      apply Forall_app in Hw. destruct Hw as [Hw _].
      apply Forall_app in Hw. destruct Hw as [_ Hw]. now inversion Hw.
Qed.

Lemma charsIn_confined P r : charsIn P r -> confined (endsOutside P) r.
Proof.
  intros HP bef p rest st' Hne Hout Hin.
  destruct (run_advanced P r HP _ _ Hin) as (w & Ha & Hb & Hw). simpl in Ha, Hb.
  destruct (stays_inside P p rest w (after st') Hne Hout Hw Ha) as (p' & Hp & Ha').
  exists w, p'. auto.
Qed.

End LoopFacts.

(** * Greedy repetition of a character class *)

Section Repetition.

Lemma star_class p ds : Forall (holds p) ds ->
  forall bef rest cs fuel,
    startsOutside (holds p) rest ->
    length (ds ++ rest) < fuel ->
    star_loop (run (Chr p)) fuel (MState bef (ds ++ rest) cs) = backtrack bef ds rest cs.
Proof.
  induction 1 as [|d ds Hd Hds IH]; intros bef rest cs fuel Hrest Hfuel;
    (destruct fuel as [|fuel]; [lia|]); simpl.
  - destruct rest as [|c rest']; [reflexivity|].
    destruct (p c) eqn:Hp; [|reflexivity].
    exfalso. exact (Hrest c rest' eq_refl Hp).
  - unfold holds in Hd. rewrite Hd. simpl.
    replace (length (ds ++ rest) <? S (length (ds ++ rest))) with true
      by (symmetry; apply Nat.ltb_lt; lia).
    rewrite app_nil_r. rewrite IH; auto. simpl in Hfuel. lia.
Qed.

Lemma run_star_class p ds bef rest cs :
  Forall (holds p) ds -> startsOutside (holds p) rest ->
  run (Star (Chr p)) (MState bef (ds ++ rest) cs) = backtrack bef ds rest cs.
Proof. intros Hds Hrest. apply star_class; auto. Qed.

Lemma run_plus_class p d ds bef rest cs :
  p d = true -> Forall (holds p) ds -> startsOutside (holds p) rest ->
  run (Plus (Chr p)) (MState bef (d :: ds ++ rest) cs) = backtrack (d :: bef) ds rest cs.
Proof.
  intros Hd Hds Hrest. unfold Plus.
  change (run (Seq (Chr p) (Star (Chr p))) (MState bef (d :: ds ++ rest) cs))
    with (flat_map (run (Star (Chr p))) (run (Chr p) (MState bef (d :: ds ++ rest) cs))).
  cbn [run after before caps]. rewrite Hd. cbn [flat_map].
  rewrite app_nil_r. now apply run_star_class.
Qed.

Lemma run_plus_class_fail p bef rest cs :
  startsOutside (holds p) rest ->
  run (Plus (Chr p)) (MState bef rest cs) = [].
Proof.
  intros Hrest. unfold Plus.
  change (run (Seq (Chr p) (Star (Chr p))) (MState bef rest cs))
    with (flat_map (run (Star (Chr p))) (run (Chr p) (MState bef rest cs))).
  cbn [run after before caps]. destruct rest as [|c rest']; [reflexivity|].
  destruct (p c) eqn:Hp; [|reflexivity].
  exfalso. exact (Hrest c rest' eq_refl Hp).
Qed.

Lemma backtrack_head bef ds rest cs :
  exists tl, backtrack bef ds rest cs = MState (rev ds ++ bef) rest cs :: tl.
Proof.
  revert bef. induction ds as [|d ds IH]; intros bef; simpl.
  - now exists [].
  - destruct (IH (d :: bef)) as (tl & ->). rewrite <- app_assoc. simpl. eauto.
Qed.

Lemma backtrack_snoc bef ds d rest cs :
  backtrack bef (ds ++ [d]) rest cs =
  MState (rev (ds ++ [d]) ++ bef) rest cs :: backtrack bef ds (d :: rest) cs.
Proof.
  revert bef. induction ds as [|a ds IH]; intros bef; simpl.
  - reflexivity.
  - rewrite IH. rewrite <- !app_assoc. simpl. reflexivity.
Qed.

(** What a match consumed, read back from the two states. *)
Lemma consumed_word bef aft cs w aft' cs' :
  consumed (MState bef aft cs) (MState (rev w ++ bef) aft' cs') = w.
Proof.
  unfold consumed, pos. simpl. rewrite length_app, length_rev.
  replace (length w + length bef - length bef) with (length (rev w))
    by (rewrite length_rev; lia).
  rewrite firstn_app, Nat.sub_diag, firstn_all. simpl.
  rewrite app_nil_r. apply rev_involutive.
Qed.

End Repetition.

(** * Leading-digit identifiers *)

Section InvalidIdentifiers.

Lemma digit_is_word c : isDigit c = true -> isWord c = true.
Proof. intros H. unfold isWord. rewrite H. now rewrite orb_true_r. Qed.

Lemma invalidIdentifier_chars : charsIn wordChar invalidIdentifier.
Proof.
  unfold wordChar, holds. simpl. repeat split; auto using digit_is_word.
Qed.

Lemma startsOutside_digit s : startsOutside wordChar s -> startsOutside (holds isDigit) s.
Proof. intros H c s' -> Hd. exact (H c s' eq_refl (digit_is_word c Hd)). Qed.

(** At a run of two or more digits with no word character on either side,
    the literal matches the whole run: [\d+] first takes it all, gives the
    last digit back to [\w+], and both [\b] hold. *)
Lemma invalidIdentifier_at_number B ds post :
  2 <= length ds -> Forall (holds isDigit) ds ->
  wordBefore (MState B (ds ++ post) []) = false ->
  startsOutside wordChar post ->
  exists tl,
    run invalidIdentifier (MState B (ds ++ post) []) =
    MState (rev ds ++ B) post [] :: tl.
Proof.
  intros Hlen Hds HB Hpost.
  destruct ds as [|d1 ds']; [simpl in Hlen; lia|].
  destruct (exists_last (l := ds')) as (mid & dl & ->).
  { intros ->. simpl in Hlen. lia. }
  inversion Hds as [|? ? Hd1 Hds']; subst.
  apply Forall_app in Hds'. destruct Hds' as [Hmid Hdl].
  inversion Hdl as [|? ? Hdl' _]; subst.
  unfold invalidIdentifier, Cat. cbn [fold_right].
  change (run (Seq WordB ?X) ?st) with (flat_map (run X) (run WordB st)).
  cbn [run]. rewrite HB.
  assert (Hwa : wordAfter (MState B ((d1 :: mid ++ [dl]) ++ post) []) = true)
    by (simpl; now apply digit_is_word).
  rewrite Hwa. cbn [xorb flat_map]. rewrite app_nil_r.
  change (run (Seq (Plus (Chr isDigit)) ?X) ?st)
    with (flat_map (run X) (run (Plus (Chr isDigit)) st)).
  change ((d1 :: mid ++ [dl]) ++ post) with (d1 :: (mid ++ [dl]) ++ post).
  rewrite run_plus_class; auto using startsOutside_digit.
  2:{ apply Forall_app; split; auto. }
  rewrite backtrack_snoc.
  destruct (backtrack_head (d1 :: B) mid (dl :: post) []) as (tl & ->).
  cbn [flat_map].
  change (run (Seq (Plus (Chr isWord)) ?X) ?st)
    with (flat_map (run X) (run (Plus (Chr isWord)) st)).
  rewrite (run_plus_class_fail isWord _ post); auto. cbn [flat_map app].
  rewrite (run_plus_class isWord dl [] _ post); auto using digit_is_word.
  cbn [backtrack flat_map].
  change (run (Seq WordB Eps) ?st) with (flat_map (run Eps) (run WordB st)).
  cbn [run].
  assert (Hwb : wordBefore (MState (dl :: rev mid ++ d1 :: B) post []) = true)
    by (simpl; now apply digit_is_word).
  assert (Hwa' : wordAfter (MState (dl :: rev mid ++ d1 :: B) post []) = false).
  { unfold wordAfter. simpl. destruct post as [|c post']; [reflexivity|].
    destruct (isWord c) eqn:Hc; [|reflexivity].
    exfalso. exact (Hpost c post' eq_refl Hc). }
  rewrite Hwb, Hwa'. cbn [xorb flat_map app run].
  eexists. f_equal. f_equal.
  simpl. rewrite rev_app_distr. simpl. now rewrite <- app_assoc.
Qed.

End InvalidIdentifiers.

Section Confinement.

Variable r : regex.
Variable ok : list ascii -> Prop.
Hypothesis ok_suffix : forall a b, b <> [] -> ok (a ++ b) -> ok b.
Hypothesis r_confined : confined ok r.
Hypothesis r_consuming : consuming r = true.

(** One round of the loop from inside the prefix [c :: p]: a match, if there
    is one, ends inside the prefix and is not empty. *)
Lemma confined_hit bef c p rest st' tl :
  ok (c :: p) ->
  run r (MState bef ((c :: p) ++ rest) []) = st' :: tl ->
  exists w p', c :: p = w ++ p' /\ after st' = p' ++ rest
               /\ before st' = rev w ++ bef /\ 0 < length w.
Proof.
  intros Hok E.
  assert (Hin : In st' (run r (MState bef ((c :: p) ++ rest) [])))
    by (rewrite E; left; auto).
  destruct (r_confined bef (c :: p) rest st' ltac:(discriminate) Hok Hin)
    as (w & p' & Hp & Ha & Hb).
  exists w, p'. repeat split; auto.
  pose proof (consuming_shortens r r_consuming _ _ Hin) as Hlt.
  cbn [after] in Hlt. rewrite Ha, Hp, <- app_assoc, !length_app in Hlt. lia.
Qed.

(** The loop reaches a token that follows a prefix in which matches are
    confined: the matches before it lie inside the prefix, the token is
    matched where it stands, and everything later starts after it. *)
Lemma exec_loop_reaches :
  forall n p bef rest fuel st_tok tl,
    length p = n ->
    (p <> [] -> ok p) ->
    run r (MState (rev p ++ bef) rest []) = st_tok :: tl ->
    length (p ++ rest) < fuel ->
    exists ms1 ms2,
      exec_loop fuel r bef (p ++ rest) =
        ms1 ++ result (MState (rev p ++ bef) rest []) st_tok :: ms2
      /\ Forall (fun m => index m < length bef + length p) ms1
      /\ Forall (fun m => length bef + length p < index m) ms2.
Proof.
  induction n as [n IH] using lt_wf_ind.
  intros p bef rest fuel st_tok tl Hn Hok Htok Hfuel.
  destruct fuel as [|fuel]; [lia|].
  destruct p as [|c p].
  - simpl in *. exists [], (exec_loop fuel r (before st_tok) (after st_tok)).
    split; [|split].
    + simpl. now rewrite (search_hit _ _ _ _ _ Htok).
    + constructor.
    + apply List.Forall_forall. intros m Hm. apply exec_loop_index_ge in Hm.
      assert (Hin : In st_tok (run r (MState bef rest []))) by (rewrite Htok; left; auto).
      pose proof (consuming_shortens r r_consuming _ _ Hin) as Hlt.
      destruct (run_forward r _ _ Hin) as (w & Ha & Hb). simpl in *.
      rewrite Ha, length_app in Hlt. rewrite Hb, length_app, length_rev in Hm. lia.
  - specialize (Hok ltac:(discriminate)).
    destruct (run r (MState bef ((c :: p) ++ rest) [])) as [|st' tl'] eqn:E.
    + simpl in E. change ((c :: p) ++ rest) with (c :: (p ++ rest)).
      rewrite (exec_loop_miss _ _ _ _ _ E).
      destruct (IH (length p) ltac:(simpl in Hn; lia) p (c :: bef) rest (S fuel) st_tok tl)
        as (ms1 & ms2 & Heq & H1 & H2); auto.
      * intros Hne. now apply (ok_suffix [c]).
      * simpl in Htok. now rewrite <- app_assoc in Htok.
      * simpl in Hfuel. lia.
      * exists ms1, ms2. simpl in Heq, H1, H2 |- *.
        rewrite <- app_assoc. simpl. split; [exact Heq|]. split.
        -- eapply List.Forall_impl; [|exact H1]. simpl. intros; lia.
        -- eapply List.Forall_impl; [|exact H2]. simpl. intros; lia.
    + destruct (confined_hit bef c p rest st' tl' Hok E) as (w & p' & Hp & Ha' & Hb & Hwlen).
      pose proof (f_equal (@length ascii) Hp) as Hl. rewrite length_app in Hl.
      rewrite (exec_loop_hit _ _ _ _ _ _ E).
      destruct (IH (length p') ltac:(rewrite <- Hn; lia)
                   p' (before st') rest fuel st_tok tl)
        as (ms1 & ms2 & Heq & H1 & H2); auto.
      * intros Hne. apply (ok_suffix w); [exact Hne|]. now rewrite <- Hp.
      * rewrite Hb, app_assoc, <- rev_app_distr, <- Hp. exact Htok.
      * rewrite length_app in Hfuel |- *. lia.
      * exists (result (MState bef ((c :: p) ++ rest) []) st' :: ms1), ms2.
        rewrite Ha' , Heq. rewrite Hb, app_assoc, <- rev_app_distr, <- Hp.
        split; [reflexivity|]. split.
        -- constructor; [unfold result, pos; simpl; lia|].
           eapply List.Forall_impl; [|exact H1]. intros m Hm. cbv beta in Hm.
           rewrite Hb, length_app, length_rev in Hm. lia.
        -- eapply List.Forall_impl; [|exact H2]. intros m Hm. cbv beta in Hm.
           rewrite Hb, length_app, length_rev in Hm. lia.
Qed.

(** When the literal does not match where the prefix ends, the loop reports
    no match starting there. *)
Lemma exec_loop_avoids :
  forall n p bef rest fuel,
    length p = n ->
    (p <> [] -> ok p) ->
    run r (MState (rev p ++ bef) rest []) = [] ->
    forall m, In m (exec_loop fuel r bef (p ++ rest)) ->
              index m <> length bef + length p.
Proof.
  induction n as [n IH] using lt_wf_ind.
  intros p bef rest fuel Hn Hok Hnone m Hm.
  destruct fuel as [|fuel]; [destruct Hm|].
  destruct p as [|c p].
  - simpl in Hnone |- *. change ([] ++ rest) with rest in Hm.
    destruct rest as [|c rest].
    + simpl in Hm. rewrite Hnone in Hm. destruct Hm.
    + rewrite (exec_loop_miss _ _ _ _ _ Hnone) in Hm.
      apply exec_loop_index_ge in Hm. simpl in Hm. lia.
  - specialize (Hok ltac:(discriminate)).
    destruct (run r (MState bef ((c :: p) ++ rest) [])) as [|st' tl'] eqn:E.
    + change ((c :: p) ++ rest) with (c :: (p ++ rest)) in Hm, E.
      rewrite (exec_loop_miss _ _ _ _ _ E) in Hm.
      assert (Hgoal : index m <> length (c :: bef) + length p).
      { apply (IH (length p) ltac:(simpl in Hn; lia) p (c :: bef) rest (S fuel)); auto.
        - intros Hne. now apply (ok_suffix [c]).
        - simpl in Hnone. now rewrite <- app_assoc in Hnone. }
      simpl in Hgoal |- *. lia.
    + destruct (confined_hit bef c p rest st' tl' Hok E) as (w & p' & Hp & Ha' & Hb & Hwlen).
      pose proof (f_equal (@length ascii) Hp) as Hl. rewrite length_app in Hl.
      rewrite (exec_loop_hit _ _ _ _ _ _ E) in Hm.
      destruct Hm as [<-|Hm]; [unfold result, pos; simpl; lia|].
      rewrite Ha' in Hm.
      assert (Hgoal : index m <> length (before st') + length p').
      { apply (IH (length p') ltac:(rewrite <- Hn; lia) p' (before st') rest fuel); auto.
        - intros Hne. apply (ok_suffix w); [exact Hne|]. now rewrite <- Hp.
        - rewrite Hb, app_assoc, <- rev_app_distr, <- Hp. exact Hnone. }
      rewrite Hb, length_app, length_rev in Hgoal. lia.
Qed.

End Confinement.

Section InvalidIdentifiersRule.

Lemma wordBefore_endsOutside pre aft cs :
  endsOutside wordChar pre -> wordBefore (MState (rev pre ++ []) aft cs) = false.
Proof.
  intros Hout. unfold wordBefore. simpl. rewrite app_nil_r.
  destruct pre as [|c0 pre0] using rev_ind; [reflexivity|].
  rewrite rev_app_distr. simpl.
  destruct (isWord c0) eqn:Hc; [|reflexivity].
  exfalso. exact (Hout pre0 c0 eq_refl Hc).
Qed.

(** A lone digit between non-word characters is not matched. *)
Lemma invalidIdentifier_at_digit B d post :
  isDigit d = true ->
  wordBefore (MState B (d :: post) []) = false ->
  startsOutside wordChar post ->
  run invalidIdentifier (MState B (d :: post) []) = [].
Proof.
  intros Hd HB Hpost.
  unfold invalidIdentifier, Cat. cbn [fold_right].
  change (run (Seq WordB ?X) ?st) with (flat_map (run X) (run WordB st)).
  cbn [run]. rewrite HB.
  assert (Hwa : wordAfter (MState B (d :: post) []) = true)
    by (simpl; now apply digit_is_word).
  rewrite Hwa. cbn [xorb flat_map]. rewrite app_nil_r.
  change (run (Seq (Plus (Chr isDigit)) ?X) ?st)
    with (flat_map (run X) (run (Plus (Chr isDigit)) st)).
  rewrite (run_plus_class isDigit d [] B post); auto using startsOutside_digit.
  cbn [backtrack flat_map].
  change (run (Seq (Plus (Chr isWord)) ?X) ?st)
    with (flat_map (run X) (run (Plus (Chr isWord)) st)).
  rewrite (run_plus_class_fail isWord _ post); auto.
Qed.

End InvalidIdentifiersRule.

(** * Range tokens *)

Section RangeTokens.

Lemma heads_app {A} (l l' : list A) x : heads l x -> heads (l ++ l') x.
Proof. intros (tl & ->). now exists (tl ++ l'). Qed.

Lemma heads_map {A B} (f : A -> B) l x : heads l x -> heads (map f l) (f x).
Proof. intros (tl & ->). now exists (map f tl). Qed.

Lemma heads_flat_map {A B} (f : A -> list B) l x y :
  heads l x -> heads (f x) y -> heads (flat_map f l) y.
Proof. intros (tl & ->) (tl' & H). simpl. rewrite H. now exists (tl' ++ flat_map f tl). Qed.

Lemma heads_seq r1 r2 st mid st' :
  heads (run r1 st) mid -> heads (run r2 mid) st' -> heads (run (Seq r1 r2) st) st'.
Proof. intros H1 H2. exact (heads_flat_map (run r2) _ _ _ H1 H2). Qed.

Lemma heads_chr (p : ascii -> bool) bef c aft cs :
  p c = true -> heads (run (Chr p) (MState bef (c :: aft) cs)) (MState (c :: bef) aft cs).
Proof. intros H. simpl. rewrite H. now exists []. Qed.

Lemma heads_digits bef d ds rest cs :
  Forall (holds isDigit) (d :: ds) -> startsOutside (holds isDigit) rest ->
  heads (run (Plus (Chr isDigit)) (MState bef (d :: ds ++ rest) cs))
        (MState (rev (d :: ds) ++ bef) rest cs).
Proof.
  intros Hds Hrest. inversion Hds; subst.
  rewrite run_plus_class; auto.
  destruct (backtrack_head (d :: bef) ds rest cs) as (tl & ->).
  exists tl. simpl. now rewrite <- app_assoc.
Qed.

Lemma in_run_seq r1 r2 st st' :
  In st' (run (Seq r1 r2) st) ->
  exists mid, In mid (run r1 st) /\ In st' (run r2 mid).
Proof. intros H. apply in_flat_map in H. exact H. Qed.

Lemma digit_is_digitOrDot c : holds isDigit c -> holds digitOrDot c.
Proof. unfold holds, digitOrDot. now intros ->. Qed.

Lemma dot_is_digitOrDot c : holds (chr ".") c -> holds digitOrDot c.
Proof. unfold holds, digitOrDot. intros ->. apply orb_true_r. Qed.

(** Every match of the range literal is made of digits and dots up to its
    last character, which is a digit or the underscore. *)
Lemma rangeRegex_shape st st' :
  In st' (run rangeRegex st) ->
  exists w0 cl,
    after st = (w0 ++ [cl]) ++ after st'
    /\ before st' = rev (w0 ++ [cl]) ++ before st
    /\ Forall (holds digitOrDot) w0.
Proof.
  unfold rangeRegex, Cat. cbn [fold_right]. intros H.
  apply in_run_seq in H. destruct H as (m1 & H1 & H).
  apply in_run_seq in H. destruct H as (m2 & H2 & H).
  apply in_run_seq in H. destruct H as (m3 & H3 & H).
  apply in_run_seq in H. destruct H as (m4 & H4 & H).
  destruct H as [<-|[]].
  apply (run_advanced (holds digitOrDot)) in H1;
    [|simpl; auto using digit_is_digitOrDot].
  apply (run_advanced (holds digitOrDot)) in H2; [|exact dot_is_digitOrDot].
  apply (run_advanced (holds digitOrDot)) in H3; [|exact dot_is_digitOrDot].
  destruct H1 as (w1 & A1). destruct H2 as (w2 & A2). destruct H3 as (w3 & A3).
  pose proof (advanced_trans _ _ _ _ _ _ (advanced_trans _ _ _ _ _ _ A1 A2) A3) as A.
  cbn [run] in H4. apply in_map_iff in H4. destruct H4 as (x & <- & Hx).
  cbn [before after]. apply in_app_iff in Hx. destruct Hx as [Hx|Hx].
  - pose proof (consuming_shortens (Plus (Chr isDigit)) eq_refl _ _ Hx) as Hlt.
    apply (run_advanced (holds digitOrDot)) in Hx;
      [|simpl; auto using digit_is_digitOrDot].
    destruct Hx as (w4 & A4).
    destruct (advanced_trans _ _ _ _ _ _ A A4) as (Ha & Hb & Hw).
    destruct A4 as (Ha4 & _ & _). rewrite Ha4, length_app in Hlt.
    destruct w4 as [|c4 w4] using rev_ind; [simpl in Hlt; lia|].
    rewrite !app_assoc in Ha, Hb, Hw. exists (((w1 ++ w2) ++ w3) ++ w4), c4.
    repeat split; auto. apply Forall_app in Hw. tauto.
  - destruct A as (Ha & Hb & Hw).
    destruct (after m3) as [|c aft] eqn:E; [destruct Hx|].
    destruct (chr "_" c); [|destruct Hx]. destruct Hx as [<-|[]].
    cbn [before after]. exists ((w1 ++ w2) ++ w3), c.
    repeat split; auto.
    + rewrite Ha. now rewrite <- !app_assoc.
    + rewrite Hb, !rev_app_distr. simpl. now rewrite <- !app_assoc.
Qed.

Lemma rangeRegex_confined : confined (endsOutside (holds digitOrDot)) rangeRegex.
Proof.
  intros bef p rest st' Hne Hout Hin.
  destruct (rangeRegex_shape _ _ Hin) as (w0 & cl & Ha & Hb & Hw). cbn [after before] in Ha, Hb.
  apply app_eq_app in Ha. destruct Ha as (l & [[Hp Ha]|[Hp Ha]]).
  - exists (w0 ++ [cl]), l. auto.
  - destruct l as [|x l] using rev_ind.
    + rewrite app_nil_r in Hp. rewrite Hp in Hb. exists p, [].
      rewrite app_nil_r. simpl in Ha. auto.
    + exfalso. rewrite app_assoc in Hp. apply app_inj_tail in Hp. destruct Hp as [Hp _].
      destruct (exists_last Hne) as (p0 & c & ->).
      apply (Hout p0 c eq_refl). rewrite Hp in Hw.
      apply Forall_app in Hw. destruct Hw as [Hw _].
      apply Forall_app in Hw. destruct Hw as [_ Hw]. now inversion Hw.
Qed.

Lemma afterRange_before B N M :
  rev M ++ "."%char :: "."%char :: rev N ++ B = rev (N ++ str ".." ++ M) ++ B.
Proof.
  rewrite !rev_app_distr. simpl. rewrite <- !app_assoc. reflexivity.
Qed.

Lemma heads_grp n r st st' w :
  heads (run r st) st' -> consumed st st' = w ->
  heads (run (Grp n r) st) (MState (before st') (after st') ((n, w) :: caps st')).
Proof. intros H <-. cbn [run]. now apply heads_map with (f := fun x => MState _ _ _). Qed.

Lemma rangeRegex_at_closed B N M post :
  N <> [] -> Forall (holds isDigit) N ->
  M <> [] -> Forall (holds isDigit) M ->
  startsOutside (holds isDigit) post ->
  heads (run rangeRegex (MState B (N ++ str ".." ++ M ++ post) []))
        (afterRange B N M post).
Proof.
  intros HN HdN HM HdM Hpost.
  unfold rangeRegex, Cat, afterRange. cbn [fold_right]. rewrite <- afterRange_before.
  apply heads_seq with (mid := MState (rev N ++ B) (str ".." ++ M ++ post) [(1, N)]).
  { apply (heads_grp 1 _ _ (MState (rev N ++ B) (str ".." ++ M ++ post) []) N);
      [|apply consumed_word].
    destruct N as [|n N']; [congruence|].
    apply (heads_digits B n N' (str ".." ++ M ++ post) []); auto.
    intros c s' H Hc. injection H as <- _. discriminate. }
  apply heads_seq with (mid := MState ("."%char :: rev N ++ B) ("."%char :: M ++ post) [(1, N)]);
    [apply heads_chr; reflexivity|].
  apply heads_seq with (mid := MState ("."%char :: "."%char :: rev N ++ B) (M ++ post) [(1, N)]);
    [apply heads_chr; reflexivity|].
  apply heads_seq with
    (mid := MState (rev M ++ "."%char :: "."%char :: rev N ++ B) post [(2, M); (1, N)]);
    [|exists []; reflexivity].
  apply (heads_grp 2 _ _ (MState (rev M ++ "."%char :: "."%char :: rev N ++ B) post [(1, N)]) M);
    [|apply consumed_word].
  cbn [run]. apply heads_app.
  destruct M as [|m M']; [congruence|].
  apply (heads_digits _ m M' post); auto.
Qed.

Lemma rangeRegex_at_open B N post :
  N <> [] -> Forall (holds isDigit) N ->
  heads (run rangeRegex (MState B (N ++ str ".." ++ str "_" ++ post) []))
        (afterRange B N (str "_") post).
Proof.
  intros HN HdN.
  unfold rangeRegex, Cat, afterRange. cbn [fold_right]. rewrite <- afterRange_before.
  apply heads_seq with (mid := MState (rev N ++ B) (str ".." ++ str "_" ++ post) [(1, N)]).
  { apply (heads_grp 1 _ _ (MState (rev N ++ B) (str ".." ++ str "_" ++ post) []) N);
      [|apply consumed_word].
    destruct N as [|n N']; [congruence|].
    apply (heads_digits B n N' (str ".." ++ str "_" ++ post) []); auto.
    intros c s' H Hc. injection H as <- _. discriminate. }
  apply heads_seq with
    (mid := MState ("."%char :: rev N ++ B) ("."%char :: str "_" ++ post) [(1, N)]);
    [apply heads_chr; reflexivity|].
  apply heads_seq with
    (mid := MState ("."%char :: "."%char :: rev N ++ B) (str "_" ++ post) [(1, N)]);
    [apply heads_chr; reflexivity|].
  apply heads_seq with
    (mid := MState (rev (str "_") ++ "."%char :: "."%char :: rev N ++ B) post
                   [(2, str "_"); (1, N)]);
    [|exists []; reflexivity].
  apply (heads_grp 2 _ _
           (MState (rev (str "_") ++ "."%char :: "."%char :: rev N ++ B) post [(1, N)])
           (str "_"));
    [|apply (consumed_word _ _ _ (str "_"))].
  cbn [run].
  rewrite run_plus_class_fail.
  - apply heads_chr. reflexivity.
  - intros c s' H Hc. injection H as <- _. discriminate.
Qed.

End RangeTokens.

Section Delimiters.

Lemma lastIs_endsOutside p s : lastIs p s = false -> endsOutside (holds p) s.
Proof.
  unfold lastIs. intros H p0 c -> Hc. rewrite rev_app_distr in H. simpl in H.
  unfold holds in Hc. congruence.
Qed.

Lemma firstIs_startsOutside p s : firstIs p s = false -> startsOutside (holds p) s.
Proof. unfold firstIs. intros H c s' -> Hc. unfold holds in Hc. congruence. Qed.

Lemma forallb_holds p l : forallb p l = true -> Forall (holds p) l.
Proof.
  intros H. apply List.Forall_forall. intros x Hx.
  exact (proj1 (forallb_forall p l) H x Hx).
Qed.

End Delimiters.

(** C10.  On any line, a run [ds] of digits standing alone (no word
    character directly before or after it) is reported by the leading-digit
    rule with the Error "Identifiers cannot start with a number." over
    exactly its span as soon as it has two digits or more, the digit run
    being split between [\d+] and [\w+]; a run of a single digit is exempt:
    no diagnostic of the rule starts at its column. *)
Theorem standalone_number_flagged (pre ds post : list ascii) (lineNumber : nat) :
  forallb isDigit ds = true ->
  lastIs isWord pre = false ->
  firstIs isWord post = false ->
  (2 <= length ds ->
   In (diag (lineRange lineNumber (len pre) (len pre + len ds))
            "Identifiers cannot start with a number." Error)
      (checkInvalidIdentifiers (pre ++ ds ++ post) lineNumber))
  /\ (length ds = 1 ->
      forall d, In d (checkInvalidIdentifiers (pre ++ ds ++ post) lineNumber) ->
                startCharacter (range d) <> len pre).
Proof.
  intros Hds Hpre Hpost. apply forallb_holds in Hds.
  apply lastIs_endsOutside in Hpre. apply firstIs_startsOutside in Hpost.
  fold wordChar in Hpre, Hpost. split.
  - intros Hlen.
    destruct (invalidIdentifier_at_number (rev pre ++ []) ds post Hlen Hds
                (wordBefore_endsOutside pre _ _ Hpre) Hpost) as (tl & Htok).
    destruct (exec_loop_reaches invalidIdentifier (endsOutside wordChar)
                (endsOutside_suffix wordChar)
                (charsIn_confined _ _ invalidIdentifier_chars) eq_refl
                (length pre) pre [] (ds ++ post)
                (S (length (pre ++ ds ++ post))) _ tl eq_refl (fun _ => Hpre) Htok)
      as (ms1 & ms2 & Heq & _); [lia|].
    unfold checkInvalidIdentifiers, exec_all. rewrite Heq, map_app.
    apply in_or_app. right. left.
    unfold identifierError, result. cbn [index whole].
    rewrite consumed_word. unfold pos, len. cbn [before].
    now rewrite app_nil_r, length_rev.
  - intros Hlen d Hd.
    destruct ds as [|d1 [|d2 ds']]; try discriminate.
    inversion Hds as [|? ? Hd1 _]; subst.
    unfold checkInvalidIdentifiers in Hd. apply in_map_iff in Hd.
    destruct Hd as (m & <- & Hm). unfold exec_all in Hm.
    pose proof (exec_loop_avoids invalidIdentifier (endsOutside wordChar)
                  (endsOutside_suffix wordChar)
                  (charsIn_confined _ _ invalidIdentifier_chars) eq_refl
                  (length pre) pre [] ([d1] ++ post) _ eq_refl (fun _ => Hpre)
                  (invalidIdentifier_at_digit (rev pre ++ []) d1 post Hd1
                     (wordBefore_endsOutside pre _ _ Hpre) Hpost) m Hm) as Hne.
    unfold identifierError, len. simpl in Hne |- *. lia.
Qed.

Lemma standalone_number_flagged_witness :
  In (diag (lineRange 0 8 11) "Identifiers cannot start with a number." Error)
     (checkInvalidIdentifiers (str "let x = 123;") 0).
Proof.
  apply (proj1 (standalone_number_flagged (str "let x = ") (str "123") (str ";") 0
                  eq_refl eq_refl eq_refl)).
  simpl. lia.
Defined.

Section RangeRule.

Lemma rangeCheck_start lineNumber m d :
  In d (rangeCheck lineNumber m) -> startCharacter (range d) = Z.of_nat (index m).
Proof.
  unfold rangeCheck. destruct (negb _); [|intros []].
  destruct (geq _ _); [|intros []]. intros [<-|[]]. reflexivity.
Qed.

Lemma startingAt_elsewhere lineNumber col ms :
  Forall (fun m => index m <> col) ms ->
  startingAt col (flat_map (rangeCheck lineNumber) ms) = [].
Proof.
  induction 1 as [|m ms Hm _ IH]; [reflexivity|].
  simpl. unfold startingAt in *. rewrite List.filter_app, IH, app_nil_r.
  destruct (List.filter _ (rangeCheck lineNumber m)) as [|d tl] eqn:E; [reflexivity|].
  assert (Hd : In d (List.filter
                       (fun d => (startCharacter (range d) =? Z.of_nat col)%Z)
                       (rangeCheck lineNumber m))) by (rewrite E; left; auto).
  apply List.filter_In in Hd. destruct Hd as [Hin Heq].
  apply rangeCheck_start in Hin. apply Z.eqb_eq in Heq. lia.
Qed.

Lemma leadingDigits_all ds : Forall (holds isDigit) ds -> leadingDigits ds = ds.
Proof.
  induction 1 as [|d ds Hd _ IH]; [reflexivity|].
  simpl. unfold holds in Hd. now rewrite Hd, IH.
Qed.

Lemma parseInt_exact ds :
  ds <> [] -> Forall (holds isDigit) ds -> (decimal ds < 2 ^ 53)%Z ->
  parseInt ds = Num (decimal ds).
Proof.
  intros Hne Hds Hlt. unfold parseInt. rewrite (leadingDigits_all ds Hds).
  destruct ds as [|d ds']; [congruence|].
  unfold toDouble. now apply Z.ltb_lt in Hlt as ->.
Qed.

Lemma digits_not_underscore M : Forall (holds isDigit) M -> M <> str "_".
Proof. intros H ->. inversion H as [|? ? Hd _]; subst. discriminate. Qed.

End RangeRule.

Section RangeTheorem.

Lemma range_match_fields pre N M post :
  let m := result (MState (rev pre ++ []) (N ++ str ".." ++ M ++ post) [])
                  (afterRange (rev pre ++ []) N M post) in
  index m = length pre /\ whole m = N ++ str ".." ++ M
  /\ grp 1 m = N /\ grp 2 m = M.
Proof.
  unfold result, afterRange. cbn [index whole]. rewrite consumed_word.
  unfold pos, grp. cbn. rewrite app_nil_r, length_rev. auto.
Qed.

End RangeTheorem.

(** * Pipeline operators *)

Section Pipeline.

Lemma badPipes_step i c1 c2 s :
  badPipes i (c1 :: c2 :: s) =
  if chr "|" c1 && notChr ">" c2
  then i :: badPipes (S (S i)) s
  else badPipes (S i) (c2 :: s).
Proof. reflexivity. Qed.

Lemma pipeline_run bef aft :
  run pipelineRegex (MState bef aft []) =
  match aft with
  | c1 :: c2 :: s =>
      if chr "|" c1 && notChr ">" c2 then [MState (c2 :: c1 :: bef) s []] else []
  | _ => []
  end.
Proof.
  unfold pipelineRegex. simpl.
  destruct aft as [|c1 [|c2 s]]; simpl; auto.
  - now destruct (chr "|" c1).
  - destruct (chr "|" c1); simpl; auto. now destruct (notChr ">" c2).
Qed.

Lemma pipeline_loop : forall n aft bef fuel,
  length aft = n -> length aft < fuel ->
  map index (exec_loop fuel pipelineRegex bef aft) = badPipes (length bef) aft.
Proof.
  induction n as [n IH] using lt_wf_ind. intros aft bef fuel Hn Hfuel.
  destruct fuel as [|fuel]; [lia|].
  destruct aft as [|c1 [|c2 s]].
  - reflexivity.
  - rewrite exec_loop_miss by now rewrite pipeline_run.
    reflexivity.
  - pose proof (pipeline_run bef (c1 :: c2 :: s)) as Hrun. rewrite badPipes_step.
    cbv beta iota in Hrun.
    destruct (chr "|" c1 && notChr ">" c2) eqn:E; rewrite ?E in Hrun.
    + rewrite (exec_loop_hit _ _ _ _ _ _ Hrun). cbn [map before after].
      f_equal.
      apply (IH (length s) ltac:(simpl in *; lia) s (c2 :: c1 :: bef) fuel eq_refl).
      simpl in *; lia.
    + rewrite (exec_loop_miss _ _ _ _ _ Hrun).
      apply (IH (length (c2 :: s)) ltac:(simpl in *; lia) (c2 :: s) (c1 :: bef)
                (S fuel) eq_refl).
      simpl in *; lia.
Qed.

Lemma badPipes_sound : forall n s k i,
  length s = n -> In i (badPipes k s) ->
  exists j c, i = k + j /\ nth_error s j = Some "|"%char
              /\ nth_error s (S j) = Some c /\ c <> ">"%char.
Proof.
  induction n as [n IH] using lt_wf_ind. intros s k i Hn Hin.
  destruct s as [|c1 [|c2 s]]; try (destruct Hin; fail).
  rewrite badPipes_step in Hin.
  destruct (chr "|" c1 && notChr ">" c2) eqn:E.
  - destruct Hin as [<-|Hin].
    + apply andb_true_iff in E. destruct E as [E1 E2].
      apply Ascii.eqb_eq in E1. subst c1.
      exists 0, c2. repeat split; auto.
      intros ->. discriminate.
    + apply (IH (length s)) in Hin; [|simpl in *; lia|reflexivity].
      destruct Hin as (j & c & -> & H1 & H2 & H3).
      exists (S (S j)), c. repeat split; auto; lia.
  - apply (IH (length (c2 :: s))) in Hin; [|simpl in *; lia|reflexivity].
    destruct Hin as (j & c & -> & H1 & H2 & H3).
    exists (S j), c. repeat split; auto; lia.
Qed.

Lemma badPipes_complete : forall n s k j c,
  length s = n ->
  nth_error s j = Some "|"%char -> nth_error s (S j) = Some c -> c <> ">"%char ->
  In (k + j) (badPipes k s)
  \/ (exists j', j = S j' /\ nth_error s j' = Some "|"%char /\ In (k + j') (badPipes k s)).
Proof.
  induction n as [n IH] using lt_wf_ind. intros s k j c Hn H1 H2 Hc.
  destruct s as [|c1 [|c2 s]].
  - destruct j; discriminate.
  - destruct j as [|[|j]]; discriminate.
  - rewrite badPipes_step. destruct (chr "|" c1 && notChr ">" c2) eqn:E.
    + destruct j as [|[|j]].
      * left. rewrite Nat.add_0_r. now left.
      * right. exists 0. apply andb_true_iff in E. destruct E as [E1 _].
        apply Ascii.eqb_eq in E1. subst c1.
        repeat split; auto. rewrite Nat.add_0_r. now left.
      * simpl in H1, H2.
        destruct (IH (length s) ltac:(simpl in *; lia) s (S (S k)) j c eq_refl H1 H2 Hc)
          as [Hin|(j' & -> & Hj' & Hin)].
        -- left. right. now replace (k + S (S j)) with (S (S k) + j) by lia.
        -- right. exists (S (S j')). repeat split; auto.
           right. now replace (k + S (S j')) with (S (S k) + j') by lia.
    + destruct j as [|j].
      * exfalso. simpl in H1, H2. injection H1 as ->. injection H2 as ->.
        simpl in E. unfold notChr in E.
        destruct (chr ">" c) eqn:E'; [|discriminate].
        apply Ascii.eqb_eq in E'. contradiction.
      * change (nth_error (c1 :: c2 :: s) (S j)) with (nth_error (c2 :: s) j) in H1.
        change (nth_error (c1 :: c2 :: s) (S (S j))) with (nth_error (c2 :: s) (S j)) in H2.
        destruct (IH (length (c2 :: s)) ltac:(simpl in *; lia) (c2 :: s) (S k) j c
                     eq_refl H1 H2 Hc) as [Hin|(j' & -> & Hj' & Hin)].
        -- left. now replace (k + S j) with (S k + j) by lia.
        -- right. exists (S j'). repeat split; auto.
           now replace (k + S j') with (S k + j') by lia.
Qed.

End Pipeline.

Section PipelineRule.

Lemma pipeline_errors line lineNumber :
  errorsOf (checkPipelineOperators line lineNumber) =
  map (pipelineError lineNumber) (badPipes 0 line).
Proof.
  unfold checkPipelineOperators, errorsOf, exec_all.
  rewrite List.filter_app.
  pose proof (pipeline_loop (length line) line [] (S (length line)) eq_refl
                ltac:(lia)) as Hloop.
  change (length (@nil ascii)) with 0 in Hloop. rewrite <- Hloop, map_map.
  replace (List.filter isError (if endsWith (str "|>") (trim line) then _ else [])) with
    (@nil Diagnostic) by now destruct (endsWith _ _).
  rewrite app_nil_r.
  clear Hloop. induction (exec_loop _ _ _ _) as [|m ms IH]; [reflexivity|].
  cbn [map List.filter]. unfold isError at 1. cbn [pipelineError diag severity].
  now rewrite IH.
Qed.

Lemma wellFormed_no_badPipes line :
  (forall i, nth_error line i = Some "|"%char -> nth_error line (S i) = Some ">"%char) ->
  badPipes 0 line = [].
Proof.
  intros Hwf. destruct (badPipes 0 line) as [|i tl] eqn:E; [reflexivity|].
  destruct (badPipes_sound (length line) line 0 i eq_refl) as (j & c & -> & H1 & H2 & H3).
  { rewrite E. now left. }
  rewrite (Hwf j H1) in H2. congruence.
Qed.

End PipelineRule.

(** C2, as amended.  The Errors of the pipeline rule are the occurrences,
    found left to right without overlap, of a [|] followed by a character
    other than [>], each with a range over the two characters at its
    column.  So every reported column holds a [|] with a following
    character that is not [>]; every [|] followed by such a character is
    reported at its own column, or is the second character of a reported
    pair (as in [||x], reported once, at the first [|]); a [|] that ends
    the line has no following character and is not reported.  The line
    [let badPipeline = data | filter;] yields exactly one diagnostic, the
    Error at column 23; a line in which every [|] is directly followed by
    [>] yields no Error, and no diagnostic at all unless it ends with the
    operator. *)
Theorem pipeline_rule (line : list ascii) (lineNumber : nat) :
  errorsOf (checkPipelineOperators line lineNumber) =
    map (pipelineError lineNumber) (badPipes 0 line)
  /\ (forall i, In i (badPipes 0 line) ->
        nth_error line i = Some "|"%char
        /\ exists c, nth_error line (S i) = Some c /\ c <> ">"%char)
  /\ (forall i c,
        nth_error line i = Some "|"%char -> nth_error line (S i) = Some c ->
        c <> ">"%char ->
        In i (badPipes 0 line)
        \/ exists i', i = S i' /\ nth_error line i' = Some "|"%char
                      /\ In i' (badPipes 0 line))
  /\ (forall i, nth_error line i = Some "|"%char -> nth_error line (S i) = None ->
        ~ In i (badPipes 0 line))
  /\ ((forall i, nth_error line i = Some "|"%char ->
                 nth_error line (S i) = Some ">"%char) ->
      errorsOf (checkPipelineOperators line lineNumber) = []
      /\ (endsWith (str "|>") (trim line) = false ->
          checkPipelineOperators line lineNumber = []))
  /\ checkPipelineOperators (str "let badPipeline = data | filter;") lineNumber
     = [pipelineError lineNumber 23].
Proof.
  split; [apply pipeline_errors|]. split; [|split; [|split; [|split]]].
  - intros i Hi.
    destruct (badPipes_sound (length line) line 0 i eq_refl Hi)
      as (j & c & -> & H1 & H2 & H3).
    simpl. eauto.
  - intros i c H1 H2 Hc.
    exact (badPipes_complete (length line) line 0 i c eq_refl H1 H2 Hc).
  - intros i H1 H2 Hi.
    destruct (badPipes_sound (length line) line 0 i eq_refl Hi)
      as (j & c & -> & _ & H3 & _).
    change (0 + j) with j in H2. congruence.
  - intros Hwf. pose proof (wellFormed_no_badPipes line Hwf) as Hnil. split.
    + now rewrite pipeline_errors, Hnil.
    + intros Hend. unfold checkPipelineOperators. rewrite Hend, app_nil_r.
      pose proof (pipeline_loop (length line) line [] (S (length line)) eq_refl
                    ltac:(lia)) as Hloop.
      change (length (@nil ascii)) with 0 in Hloop.
      rewrite Hnil in Hloop. unfold exec_all.
      destruct (exec_loop _ _ _ _); [reflexivity|discriminate].
  - reflexivity.
Qed.

Lemma pipeline_rule_witness :
  checkPipelineOperators (str "let goodPipeline = data |> filter |> map;") 0 = [].
Proof.
  refine (proj2 (proj1 (proj2 (proj2 (proj2 (proj2
            (pipeline_rule (str "let goodPipeline = data |> filter |> map;") 0)))))
            _) eq_refl).
  intros i. do 41 (destruct i as [|i]; [vm_compute; congruence|]).
  intros H. destruct i; discriminate H.
Defined.

(** C2 as stated fails where the [|] ends the line: nothing follows it, so
    it is not followed by [>], and the rule reports nothing. *)
Lemma pipe_at_end_of_line_unreported :
  nth_error (str "a |") 2 = Some "|"%char
  /\ nth_error (str "a |") 3 = None
  /\ checkPipelineOperators (str "a |") 0 = [].
Proof. repeat split. Qed.

(** * Counting characters *)

Section Counting.

Lemma match_count_loop_chr a : forall aft bef fuel,
  length aft < fuel ->
  match_count_loop fuel (Chr (chr a)) bef aft = count_occ ascii_dec aft a.
Proof.
  induction aft as [|c aft IH]; intros bef fuel Hfuel;
    (destruct fuel as [|fuel]; [lia|]).
  - reflexivity.
  - cbn [match_count_loop search run after before caps]. unfold chr at 1.
    destruct (Ascii.eqb_spec c a) as [->|Hne].
    + cbn [result index lastIndex rest_before rest_after before after pos length].
      replace (length bef <? S (length bef)) with true
        by (symmetry; apply Nat.ltb_lt; lia).
      rewrite count_occ_cons_eq by reflexivity. f_equal.
      apply IH. simpl in Hfuel. lia.
    + rewrite count_occ_cons_neq by congruence.
      rewrite <- (IH (c :: bef) (S fuel)) by (simpl in Hfuel; lia).
      reflexivity.
Qed.

Lemma count_occurrences a line : count a line = Z.of_nat (count_occ ascii_dec line a).
Proof.
  unfold count, match_count. f_equal. apply match_count_loop_chr. lia.
Qed.

End Counting.

(** * Match expressions *)

Section MatchClosure.

Lemma findClosing_spec : forall rest i lineNumber acc,
  findClosing rest i lineNumber acc = true <->
  exists k, k < length rest /\ lineNumber < i + k
            /\ (acc + sumZ (map braceDelta (firstn (S k) rest)) = 0)%Z.
Proof.
  induction rest as [|l rest IH]; intros i lineNumber acc.
  - simpl. split; [discriminate|]. intros (k & Hk & _). lia.
  - cbn [findClosing]. rewrite !count_occurrences. fold (braceDelta l).
    replace (acc + Z.of_nat (count_occ ascii_dec l "{"%char)
             - Z.of_nat (count_occ ascii_dec l "}"%char))%Z
      with (acc + braceDelta l)%Z by (unfold braceDelta; lia).
    destruct ((acc + braceDelta l =? 0)%Z && (lineNumber <? i)) eqn:E.
    + split; [intros _|reflexivity].
      apply andb_true_iff in E. destruct E as [E1 E2].
      apply Z.eqb_eq in E1. apply Nat.ltb_lt in E2.
      exists 0. simpl. repeat split; lia.
    + rewrite IH. split.
      * intros (k & Hk & Hlt & Hsum). exists (S k). simpl in *.
        repeat split; lia.
      * intros ([|k] & Hk & Hlt & Hsum).
        -- exfalso. simpl in Hsum. apply andb_false_iff in E.
           destruct E as [E|E]; [apply Z.eqb_neq in E|apply Nat.ltb_ge in E]; lia.
        -- exists k. simpl in *. repeat split; lia.
Qed.

Lemma matchArmError_other line lineNumber :
  matchArmError line lineNumber <> matchNotClosed line lineNumber.
Proof. intros H. apply (f_equal message) in H. discriminate H. Qed.

Lemma closure_reported line lineNumber lines :
  test matchKeyword line = true ->
  In (matchNotClosed line lineNumber) (checkMatchExpressions line lineNumber lines)
  <-> findClosing (skipn lineNumber lines) lineNumber lineNumber 0 = false.
Proof.
  intros Htest. unfold checkMatchExpressions. rewrite Htest, in_app_iff. split.
  - intros [H|H].
    + destruct (findClosing _ _ _ _); [destruct H|reflexivity].
    + exfalso. destruct (test matchArm (trim line)); [|destruct H].
      destruct (exec matchArm line); [|destruct H].
      destruct (trim _); [|destruct H].
      destruct H as [H|[]]. exact (matchArmError_other _ _ H).
  - intros ->. left. now left.
Qed.

End MatchClosure.

(** C5, as amended.  For a line of the document on which [match {] is
    found, the match-closure rule emits its Error, anchored at the first
    occurrence of [match] on that line, if and only if there is no line
    strictly after it at whose end the running count of [{] minus [}],
    accumulated from the originating line on, is zero.  A count that is
    back to zero at the end of the originating line itself does not count
    as closing. *)
Theorem match_closure_rule (lines : list (list ascii)) (lineNumber : nat)
  (line : list ascii) :
  nth_error lines lineNumber = Some line ->
  test matchKeyword line = true ->
  (In (matchNotClosed line lineNumber) (checkMatchExpressions line lineNumber lines)
   <-> forall i, lineNumber < i < length lines ->
                 runningCount lines lineNumber i <> 0%Z)
  /\ range (matchNotClosed line lineNumber)
     = lineRange lineNumber (indexOf (str "match") line)
                 (indexOf (str "match") line + 5).
Proof.
  intros _ Htest. split; [|reflexivity].
  rewrite (closure_reported line lineNumber lines Htest).
  rewrite <- not_true_iff_false, findClosing_spec. split.
  - intros Hno i [Hlo Hhi] Hzero. apply Hno.
    exists (i - lineNumber). rewrite length_skipn. repeat split; try lia.
    exact Hzero.
  - intros Hall (k & Hk & Hlt & Hsum). rewrite length_skipn in Hk.
    apply (Hall (lineNumber + k)); [lia|].
    unfold runningCount. replace (lineNumber + k - lineNumber) with k by lia.
    exact Hsum.
Qed.

Lemma match_closure_rule_witness :
  In (matchNotClosed (str "x match {") 0)
     (checkMatchExpressions (str "x match {") 0 [str "x match {"; str "  1 => 2"]).
Proof.
  apply (proj1 (match_closure_rule [str "x match {"; str "  1 => 2"] 0 (str "x match {")
                  eq_refl eq_refl)).
  intros i Hi. assert (i = 1) as -> by (simpl in Hi; lia).
  vm_compute. discriminate.
Defined.

(** C5 as stated fails for a match opened and closed on the last line: the
    running count is back to zero at the end of that line, before the end
    of the document, and the Error is emitted all the same. *)
Lemma match_closed_on_last_line_reported :
  test matchKeyword (str "x match { }") = true
  /\ runningCount [str "x match { }"] 0 0 = 0%Z
  /\ checkMatchExpressions (str "x match { }") 0 [str "x match { }"]
     = [matchNotClosed (str "x match { }") 0].
Proof. repeat split. Qed.

(** * Bracket balance over the document *)

Section BracketBalance.

Lemma split_lines_nonempty text : split_lines text <> [].
Proof.
  destruct text as [|c text]; simpl; [discriminate|].
  destruct (chr "010" c); [discriminate|].
  destruct (split_lines text); discriminate.
Qed.

Lemma occ_split a text :
  a <> "010"%char -> sumZ (map (occ a) (split_lines text)) = occ a text.
Proof.
  intros Ha. unfold sumZ. induction text as [|c text IH]; [reflexivity|].
  cbn [split_lines]. unfold chr. destruct (Ascii.eqb_spec c "010"%char) as [->|Hc].
  - cbn [map fold_right]. rewrite IH. unfold occ.
    rewrite count_occ_cons_neq by congruence. cbn [count_occ]. lia.
  - destruct (split_lines text) as [|l ls] eqn:E;
      [exfalso; exact (split_lines_nonempty text E)|].
    cbn [map fold_right] in IH |- *. unfold occ in IH |- *.
    destruct (ascii_dec c a) as [->|Hne].
    + rewrite !count_occ_cons_eq by reflexivity. lia.
    + rewrite !count_occ_cons_neq by congruence. lia.
Qed.

Lemma netLines_occ o c lines :
  netLines o c lines = (sumZ (map (occ o) lines) - sumZ (map (occ c) lines))%Z.
Proof.
  unfold netLines, sumZ. induction lines as [|l ls IH]; [reflexivity|].
  cbn [map fold_right]. rewrite IH. unfold net. lia.
Qed.

Lemma netLines_split o c text :
  o <> "010"%char -> c <> "010"%char ->
  netLines o c (split_lines text) = net o c text.
Proof.
  intros Ho Hc. now rewrite netLines_occ, !occ_split.
Qed.

Lemma countLoop_spec : forall lines b k p,
  countLoop lines b k p =
  ((b + netLines "{" "}" lines)%Z,
   (k + netLines "[" "]" lines)%Z,
   (p + netLines "(" ")" lines)%Z).
Proof.
  induction lines as [|l lines IH]; intros b k p.
  - unfold netLines. simpl. now rewrite !Z.add_0_r.
  - cbn [countLoop]. rewrite IH, !count_occurrences.
    unfold netLines, sumZ. cbn [map fold_right]. unfold net, occ.
    f_equal; [f_equal|]; lia.
Qed.

Lemma multiLine_counts text :
  countLoop (split_lines text) 0 0 0 =
  (net "{" "}" text, net "[" "]" text, net "(" ")" text).
Proof.
  rewrite countLoop_spec, !netLines_split by discriminate. reflexivity.
Qed.

End BracketBalance.

(** C8.  The document-global rule reports from the counts of the bracket
    characters in the text alone: nothing when [{]/[}], [[]/[]] and
    [(]/[)] occur equally often; otherwise one Error per counter that is
    off, each anchored at the whole last line.  Braces are reported when
    the count is positive (unclosed) or negative (extra closing), brackets
    and parentheses only when it is positive. *)
Theorem bracket_balance_rule (text : list ascii) :
  let lines := split_lines text in
  let braces := net "{" "}" text in
  let brackets := net "[" "]" text in
  let parens := net "(" ")" text in
  checkMultiLineConstructs lines =
    (if (0 <? braces)%Z then [unclosedBraces lines braces]
     else if (braces <? 0)%Z then [extraBraces lines braces]
     else [])
    ++ (if (0 <? brackets)%Z then [unclosedBrackets lines brackets] else [])
    ++ (if (0 <? parens)%Z then [unclosedParens lines parens] else [])
  /\ (occ "{" text = occ "}" text -> occ "[" text = occ "]" text ->
      occ "(" text = occ ")" text ->
      checkMultiLineConstructs lines = [])
  /\ (forall d, In d (checkMultiLineConstructs lines) ->
        severity d = Error
        /\ range d = mkRange (Z.of_nat (length lines) - 1) 0
                             (Z.of_nat (length lines) - 1)
                             (len (List.last lines []))).
Proof.
  intros lines braces brackets parens.
  assert (Heq : checkMultiLineConstructs lines =
    (if (0 <? braces)%Z then [unclosedBraces lines braces]
     else if (braces <? 0)%Z then [extraBraces lines braces]
     else [])
    ++ (if (0 <? brackets)%Z then [unclosedBrackets lines brackets] else [])
    ++ (if (0 <? parens)%Z then [unclosedParens lines parens] else [])).
  { unfold checkMultiLineConstructs, lines. now rewrite multiLine_counts. }
  split; [exact Heq|]. split.
  - intros H1 H2 H3. rewrite Heq.
    unfold braces, brackets, parens, net. rewrite H1, H2, H3, !Z.sub_diag.
    reflexivity.
  - intros d Hd. rewrite Heq in Hd.
    repeat (apply in_app_iff in Hd; destruct Hd as [Hd|Hd]);
      repeat match type of Hd with
             | In _ (if ?b then _ else _) => destruct b
             end;
      repeat (destruct Hd as [<-|Hd]); try destruct Hd; split; reflexivity.
Qed.

Lemma bracket_balance_rule_witness :
  checkMultiLineConstructs (split_lines (str "f(a[0]) { }")) = [].
Proof.
  apply (proj1 (proj2 (bracket_balance_rule (str "f(a[0]) { }"))));
    vm_compute; reflexivity.
Defined.

(** * The disabled configuration *)

(** C9.  With [diagnostics.enabled] set to [false], [updateDiagnostics]
    returns at the guard: the collection is handed back as it was, so what
    was stored for the document (or for any other) is still there, neither
    replaced nor cleared. *)
Theorem disabled_leaves_collection (config : gmap string bool)
  (document : TextDocument) (diagnosticCollection : gmap string (list Diagnostic)) :
  config !! "diagnostics.enabled" = Some false ->
  updateDiagnostics config document diagnosticCollection = Returns diagnosticCollection
  /\ state (updateDiagnostics config document diagnosticCollection) !! uri document
     = diagnosticCollection !! uri document.
Proof.
  intros Hoff. unfold updateDiagnostics, configGet. rewrite Hoff. simpl. auto.
Qed.

Lemma disabled_leaves_collection_witness :
  state (updateDiagnostics {[ "diagnostics.enabled" := false ]}
                           (mkDocument "file:///a.csc" (str "x |> y"))
                           {[ "file:///a.csc" := [pipelineError 0 2] ]})
    !! "file:///a.csc"
  = Some [pipelineError 0 2].
Proof.
  rewrite (proj1 (disabled_leaves_collection
                    {[ "diagnostics.enabled" := false ]}
                    (mkDocument "file:///a.csc" (str "x |> y"))
                    {[ "file:///a.csc" := [pipelineError 0 2] ]}
                    ltac:(apply lookup_singleton_eq))).
  apply lookup_singleton_eq.
Defined.

(** * Where the code departs from its description *)

(** C1 (defect in the code).  A line made of a tab and a space is mixed
    indentation and has no non-blank character, so [line.search(/\S/)] is
    [-1]: the range the rule asks for has end column [-1], outside the
    line.  The constructor refuses it, and the exception ends the scan of
    the document. *)
Theorem mixed_indentation_blank_line_out_of_bounds :
  let text := ["009"; " "]%char in
  test tabsThenSpace text = true
  /\ search_index nonSpace text = (-1)%Z
  /\ endCharacter (range (mixedIndentation text 0)) = (-1)%Z
  /\ ~ inBounds (split_lines text) (range (mixedIndentation text 0))
  /\ newRange 0 0 0 (search_index nonSpace text) = None
  /\ checkBracesAndIndentation text 0 (split_lines text) = None
  /\ collect text = None.
Proof.
  repeat (split; [reflexivity|]). split; [|repeat split].
  intros (_ & _ & _ & Hend & _). vm_compute in Hend. now apply Hend.
Qed.

(** C4 (defect in the code).  [let incomplete = () => ;] is the incomplete
    arrow function of the test file, but [=>] is not the end of the line
    (a semicolon follows), [/=>\s*$/] does not match, and the scan reports
    nothing. *)
Theorem incomplete_arrow_unreported :
  let line := str "let incomplete = () => ;" in
  test arrowRegex line = false
  /\ checkFunctionSyntax line 0 = []
  /\ collect line = Some [].
Proof. repeat split. Qed.

(** C6 (defect in the code).  The line holds the auto-property block
    [{ get; }], which contains [get]; the content check is made on the first
    brace block of the line instead, here [{ x }], and the Error is
    emitted, over that first block. *)
Theorem auto_property_checked_on_first_block :
  let line := str "{ x } { get; }" in
  test autoPropertyRegex line = true
  /\ option_map whole (exec autoPropertyRegex line) = Some (str "{ get; }")
  /\ checkAutoProperties line 0 = [autoPropertyError line 0]
  /\ range (autoPropertyError line 0) = lineRange 0 0 5.
Proof. repeat split. Qed.

(** * The match-arm literal *)

Section MatchArm.

Lemma star_loop_caps (step : mstate -> list mstate) :
  (forall st st', In st' (step st) -> caps st' = caps st) ->
  forall fuel st st', In st' (star_loop step fuel st) -> caps st' = caps st.
Proof.
  intros Hstep fuel. induction fuel as [|fuel IH]; intros st st' Hin; simpl in Hin.
  - now destruct Hin as [<-|[]].
  - apply in_app_iff in Hin. destruct Hin as [Hin|[<-|[]]]; [|reflexivity].
    apply in_flat_map in Hin. destruct Hin as (mid & Hmid & Hin).
    destruct (length (after mid) <? length (after st)); [|destruct Hin].
    rewrite (IH _ _ Hin). eauto.
Qed.

(** A literal without groups leaves the captures alone. *)
Lemma run_caps r : capless r = true ->
  forall st st', In st' (run r st) -> caps st' = caps st.
Proof.
  induction r as [|p|r1 IH1 r2 IH2|r1 IH1 r2 IH2|r IH|n r IH| | |];
    intros Hc st st' Hin; cbn [capless] in Hc; try discriminate.
  - now destruct Hin as [<-|[]].
  - cbn [run] in Hin. destruct (after st) as [|c aft]; [destruct Hin|].
    destruct (p c); [|destruct Hin]. now destruct Hin as [<-|[]].
  - apply andb_true_iff in Hc. destruct Hc as [Hc1 Hc2].
    apply in_flat_map in Hin. destruct Hin as (mid & Hmid & Hin).
    rewrite (IH2 Hc2 _ _ Hin). eauto.
  - apply andb_true_iff in Hc. destruct Hc as [Hc1 Hc2].
    apply in_app_iff in Hin. destruct Hin; eauto.
  - exact (star_loop_caps (run r) (IH Hc) _ _ _ Hin).
  - cbn [run] in Hin. destruct (before st); [|destruct Hin]. now destruct Hin as [<-|[]].
  - cbn [run] in Hin. destruct (after st); [|destruct Hin]. now destruct Hin as [<-|[]].
  - cbn [run] in Hin. destruct (xorb _ _); [|destruct Hin]. now destruct Hin as [<-|[]].
Qed.

Lemma consumed_advanced P st x w : advanced P st x w -> consumed st x = w.
Proof.
  intros (_ & Hb & _). destruct st as [bef aft cs], x as [bef' aft' cs'].
  simpl in Hb. subst bef'. apply consumed_word.
Qed.

(** A group around a literal without groups: the state moves as the literal
    does, and the capture is put in front. *)
Lemma in_run_grp P n r st st' :
  charsIn P r -> capless r = true ->
  In st' (run (Grp n r) st) ->
  exists w, advanced P st st' w /\ caps st' = (n, w) :: caps st.
Proof.
  intros HP Hc Hin. cbn [run] in Hin. apply in_map_iff in Hin.
  destruct Hin as (x & <- & Hx).
  destruct (run_advanced P r HP _ _ Hx) as (w & A).
  exists w. split; [exact A|]. cbn [caps].
  now rewrite (consumed_advanced P st x w A), (run_caps r Hc _ _ Hx).
Qed.

Lemma in_run_plain P r st st' :
  charsIn P r -> capless r = true ->
  In st' (run r st) ->
  exists w, advanced P st st' w /\ caps st' = caps st.
Proof.
  intros HP Hc Hin. destruct (run_advanced P r HP _ _ Hin) as (w & A).
  exists w. split; [exact A|]. exact (run_caps r Hc _ _ Hin).
Qed.

Lemma in_run_arrow st st' :
  In st' (run (lit "=>") st) ->
  after st = str "=>" ++ after st' /\ caps st' = caps st.
Proof.
  destruct st as [bef [|c1 [|c2 aft]] cs]; cbn; try tauto.
  - destruct (chr "=" c1); cbn; tauto.
  - unfold chr. destruct (Ascii.eqb_spec c1 "="%char) as [->|]; cbn; [|tauto].
    destruct (Ascii.eqb_spec c2 ">"%char) as [->|]; cbn; [|tauto].
    intros [<-|[]]. auto.
Qed.

Lemma dot_class : charsIn (holds isDot) (Plus (Chr isDot)).
Proof. simpl. auto. Qed.

Lemma space_class : charsIn (holds isSpace) (Star sp).
Proof. simpl. auto. Qed.

(** Every match of [armTail] reads what follows as a pattern, an arrow and
    an expression, and records the pattern as group 1. *)
Lemma armTail_sound st st' :
  In st' (run armTail st) ->
  exists w1 b c d,
    armSplit (after st) w1 b c d /\ caps st' = (2, d) :: (1, w1) :: caps st.
Proof.
  unfold armTail, Cat. cbn [fold_right]. intros H.
  apply in_run_seq in H. destruct H as (m1 & H1 & H).
  apply in_run_seq in H. destruct H as (m2 & H2 & H).
  apply in_run_seq in H. destruct H as (m3 & H3 & H).
  apply in_run_seq in H. destruct H as (m4 & H4 & H).
  apply in_run_seq in H. destruct H as (m5 & H5 & H).
  apply in_run_seq in H. destruct H as (m6 & H6 & H).
  destruct H as [<-|[]].
  pose proof (consuming_shortens (Grp 1 (Plus (Chr isDot))) eq_refl _ _ H1) as Hlt.
  apply (in_run_grp (holds isDot)) in H1; [|exact dot_class|reflexivity].
  destruct H1 as (w1 & (Ha1 & _ & Hw1) & Hc1).
  apply (in_run_plain (holds isSpace)) in H2; [|exact space_class|reflexivity].
  destruct H2 as (b & (Ha2 & _ & Hb) & Hc2).
  apply in_run_arrow in H3. destruct H3 as (Ha3 & Hc3).
  apply (in_run_plain (holds isSpace)) in H4; [|exact space_class|reflexivity].
  destruct H4 as (c & (Ha4 & _ & Hc) & Hc4).
  apply (in_run_grp (holds isDot)) in H5; [|simpl; auto|reflexivity].
  destruct H5 as (d & (Ha5 & _ & Hd) & Hc5).
  cbn [run] in H6. destruct (after m5) as [|x aft] eqn:E; [|destruct H6].
  destruct H6 as [<-|[]].
  exists w1, b, c, d. split.
  - repeat split; auto.
    + rewrite Ha1, Ha2, Ha3, Ha4, Ha5. now rewrite app_nil_r.
    + intros ->. rewrite Ha1 in Hlt. simpl in Hlt. lia.
  - now rewrite Hc5, Hc4, Hc3, Hc2, Hc1.
Qed.

Lemma reach_seq r1 r2 st rest1 rest2 :
  reach r1 st rest1 ->
  (forall mid, after mid = rest1 -> reach r2 mid rest2) ->
  reach (Seq r1 r2) st rest2.
Proof.
  intros (mid & Hmid & Ha) H2. destruct (H2 mid Ha) as (st' & Hst' & Ha').
  exists st'. split; [|exact Ha']. apply in_flat_map. eauto.
Qed.

Lemma star_loop_reach p : forall w bef rest cs fuel,
  Forall (holds p) w -> length (w ++ rest) < fuel ->
  In (MState (rev w ++ bef) rest cs)
     (star_loop (run (Chr p)) fuel (MState bef (w ++ rest) cs)).
Proof.
  induction w as [|x w IH]; intros bef rest cs fuel Hw Hfuel;
    (destruct fuel as [|fuel]; [lia|]); cbn [star_loop].
  - apply in_or_app. right. now left.
  - inversion Hw as [|? ? Hx Hw']; subst. unfold holds in Hx.
    apply in_or_app. left. cbn [run after before caps app]. rewrite Hx.
    cbn [flat_map after length].
    replace (length (w ++ rest) <? S (length (w ++ rest))) with true
      by (symmetry; apply Nat.ltb_lt; lia).
    rewrite app_nil_r. cbn [rev]. rewrite <- app_assoc. apply IH; auto.
    simpl in Hfuel. lia.
Qed.

(** [p*] can stop after any run of [p]-characters, not only the longest. *)
Lemma reach_star_class p st w rest :
  after st = w ++ rest -> Forall (holds p) w -> reach (Star (Chr p)) st rest.
Proof.
  intros Ha Hw. destruct st as [bef aft cs]. cbn [after] in Ha. subst aft.
  exists (MState (rev w ++ bef) rest cs). split; [|reflexivity].
  apply star_loop_reach; auto.
Qed.

Lemma reach_plus_class p st w rest :
  after st = w ++ rest -> w <> [] -> Forall (holds p) w ->
  reach (Plus (Chr p)) st rest.
Proof.
  intros Ha Hne Hw. destruct w as [|x w]; [congruence|].
  inversion Hw as [|? ? Hx Hw']; subst.
  apply reach_seq with (rest1 := w ++ rest).
  - destruct st as [bef aft cs]. cbn [after] in Ha. subst aft.
    exists (MState (x :: bef) (w ++ rest) cs). split; [|reflexivity].
    cbn. unfold holds in Hx. rewrite Hx. now left.
  - intros mid Hmid. now apply reach_star_class with (w := w).
Qed.

Lemma reach_grp n r st rest : reach r st rest -> reach (Grp n r) st rest.
Proof.
  intros (x & Hx & Ha).
  exists (MState (before x) (after x) ((n, consumed st x) :: caps x)).
  split; [|exact Ha]. cbn [run].
  apply in_map with (f := fun y => MState (before y) (after y) ((n, consumed st y) :: caps y)).
  exact Hx.
Qed.

Lemma reach_arrow st rest : after st = str "=>" ++ rest -> reach (lit "=>") st rest.
Proof.
  intros Ha. destruct st as [bef aft cs]. cbn [after] in Ha. subst aft.
  exists (MState (">"%char :: "="%char :: bef) rest cs). split; [|reflexivity].
  cbn. now left.
Qed.

(** Whatever reads as pattern, arrow and expression is matched by
    [armTail]. *)
Lemma armTail_complete st w1 b c d :
  armSplit (after st) w1 b c d -> reach armTail st [].
Proof.
  intros (Ha & Hne & Hw1 & Hb & Hc & Hd).
  unfold armTail, Cat. cbn [fold_right].
  apply reach_seq with (rest1 := b ++ str "=>" ++ c ++ d).
  { apply reach_grp. now apply reach_plus_class with (w := w1). }
  intros m1 H1. apply reach_seq with (rest1 := str "=>" ++ c ++ d).
  { now apply reach_star_class with (w := b). }
  intros m2 H2. apply reach_seq with (rest1 := c ++ d).
  { now apply reach_arrow. }
  intros m3 H3. apply reach_seq with (rest1 := d).
  { now apply reach_star_class with (w := c). }
  intros m4 H4. apply reach_seq with (rest1 := []).
  { apply reach_grp. apply reach_star_class with (w := d); auto.
    now rewrite app_nil_r. }
  intros m5 H5. apply reach_seq with (rest1 := []).
  { exists m5. split; [|exact H5]. cbn [run]. rewrite H5. now left. }
  intros m6 H6. exists m6. split; [now left|exact H6].
Qed.

End MatchArm.

(** * Blanks at the ends of a line *)

Section Blanks.

Lemma trimStart_split s :
  exists ws, s = ws ++ trimStart s /\ Forall (holds isSpace) ws.
Proof.
  induction s as [|c s (ws & Hs & Hws)]; [now exists []|].
  cbn [trimStart]. destruct (isSpace c) eqn:E.
  - exists (c :: ws). split; [simpl; congruence|]. now constructor.
  - now exists [].
Qed.

Lemma trimStart_outside s : startsOutside (holds isSpace) (trimStart s).
Proof.
  induction s as [|c s IH]; intros x s' H Hx; [discriminate|].
  cbn [trimStart] in H. destruct (isSpace c) eqn:E; [exact (IH x s' H Hx)|].
  injection H as -> _. unfold holds in Hx. congruence.
Qed.

Lemma trimStart_nil s : trimStart s = [] -> Forall (holds isSpace) s.
Proof.
  induction s as [|c s IH]; [constructor|]. cbn [trimStart].
  destruct (isSpace c) eqn:E; [|discriminate]. intros H. constructor; auto.
Qed.

Lemma trimStart_snoc s c :
  isSpace c = false -> trimStart (s ++ [c]) = trimStart s ++ [c].
Proof.
  intros Hc. induction s as [|x s IH]; simpl; [now rewrite Hc|].
  now destruct (isSpace x).
Qed.

Lemma trimEnd_split s :
  exists ws, s = rev (trimStart (rev s)) ++ ws /\ Forall (holds isSpace) ws.
Proof.
  destruct (trimStart_split (rev s)) as (ws & Hs & Hws).
  exists (rev ws). split.
  - rewrite <- rev_app_distr, <- Hs. now rewrite rev_involutive.
  - now apply Forall_rev.
Qed.

Lemma trimEnd_cons c s :
  isSpace c = false ->
  rev (trimStart (rev (c :: s))) = c :: rev (trimStart (rev s)).
Proof.
  intros Hc. cbn [rev]. rewrite (trimStart_snoc _ _ Hc), rev_app_distr. reflexivity.
Qed.

Lemma trim_nil s : trim s = [] -> Forall (holds isSpace) s.
Proof.
  unfold trim. intros H.
  assert (H' : trimStart (rev (trimStart s)) = []).
  { now rewrite <- (rev_involutive (trimStart _)), H. }
  apply trimStart_nil in H'. apply Forall_rev in H'. rewrite rev_involutive in H'.
  destruct (trimStart_split s) as (ws & Hs & Hws). rewrite Hs.
  apply Forall_app; auto.
Qed.

(** The blanks a string starts with are determined by the string. *)
Lemma blanks_unique : forall x1 x2 y1 y2 : list ascii,
  x1 ++ y1 = x2 ++ y2 ->
  Forall (holds isSpace) x1 -> Forall (holds isSpace) x2 ->
  startsOutside (holds isSpace) y1 -> startsOutside (holds isSpace) y2 ->
  x1 = x2 /\ y1 = y2.
Proof.
  induction x1 as [|a x1 IH]; intros x2 y1 y2 Heq H1 H2 O1 O2.
  - destruct x2 as [|b x2]; [auto|]. exfalso. simpl in Heq.
    inversion H2; subst. exact (O1 b _ eq_refl H3).
  - destruct x2 as [|b x2].
    + exfalso. simpl in Heq. inversion H1; subst. exact (O2 a _ eq_refl H3).
    + simpl in Heq. injection Heq as -> Heq.
      inversion H1; inversion H2; subst.
      destruct (IH x2 y1 y2 Heq) as [-> ->]; auto.
Qed.

End Blanks.

(** * The match-arm check *)

Section MatchArmCheck.

Lemma matchArm_run s :
  run matchArm (MState [] s []) =
  flat_map (run armTail) (run (Star sp) (MState [] s [])) ++ [].
Proof. reflexivity. Qed.

Lemma matchArm_sound s st' :
  In st' (run matchArm (MState [] s [])) ->
  exists a rest w1 b c d,
    s = a ++ rest /\ Forall (holds isSpace) a
    /\ armSplit rest w1 b c d /\ caps st' = [(2, d); (1, w1)].
Proof.
  rewrite matchArm_run, app_nil_r. intros H.
  apply in_flat_map in H. destruct H as (mid & Hmid & H).
  apply (in_run_plain (holds isSpace)) in Hmid; [|exact space_class|reflexivity].
  destruct Hmid as (a & (Ha & _ & Hsp) & Hc).
  destruct (armTail_sound _ _ H) as (w1 & b & c & d & Hsplit & Hcaps).
  exists a, (after mid), w1, b, c, d. repeat split; auto.
  - exact (proj1 Hsplit).
  - exact (proj1 (proj2 Hsplit)).
  - exact (proj1 (proj2 (proj2 Hsplit))).
  - exact (proj1 (proj2 (proj2 (proj2 Hsplit)))).
  - exact (proj1 (proj2 (proj2 (proj2 (proj2 Hsplit))))).
  - exact (proj2 (proj2 (proj2 (proj2 (proj2 Hsplit))))).
  - rewrite Hcaps, Hc. reflexivity.
Qed.

(** [^] only holds at the start: a search from further on finds nothing. *)
Lemma matchArm_anchored : forall aft c bef, search matchArm (c :: bef) aft = None.
Proof.
  induction aft as [|x aft IH]; intros c bef; [reflexivity|].
  rewrite search_miss by reflexivity. apply IH.
Qed.

Lemma matchArm_exec s m :
  exec matchArm s = Some m ->
  exists st', heads (run matchArm (MState [] s [])) st'
              /\ m = result (MState [] s []) st'.
Proof.
  unfold exec. intros H.
  destruct (run matchArm (MState [] s [])) as [|st' tl] eqn:E.
  - exfalso. destruct s as [|c s].
    + cbn [search] in H. rewrite E in H. discriminate.
    + rewrite (search_miss _ _ _ _ E), matchArm_anchored in H. discriminate.
  - rewrite (search_hit _ _ _ _ _ E) in H. injection H as <-.
    exists st'. split; [now exists tl|reflexivity].
Qed.

Lemma blank_dot_suffix (l S c d : list ascii) :
  l ++ S = c ++ d -> Forall (holds isSpace) c -> Forall (holds isDot) d ->
  exists c' d', S = c' ++ d' /\ Forall (holds isSpace) c' /\ Forall (holds isDot) d'.
Proof.
  intros Heq Hc Hd. apply app_eq_app in Heq.
  destruct Heq as (k & [[-> ->]|[-> ->]]).
  - exists [], S. repeat split; auto. now apply Forall_app in Hd.
  - exists k, d. repeat split; auto. now apply Forall_app in Hc.
Qed.

(** When the trimmed line passes the test, the match reported on the line
    itself has a pattern group that is not blank: the blanks before the
    pattern are taken by [\s*] as far as they go. *)
Lemma arm_capture_not_blank line st' :
  heads (run matchArm (MState [] line [])) st' ->
  test matchArm (trim line) = true ->
  exists w1, group 1 (caps st') = Some w1 /\ trim w1 <> [].
Proof.
  intros Hhead Htest.
  assert (Hin : In st' (run matchArm (MState [] line [])))
    by (destruct Hhead as (tl & ->); now left).
  destruct (matchArm_sound _ _ Hin)
    as (a & rest & w1 & b & c & d & Hline & Ha & Hsplit & Hcaps).
  exists w1. split; [rewrite Hcaps; reflexivity|].
  intros Hblank. apply trim_nil in Hblank.
  destruct Hsplit as (Hrest & Hne & Hw1 & Hb & Hc & Hd).
  unfold trim in Htest.
  pose proof (trimStart_outside line) as Hout.
  destruct (trimStart_split line) as (ws1 & Hws & Hws1).
  remember (trimStart line) as r1 eqn:Er1. clear Er1.
  assert (Hr1 : ws1 = a ++ w1 ++ b /\ r1 = str "=>" ++ c ++ d).
  { apply blanks_unique; auto.
    - rewrite <- Hws, Hline, Hrest. now rewrite <- !app_assoc.
    - repeat (apply Forall_app; split); auto.
    - intros x s' H Hx. injection H as <- _. discriminate. }
  destruct Hr1 as [_ Hr1].
  rewrite matchArm_run, app_nil_r, Hws in Hhead. unfold sp in Hhead.
  rewrite (run_star_class isSpace ws1 [] r1 []) in Hhead by auto.
  destruct (backtrack_head [] ws1 r1 []) as (tl & Hbt). rewrite Hbt in Hhead.
  cbn [flat_map] in Hhead.
  destruct (run armTail (MState (rev ws1 ++ []) r1 [])) as [|y ys] eqn:E.
  - (* the trimmed line matches, so what follows the blanks does too *)
    unfold test in Htest.
    destruct (exec matchArm (rev (trimStart (rev r1)))) as [m|] eqn:Em; [|discriminate].
    destruct (matchArm_exec _ _ Em) as (st_t & (tl_t & Hst_t) & _).
    destruct (matchArm_sound _ st_t ltac:(rewrite Hst_t; now left))
      as (a' & rest' & w1' & b' & c' & d' & Ht & Ha' & Hsplit' & _).
    destruct Hsplit' as (Hrest' & Hne' & Hw1' & Hb' & Hc' & Hd').
    destruct (trimEnd_split r1) as (ws2 & Hr1t & Hws2).
    assert (Hstart : rev (trimStart (rev r1))
                     = "="%char :: ">"%char :: rev (trimStart (rev (c ++ d)))).
    { rewrite Hr1. cbn [str list_ascii_of_string app].
      now rewrite !trimEnd_cons by reflexivity. }
    assert (Ha'nil : a' = []).
    { destruct a' as [|x a'']; [reflexivity|]. exfalso.
      rewrite Hstart in Ht. injection Ht as <- _.
      inversion Ha' as [|? ? Hx _]; subst. discriminate. }
    subst a'. cbn [app] in Ht. rewrite Ht, Hrest' in Hr1t.
    assert (Heq : (w1' ++ b' ++ str "=>") ++ (c' ++ d' ++ ws2)
                  = str "=>" ++ (c ++ d)).
    { rewrite <- Hr1, Hr1t. now rewrite <- !app_assoc. }
    apply app_eq_app in Heq. destruct Heq as (l & [[HY HS]|[HY HS]]).
    + symmetry in HS.
      destruct (blank_dot_suffix l (c' ++ d' ++ ws2) c d HS Hc Hd)
        as (c2 & d2 & Hcd & Hc2 & Hd2).
      destruct (armTail_complete (MState (rev ws1 ++ []) r1 []) w1' b' c2 d2)
        as (st2 & Hst2 & _).
      { repeat split; auto. cbn [after].
        rewrite Hr1t, <- Hcd. now rewrite <- !app_assoc. }
      rewrite E in Hst2. destruct Hst2.
    + exfalso. apply (f_equal (@length ascii)) in HY.
      rewrite !length_app in HY. cbn in HY.
      destruct w1'; [congruence|]. simpl in HY. lia.
  - (* the reported match starts where the blanks end *)
    destruct Hhead as (tl' & Hh). injection Hh as <- _.
    destruct (armTail_sound (MState (rev ws1 ++ []) r1 []) y
                ltac:(rewrite E; now left))
      as (w1' & b' & c' & d' & (Hr1' & Hne' & _) & Hcaps').
    rewrite Hcaps in Hcaps'. injection Hcaps' as _ <-.
    cbn [after] in Hr1'. destruct w1 as [|x w1]; [congruence|].
    inversion Hblank as [|? ? Hx _]; subst.
    cbn [str list_ascii_of_string app] in Hr1'. injection Hr1' as <- _.
    discriminate Hx.
Qed.

End MatchArmCheck.

(** The match-arm check never fires: on every line, whatever
    [checkMatchExpressions] pushes comes from the closure check alone. *)
Lemma match_arm_check_silent (line : list ascii) (lineNumber : nat)
  (lines : list (list ascii)) :
  checkMatchExpressions line lineNumber lines =
  if test matchKeyword line
  then if findClosing (skipn lineNumber lines) lineNumber lineNumber 0
       then []
       else [matchNotClosed line lineNumber]
  else [].
Proof.
  unfold checkMatchExpressions.
  destruct (test matchArm (trim line)) eqn:Htest; [|apply app_nil_r].
  destruct (exec matchArm line) as [m|] eqn:Em; [|apply app_nil_r].
  destruct (matchArm_exec _ _ Em) as (st' & Hhead & ->).
  destruct (arm_capture_not_blank line st' Hhead Htest) as (w1 & Hg & Hw1).
  unfold grp, result. cbn [groups]. rewrite Hg.
  destruct (trim w1); [congruence|apply app_nil_r].
Qed.

(** C3 (defect in the code).  On [=> value] nothing but the empty string
    precedes the arrow, yet the match-arm rule stays silent: [(.+)] needs a
    character before [=>] and the literal is tried on the trimmed line
    first, so that the test for an empty pattern is never reached.  Nor is
    it reached on any other line: every diagnostic of
    [checkMatchExpressions] is the closure Error. *)
Theorem arm_without_pattern_unreported :
  (let line := str "=> value" in
   test matchArm (trim line) = false
   /\ checkMatchExpressions line 0 [line] = []
   /\ checkMatchExpressions (str "    => value") 3
        [str "x match {"; str "    1 => one"; str "}"; str "    => value"] = [])
  /\ (forall line lineNumber lines d,
        In d (checkMatchExpressions line lineNumber lines) ->
        d = matchNotClosed line lineNumber).
Proof.
  split; [repeat split|].
  intros line lineNumber lines d. rewrite match_arm_check_silent.
  destruct (test matchKeyword line); [|intros []].
  destruct (findClosing _ _ _ _); [intros []|].
  intros [<-|[]]. reflexivity.
Qed.

(** * The collection under [updateDiagnostics] and the handlers *)

Section Collection.

Lemma enabled_get (config : gmap string bool) :
  config !! "diagnostics.enabled" <> Some false ->
  configGet config "diagnostics.enabled" true = true.
Proof.
  unfold configGet. destruct (config !! "diagnostics.enabled") as [[|]|]; simpl; congruence.
Qed.

Lemma checkOnType_get (config : gmap string bool) :
  config !! "diagnostics.checkOnType" <> Some false ->
  configGet config "diagnostics.checkOnType" true = true.
Proof.
  unfold configGet. destruct (config !! "diagnostics.checkOnType") as [[|]|]; simpl; congruence.
Qed.

Lemma isCScript_true document : languageId document = "cscript" -> isCScript document = true.
Proof. intros H. unfold isCScript. now apply bool_decide_eq_true. Qed.

Lemma isCScript_false document : languageId document <> "cscript" -> isCScript document = false.
Proof. intros H. unfold isCScript. now apply bool_decide_eq_false. Qed.

Lemma updateDiagnostics_returns (config : gmap string bool) (document : TextDocument)
  (diagnosticCollection : gmap string (list Diagnostic)) diagnostics :
  config !! "diagnostics.enabled" <> Some false ->
  collect (getText document) = Some diagnostics ->
  updateDiagnostics config document diagnosticCollection
  = Returns (<[uri document := diagnostics]> diagnosticCollection).
Proof.
  intros Hon Hscan. unfold updateDiagnostics.
  now rewrite (enabled_get config Hon), Hscan.
Qed.

Lemma updateDiagnostics_throws (config : gmap string bool) (document : TextDocument)
  (diagnosticCollection : gmap string (list Diagnostic)) :
  config !! "diagnostics.enabled" <> Some false ->
  collect (getText document) = None ->
  updateDiagnostics config document diagnosticCollection = Throws diagnosticCollection.
Proof.
  intros Hon Hscan. unfold updateDiagnostics.
  now rewrite (enabled_get config Hon), Hscan.
Qed.

Lemma updateDiagnostics_other (config : gmap string bool) (document : TextDocument)
  (diagnosticCollection : gmap string (list Diagnostic)) u :
  u <> uri document ->
  state (updateDiagnostics config document diagnosticCollection) !! u
  = diagnosticCollection !! u.
Proof.
  intros Hu. unfold updateDiagnostics. destruct (negb _); [reflexivity|].
  destruct (collect _); [|reflexivity]. cbn [state]. now apply lookup_insert_ne.
Qed.

End Collection.

(** X1.  Unless [diagnostics.enabled] is set to [false] (an absent setting
    counts as [true]), [updateDiagnostics] either stores the result of the
    scan under the document's uri whatever was stored there, leaving every
    other uri as it was, and doing it twice is doing it once (a full
    replace, never a merge); or, when the scan ends in an exception, it
    leaves the collection exactly as it was and the exception goes on to
    the caller. *)
Theorem enabled_replaces_entry (config : gmap string bool) (document : TextDocument)
  (diagnosticCollection : gmap string (list Diagnostic)) :
  config !! "diagnostics.enabled" <> Some false ->
  match collect (getText document) with
  | Some diagnostics =>
      updateDiagnostics config document diagnosticCollection
      = Returns (<[uri document := diagnostics]> diagnosticCollection)
      /\ state (updateDiagnostics config document diagnosticCollection) !! uri document
         = Some diagnostics
      /\ (forall u, u <> uri document ->
            state (updateDiagnostics config document diagnosticCollection) !! u
            = diagnosticCollection !! u)
      /\ updateDiagnostics config document
           (state (updateDiagnostics config document diagnosticCollection))
         = updateDiagnostics config document diagnosticCollection
  | None =>
      updateDiagnostics config document diagnosticCollection
      = Throws diagnosticCollection
  end.
Proof.
  intros Hon. destruct (collect (getText document)) as [diagnostics|] eqn:Hscan.
  - rewrite (updateDiagnostics_returns _ _ _ _ Hon Hscan). cbn [state].
    split; [reflexivity|]. split; [apply lookup_insert_eq|]. split.
    + intros u Hu. now apply lookup_insert_ne.
    + rewrite (updateDiagnostics_returns _ _ _ _ Hon Hscan). f_equal.
      apply insert_insert_eq.
  - exact (updateDiagnostics_throws _ _ _ Hon Hscan).
Qed.

Lemma enabled_replaces_entry_witness :
  state (updateDiagnostics ∅ (mkDocument "file:///a.csc" (str "x |> y"))
                           {[ "file:///a.csc" := [pipelineError 0 2] ]})
    !! "file:///a.csc"
  = Some []
  /\ updateDiagnostics ∅ (mkDocument "file:///a.csc" (str (String "009" " ")))
                       {[ "file:///a.csc" := [pipelineError 0 2] ]}
     = Throws {[ "file:///a.csc" := [pipelineError 0 2] ]}.
Proof.
  split.
  - exact (proj1 (proj2 (enabled_replaces_entry ∅
                           (mkDocument "file:///a.csc" (str "x |> y"))
                           {[ "file:///a.csc" := [pipelineError 0 2] ]}
                           ltac:(rewrite lookup_empty; discriminate)))).
  - exact (enabled_replaces_entry ∅
             (mkDocument "file:///a.csc" (str (String "009" " ")))
             {[ "file:///a.csc" := [pipelineError 0 2] ]}
             ltac:(rewrite lookup_empty; discriminate)).
Defined.

(** X2.  Closing a CScript document removes what the collection holds for
    its uri and nothing else; a waiting timer stays as it is. *)
Theorem close_removes_entry (document : EditorDocument) (s : Session) :
  languageId document = "cscript" ->
  collection (onDidCloseTextDocument document s) !! uri (textDocument document) = None
  /\ (forall u, u <> uri (textDocument document) ->
        collection (onDidCloseTextDocument document s) !! u = collection s !! u)
  /\ timeout (onDidCloseTextDocument document s) = timeout s.
Proof.
  intros Hlang. unfold onDidCloseTextDocument. rewrite (isCScript_true _ Hlang).
  cbn [collection timeout]. split; [apply lookup_delete_eq|]. split; [|reflexivity].
  intros u Hu. now apply lookup_delete_ne.
Qed.

Lemma close_removes_entry_witness :
  collection
    (onDidCloseTextDocument
       (mkEditorDocument "cscript" (mkDocument "file:///a.csc" (str "x | y")))
       (mkSession {[ "file:///a.csc" := [pipelineError 0 2] ]} None))
    !! "file:///a.csc"
  = None.
Proof.
  exact (proj1 (close_removes_entry
                  (mkEditorDocument "cscript" (mkDocument "file:///a.csc" (str "x | y")))
                  (mkSession {[ "file:///a.csc" := [pipelineError 0 2] ]} None)
                  eq_refl)).
Defined.

(** X3.  A document of another language goes through every handler
    without a trace: nothing is scanned, stored, removed or scheduled. *)
Theorem other_language_ignored (config : gmap string bool)
  (document : EditorDocument) (s : Session) :
  languageId document <> "cscript" ->
  onDidOpenTextDocument config document s = s
  /\ onDidChangeTextDocument config document s = s
  /\ onDidCloseTextDocument document s = s
  /\ checkOpenDocuments config [document] s = Returns s.
Proof.
  intros Hlang.
  unfold onDidOpenTextDocument, onDidChangeTextDocument, onDidCloseTextDocument.
  cbn [checkOpenDocuments]. rewrite (isCScript_false _ Hlang). auto.
Qed.

Lemma other_language_ignored_witness :
  onDidCloseTextDocument
    (mkEditorDocument "json" (mkDocument "file:///csconfig.json" (str "{")))
    (mkSession {[ "file:///csconfig.json" := [] ]} None)
  = mkSession {[ "file:///csconfig.json" := [] ]} None.
Proof.
  exact (proj1 (proj2 (proj2 (other_language_ignored ∅
                  (mkEditorDocument "json" (mkDocument "file:///csconfig.json" (str "{")))
                  (mkSession {[ "file:///csconfig.json" := [] ]} None)
                  ltac:(discriminate))))).
Defined.

(** X4.  The provider has one timer for all documents: a change of [a]
    followed, before the timer runs, by a change of [b] leaves only the
    check of [b] waiting.  When the timer runs, [b] is scanned, with the
    text it has at that moment; what the collection holds for [a], if its
    uri is another one, is as old as before. *)
Theorem debounce_keeps_last_change (config : gmap string bool)
  (a b : EditorDocument) (text : list ascii) (s : Session) :
  languageId a = "cscript" -> languageId b = "cscript" ->
  config !! "diagnostics.checkOnType" <> Some false ->
  let s' := timeoutElapsed config text
              (onDidChangeTextDocument config b (onDidChangeTextDocument config a s)) in
  s' = mkSession (state (updateDiagnostics config
                                  (mkDocument (uri (textDocument b)) text)
                                  (collection s))) None
  /\ (uri (textDocument a) <> uri (textDocument b) ->
      collection s' !! uri (textDocument a) = collection s !! uri (textDocument a)).
Proof.
  intros Ha Hb Hon s'. subst s'.
  unfold timeoutElapsed, onDidChangeTextDocument.
  rewrite (isCScript_true _ Ha), (isCScript_true _ Hb), (checkOnType_get _ Hon).
  cbn [timeout collection]. split; [reflexivity|].
  intros Hne. now apply updateDiagnostics_other.
Qed.

Lemma debounce_keeps_last_change_witness :
  collection
    (timeoutElapsed ∅ (str "y")
       (onDidChangeTextDocument ∅
          (mkEditorDocument "cscript" (mkDocument "file:///b.csc" (str "y")))
          (onDidChangeTextDocument ∅
             (mkEditorDocument "cscript" (mkDocument "file:///a.csc" (str "x | y")))
             (mkSession ∅ None))))
    !! "file:///a.csc"
  = None.
Proof.
  refine (eq_trans
            (proj2 (debounce_keeps_last_change ∅
                      (mkEditorDocument "cscript" (mkDocument "file:///a.csc" (str "x | y")))
                      (mkEditorDocument "cscript" (mkDocument "file:///b.csc" (str "y")))
                      (str "y") (mkSession ∅ None) eq_refl eq_refl
                      ltac:(rewrite lookup_empty; discriminate))
                   ltac:(discriminate)) _).
  apply lookup_empty.
Defined.

(** X5.  Closing a document does not cancel its waiting check: after a
    change of a CScript document and its closing, the timer still runs.
    When the scan of the text the document object then returns ends
    normally, its diagnostics are put back into the collection under the
    uri of the closed document; when that scan ends in an exception,
    nothing is stored and the entry stays removed. *)
Theorem close_keeps_pending_check (config : gmap string bool)
  (document : EditorDocument) (text : list ascii) (s : Session) :
  languageId document = "cscript" ->
  config !! "diagnostics.checkOnType" <> Some false ->
  config !! "diagnostics.enabled" <> Some false ->
  collection
    (timeoutElapsed config text
       (onDidCloseTextDocument document (onDidChangeTextDocument config document s)))
    !! uri (textDocument document)
  = collect text.
Proof.
  intros Hlang Htype Hon.
  unfold timeoutElapsed, onDidCloseTextDocument, onDidChangeTextDocument.
  rewrite (isCScript_true _ Hlang), (checkOnType_get _ Htype).
  cbn [timeout collection].
  destruct (collect text) as [diagnostics|] eqn:Hscan.
  - rewrite (updateDiagnostics_returns config
               (mkDocument (uri (textDocument document)) text) _ diagnostics Hon Hscan).
    apply lookup_insert_eq.
  - rewrite (updateDiagnostics_throws config
               (mkDocument (uri (textDocument document)) text) _ Hon Hscan).
    apply lookup_delete_eq.
Qed.

Lemma close_keeps_pending_check_witness :
  collection
    (timeoutElapsed ∅ (str "x | y")
       (onDidCloseTextDocument
          (mkEditorDocument "cscript" (mkDocument "file:///a.csc" (str "x | y")))
          (onDidChangeTextDocument ∅
             (mkEditorDocument "cscript" (mkDocument "file:///a.csc" (str "x | y")))
             (mkSession ∅ None))))
    !! "file:///a.csc"
  = Some [pipelineError 0 2]
  /\ collection
       (timeoutElapsed ∅ (str (String "009" " "))
          (onDidCloseTextDocument
             (mkEditorDocument "cscript" (mkDocument "file:///a.csc" (str "x")))
             (onDidChangeTextDocument ∅
                (mkEditorDocument "cscript" (mkDocument "file:///a.csc" (str "x")))
                (mkSession {[ "file:///a.csc" := [] ]} None))))
       !! "file:///a.csc"
     = None.
Proof.
  split.
  - exact (close_keeps_pending_check ∅
             (mkEditorDocument "cscript" (mkDocument "file:///a.csc" (str "x | y")))
             (str "x | y") (mkSession ∅ None) eq_refl
             ltac:(rewrite lookup_empty; discriminate)
             ltac:(rewrite lookup_empty; discriminate)).
  - exact (close_keeps_pending_check ∅
             (mkEditorDocument "cscript" (mkDocument "file:///a.csc" (str "x")))
             (str (String "009" " ")) (mkSession {[ "file:///a.csc" := [] ]} None) eq_refl
             ltac:(rewrite lookup_empty; discriminate)
             ltac:(rewrite lookup_empty; discriminate)).
Defined.

Section Activation.

Lemma checkOpenDocuments_app config : forall pre post s,
  checkOpenDocuments config (pre ++ post) s =
  match checkOpenDocuments config pre s with
  | Returns s' => checkOpenDocuments config post s'
  | Throws s' => Throws s'
  end.
Proof.
  induction pre as [|x pre IH]; intros post s; [reflexivity|].
  cbn [app checkOpenDocuments]. destruct (isCScript x); [|apply IH].
  destruct (updateDiagnostics config (textDocument x) (collection s)); [apply IH|].
  reflexivity.
Qed.

(** The pass over documents none of which makes the scan throw. *)
Lemma checkOpenDocuments_returns config :
  config !! "diagnostics.enabled" <> Some false ->
  forall textDocuments s,
    (forall d, In d textDocuments -> languageId d = "cscript" ->
               collect (getText (textDocument d)) <> None) ->
    exists s',
      checkOpenDocuments config textDocuments s = Returns s'
      /\ (forall d, In d textDocuments -> languageId d = "cscript" ->
            (forall d', In d' textDocuments -> languageId d' = "cscript" ->
               uri (textDocument d') = uri (textDocument d) ->
               getText (textDocument d') = getText (textDocument d)) ->
            collection s' !! uri (textDocument d)
            = collect (getText (textDocument d)))
      /\ (forall u,
            (forall d, In d textDocuments -> languageId d = "cscript" ->
                       u <> uri (textDocument d)) ->
            collection s' !! u = collection s !! u)
      /\ timeout s' = timeout s.
Proof.
  intros Hon. induction textDocuments as [|x docs IH]; intros s Hok.
  - exists s. split; [reflexivity|]. split; [intros d []|]. split; reflexivity.
  - cbn [checkOpenDocuments].
    assert (Hdocs : forall d, In d docs -> languageId d = "cscript" ->
                              collect (getText (textDocument d)) <> None)
      by (intros d Hd; apply Hok; now right).
    destruct (isCScript x) eqn:Hx.
    + assert (Hlang : languageId x = "cscript")
        by (unfold isCScript in Hx; now apply bool_decide_eq_true in Hx).
      destruct (collect (getText (textDocument x))) as [ds|] eqn:Hscan;
        [|exfalso; exact (Hok x (or_introl eq_refl) Hlang Hscan)].
      rewrite (updateDiagnostics_returns _ _ _ _ Hon Hscan).
      destruct (IH (mkSession (<[uri (textDocument x) := ds]> (collection s))
                              (timeout s)) Hdocs)
        as (s' & Hrun & H1 & H2 & H3).
      exists s'. split; [exact Hrun|]. split; [|split; [|exact H3]].
      * intros d Hd Hd_lang Hsame.
        destruct (decide (Exists (fun d' => languageId d' = "cscript"
                                            /\ uri (textDocument d')
                                               = uri (textDocument d)) docs))
          as [Hex|Hno].
        -- apply List.Exists_exists in Hex. destruct Hex as (d' & Hd' & Hl' & Hu').
           rewrite <- Hu', <- (Hsame d' (or_intror Hd') Hl' Hu').
           apply H1; auto. intros d'' Hd'' Hl'' Hu''.
           rewrite (Hsame d' (or_intror Hd') Hl' Hu').
           apply Hsame; auto; [now right|congruence].
        -- destruct Hd as [<-|Hd];
             [|exfalso; apply Hno, List.Exists_exists; eauto].
           rewrite H2.
           ++ cbn [collection]. rewrite Hscan. apply lookup_insert_eq.
           ++ intros d' Hd' Hl' Hu'. apply Hno, List.Exists_exists. eauto.
      * intros u Hu. rewrite H2 by (intros d Hd; apply Hu; now right).
        cbn [collection]. apply lookup_insert_ne. intros Heq.
        exact (Hu x (or_introl eq_refl) Hlang (eq_sym Heq)).
    + assert (Hlang : languageId x <> "cscript")
        by (unfold isCScript in Hx; now apply bool_decide_eq_false in Hx).
      destruct (IH s Hdocs) as (s' & Hrun & H1 & H2 & H3).
      exists s'. split; [exact Hrun|]. split; [|split; [|exact H3]].
      * intros d [<-|Hd] Hd_lang Hsame; [contradiction|].
        apply H1; auto. intros d' Hd'. apply Hsame. now right.
      * intros u Hu. apply H2. intros d Hd. apply Hu. now right.
Qed.

End Activation.

(** X6.  The pass over the documents that are already open at activation,
    with diagnostics not disabled.  When the scan of no CScript document
    among them ends in an exception, the pass returns and leaves, for every
    such document, the result of its scan under its uri (provided no other
    open CScript document has the same uri with another text); uris of no
    open CScript document keep what they had, and no timer is started.
    When the scan of a CScript document ends in an exception, the pass ends
    there with that exception: what it leaves is what the documents before
    that one have left, and the documents after it are not scanned. *)
Theorem activation_scans_open_documents (config : gmap string bool)
  (textDocuments : list EditorDocument) (s : Session) :
  config !! "diagnostics.enabled" <> Some false ->
  ((forall d, In d textDocuments -> languageId d = "cscript" ->
              collect (getText (textDocument d)) <> None) ->
   exists s',
     checkOpenDocuments config textDocuments s = Returns s'
     /\ (forall d, In d textDocuments -> languageId d = "cscript" ->
           (forall d', In d' textDocuments -> languageId d' = "cscript" ->
              uri (textDocument d') = uri (textDocument d) ->
              getText (textDocument d') = getText (textDocument d)) ->
           collection s' !! uri (textDocument d)
           = collect (getText (textDocument d)))
     /\ (forall u,
           (forall d, In d textDocuments -> languageId d = "cscript" ->
                      u <> uri (textDocument d)) ->
           collection s' !! u = collection s !! u)
     /\ timeout s' = timeout s)
  /\ (forall pre d post,
        textDocuments = pre ++ d :: post ->
        languageId d = "cscript" ->
        collect (getText (textDocument d)) = None ->
        (forall d', In d' pre -> languageId d' = "cscript" ->
                    collect (getText (textDocument d')) <> None) ->
        exists s',
          checkOpenDocuments config pre s = Returns s'
          /\ checkOpenDocuments config textDocuments s = Throws s').
Proof.
  intros Hon. split; [apply checkOpenDocuments_returns; exact Hon|].
  intros pre d post -> Hlang Hscan Hpre.
  destruct (checkOpenDocuments_returns config Hon pre s Hpre) as (s' & Hrun & _).
  exists s'. split; [exact Hrun|].
  rewrite checkOpenDocuments_app, Hrun. cbn [checkOpenDocuments].
  rewrite (isCScript_true _ Hlang), (updateDiagnostics_throws _ _ _ Hon Hscan).
  now destruct s'.
Qed.

Lemma activation_scans_open_documents_witness :
  (exists s',
      checkOpenDocuments ∅
        [mkEditorDocument "cscript" (mkDocument "file:///a.csc" (str "x | y"));
         mkEditorDocument "json" (mkDocument "file:///csconfig.json" (str "{"))]
        (mkSession ∅ None) = Returns s'
      /\ collection s' !! "file:///a.csc" = Some [pipelineError 0 2])
  /\ (exists s',
        checkOpenDocuments ∅
          [mkEditorDocument "cscript" (mkDocument "file:///a.csc" (str "x | y"));
           mkEditorDocument "cscript" (mkDocument "file:///b.csc" (str (String "009" " ")));
           mkEditorDocument "cscript" (mkDocument "file:///c.csc" (str "y"))]
          (mkSession ∅ None) = Throws s'
        /\ collection s' !! "file:///c.csc" = None).
Proof.
  split.
  - destruct (proj1 (activation_scans_open_documents ∅
                       [mkEditorDocument "cscript"
                          (mkDocument "file:///a.csc" (str "x | y"));
                        mkEditorDocument "json"
                          (mkDocument "file:///csconfig.json" (str "{"))]
                       (mkSession ∅ None)
                       ltac:(rewrite lookup_empty; discriminate)))
      as (s' & Hrun & H1 & _).
    + intros d [<-|[<-|[]]] _; discriminate.
    + exists s'. split; [exact Hrun|].
      apply (H1 (mkEditorDocument "cscript"
                   (mkDocument "file:///a.csc" (str "x | y")))).
      * now left.
      * reflexivity.
      * intros d' [<-|[<-|[]]]; [reflexivity|discriminate].
  - destruct (proj2 (activation_scans_open_documents ∅
                       [mkEditorDocument "cscript"
                          (mkDocument "file:///a.csc" (str "x | y"));
                        mkEditorDocument "cscript"
                          (mkDocument "file:///b.csc" (str (String "009" " ")));
                        mkEditorDocument "cscript"
                          (mkDocument "file:///c.csc" (str "y"))]
                       (mkSession ∅ None)
                       ltac:(rewrite lookup_empty; discriminate))
                [mkEditorDocument "cscript"
                   (mkDocument "file:///a.csc" (str "x | y"))]
                (mkEditorDocument "cscript"
                   (mkDocument "file:///b.csc" (str (String "009" " "))))
                [mkEditorDocument "cscript" (mkDocument "file:///c.csc" (str "y"))]
                eq_refl eq_refl eq_refl)
      as (s' & Hpre & Hrun).
    + intros d' [<-|[]] _. discriminate.
    + exists s'. split; [exact Hrun|].
      destruct (proj1 (activation_scans_open_documents ∅
                         [mkEditorDocument "cscript"
                            (mkDocument "file:///a.csc" (str "x | y"))]
                         (mkSession ∅ None)
                         ltac:(rewrite lookup_empty; discriminate)))
        as (s'' & Hpre' & _ & H2 & _).
      * intros d' [<-|[]] _. discriminate.
      * rewrite Hpre' in Hpre. injection Hpre as <-.
        rewrite H2; [apply lookup_empty|].
        intros d' [<-|[]] _. discriminate.
Defined.

(** * Where the ranges lie *)

Section StringFacts.

Lemma startsWith_iff p s : startsWith p s = true <-> exists b, s = p ++ b.
Proof.
  revert s. induction p as [|x p IH]; intros s; simpl.
  - split; [intros _; now exists s|reflexivity].
  - destruct s as [|y s]; [split; [discriminate|intros (b & H); discriminate]|].
    rewrite andb_true_iff, IH. split.
    + intros (Hxy & b & ->). apply Ascii.eqb_eq in Hxy. subst. now exists b.
    + intros (b & H). injection H as -> ->. split; [apply Ascii.eqb_refl|now exists b].
Qed.

Lemma indexOfFrom_range p : forall s i,
  indexOfFrom i p s = (-1)%Z
  \/ (Z.of_nat i <= indexOfFrom i p s
      /\ indexOfFrom i p s + len p <= Z.of_nat i + len s)%Z.
Proof.
  unfold len. induction s as [|x s IH]; intros i; cbn [indexOfFrom].
  - destruct (startsWith p []) eqn:E; [|now left]. right.
    apply startsWith_iff in E. destruct E as (b & E).
    apply (f_equal (@length ascii)) in E. rewrite length_app in E. simpl in E. lia.
  - destruct (startsWith p (x :: s)) eqn:E.
    + right. apply startsWith_iff in E. destruct E as (b & E).
      apply (f_equal (@length ascii)) in E. rewrite length_app in E. lia.
    + destruct (IH (S i)) as [H|H]; [now left|right]. cbn [length]. lia.
Qed.

Lemma indexOfFrom_found p : forall a b i,
  (Z.of_nat i <= indexOfFrom i p (a ++ p ++ b))%Z.
Proof.
  induction a as [|x a IH]; intros b i.
  - cbn [app]. destruct (p ++ b) as [|y s] eqn:E; cbn [indexOfFrom];
      rewrite <- E; rewrite (proj2 (startsWith_iff p (p ++ b))) by (now exists b); lia.
  - cbn [app indexOfFrom]. destruct (startsWith p (x :: a ++ p ++ b)); [lia|].
    specialize (IH b (S i)). lia.
Qed.

(** [s.indexOf(p)] for a [p] that occurs in [s] is the column of an
    occurrence. *)
Lemma indexOf_factor p s :
  factor p s -> (0 <= indexOf p s /\ indexOf p s + len p <= len s)%Z.
Proof.
  intros (a & b & ->). unfold indexOf.
  pose proof (indexOfFrom_found p a b 0) as Hlo.
  destruct (indexOfFrom_range p (a ++ p ++ b) 0) as [H|H]; lia.
Qed.

Lemma lastIndexOfFrom_range p : forall s i,
  lastIndexOfFrom i p s = (-1)%Z
  \/ (Z.of_nat i <= lastIndexOfFrom i p s
      /\ lastIndexOfFrom i p s + len p <= Z.of_nat i + len s)%Z.
Proof.
  unfold len. induction s as [|x s IH]; intros i; cbn [lastIndexOfFrom].
  - cbn. destruct (startsWith p []) eqn:E; [|now left]. right.
    apply startsWith_iff in E. destruct E as (b & E).
    apply (f_equal (@length ascii)) in E. rewrite length_app in E. simpl in E. lia.
  - destruct (IH (S i)) as [H|H].
    + rewrite H. cbn. destruct (startsWith p (x :: s)) eqn:E; [|now left]. right.
      apply startsWith_iff in E. destruct E as (b & E).
      apply (f_equal (@length ascii)) in E. rewrite length_app in E.
      cbn [length] in E. lia.
    + right. destruct (0 <=? lastIndexOfFrom (S i) p s)%Z eqn:E.
      * cbn [length]. lia.
      * apply Z.leb_gt in E. lia.
Qed.

Lemma lastIndexOfFrom_found p : forall a b i,
  (Z.of_nat i <= lastIndexOfFrom i p (a ++ p ++ b))%Z.
Proof.
  induction a as [|x a IH]; intros b i.
  - cbn [app]. destruct (p ++ b) as [|y s] eqn:E; cbn [lastIndexOfFrom].
    + cbn. rewrite <- E.
      rewrite (proj2 (startsWith_iff p (p ++ b))) by (now exists b). lia.
    + destruct (lastIndexOfFrom_range p s (S i)) as [H|H].
      * rewrite H. cbn. rewrite <- E.
        rewrite (proj2 (startsWith_iff p (p ++ b))) by (now exists b). lia.
      * destruct (0 <=? lastIndexOfFrom (S i) p s)%Z eqn:E'; [lia|].
        apply Z.leb_gt in E'. lia.
  - cbn [app lastIndexOfFrom]. specialize (IH b (S i)).
    destruct (0 <=? lastIndexOfFrom (S i) p (a ++ p ++ b))%Z eqn:E; [lia|].
    apply Z.leb_gt in E. lia.
Qed.

Lemma lastIndexOf_factor p s :
  factor p s -> (0 <= lastIndexOf p s /\ lastIndexOf p s + len p <= len s)%Z.
Proof.
  intros (a & b & ->). unfold lastIndexOf.
  pose proof (lastIndexOfFrom_found p a b 0) as Hlo.
  destruct (lastIndexOfFrom_range p (a ++ p ++ b) 0) as [H|H]; lia.
Qed.

Lemma factor_trans p q s : factor p q -> factor q s -> factor p s.
Proof.
  intros (a & b & ->) (a' & b' & ->). exists (a' ++ a), (b ++ b').
  now rewrite <- !app_assoc.
Qed.

Lemma trim_factor s : factor (trim s) s.
Proof.
  destruct (trimStart_split s) as (ws & Hs & _).
  destruct (trimEnd_split (trimStart s)) as (ws2 & Ht & _).
  exists ws, ws2. unfold trim. now rewrite <- Ht.
Qed.

Lemma endsWith_factor p s : endsWith p s = true -> factor p s.
Proof.
  unfold endsWith. intros H. apply startsWith_iff in H. destruct H as (b & H).
  exists (rev b), []. rewrite app_nil_r, <- (rev_involutive p), <- rev_app_distr, <- H.
  now rewrite rev_involutive.
Qed.

End StringFacts.

Section Captures.

Lemma threads_refl st : threads st st.
Proof. split; auto. Qed.

Lemma threads_trans a b c : threads a b -> threads b c -> threads a c.
Proof.
  intros [Hab Cab] [Hbc Cbc]. split; [congruence|].
  intros n w Hin. destruct (Cbc n w Hin) as [H|H]; [auto|].
  right. now rewrite <- Hab.
Qed.

Lemma star_loop_threads (step : mstate -> list mstate) :
  (forall st st', In st' (step st) -> threads st st') ->
  forall fuel st st', In st' (star_loop step fuel st) -> threads st st'.
Proof.
  intros Hstep fuel. induction fuel as [|fuel IH]; intros st st' Hin; simpl in Hin.
  - destruct Hin as [<-|[]]. apply threads_refl.
  - apply in_app_iff in Hin. destruct Hin as [Hin|[<-|[]]]; [|apply threads_refl].
    apply in_flat_map in Hin. destruct Hin as (mid & Hmid & Hin).
    destruct (length (after mid) <? length (after st)); [|destruct Hin].
    eapply threads_trans; eauto.
Qed.

Lemma run_input r st st' : In st' (run r st) -> input st' = input st.
Proof.
  intros Hin. destruct (run_forward r st st' Hin) as (w & Ha & Hb).
  unfold input. rewrite Hb, Ha, rev_app_distr, rev_involutive, <- app_assoc.
  reflexivity.
Qed.

(** Whatever a literal captures is a piece of the string it runs on. *)
Lemma run_threads r : forall st st', In st' (run r st) -> threads st st'.
Proof.
  induction r as [|p|r1 IH1 r2 IH2|r1 IH1 r2 IH2|r IH|n r IH| | |];
    intros st st' Hin.
  - destruct Hin as [<-|[]]. apply threads_refl.
  - split; [exact (run_input _ _ _ Hin)|].
    cbn [run] in Hin. destruct (after st) as [|c aft]; [destruct Hin|].
    destruct (p c); [|destruct Hin]. destruct Hin as [<-|[]]. auto.
  - apply in_flat_map in Hin. destruct Hin as (mid & Hmid & Hin).
    eapply threads_trans; eauto.
  - apply in_app_iff in Hin. destruct Hin; eauto.
  - exact (star_loop_threads (run r) IH _ _ _ Hin).
  - split; [exact (run_input _ _ _ Hin)|].
    cbn [run] in Hin. apply in_map_iff in Hin. destruct Hin as (x & <- & Hx).
    cbn [caps]. intros k w [Hw|Hw].
    + injection Hw as _ <-. right.
      destruct (run_advanced _ r (charsIn_True r) _ _ Hx) as (w & A).
      rewrite (consumed_advanced _ st x w A). destruct A as (Ha & _).
      exists (rev (before st)), (after x). unfold input. now rewrite Ha.
    + exact (proj2 (IH _ _ Hx) k w Hw).
  - cbn [run] in Hin. destruct (before st); [|destruct Hin].
    destruct Hin as [<-|[]]. apply threads_refl.
  - cbn [run] in Hin. destruct (after st); [|destruct Hin].
    destruct Hin as [<-|[]]. apply threads_refl.
  - cbn [run] in Hin. destruct (xorb _ _); [|destruct Hin].
    destruct Hin as [<-|[]]. apply threads_refl.
Qed.

(** What a successful search returns: the match of the literal at some
    position of the string. *)
Lemma search_found r : forall aft bef m,
  search r bef aft = Some m ->
  exists st0 st', input st0 = rev bef ++ aft /\ caps st0 = []
                  /\ In st' (run r st0) /\ m = result st0 st'.
Proof.
  induction aft as [|c aft IH]; intros bef m H; simpl in H.
  - destruct (run r (MState bef [] [])) as [|st' tl] eqn:E; [discriminate|].
    injection H as <-. exists (MState bef [] []), st'.
    repeat split. rewrite E. now left.
  - destruct (run r (MState bef (c :: aft) [])) as [|st' tl] eqn:E.
    + destruct (IH _ _ H) as (st0 & st' & Hi & Hc & Hin & ->).
      exists st0, st'. repeat split; auto.
      rewrite Hi. simpl. now rewrite <- app_assoc.
    + injection H as <-. exists (MState bef (c :: aft) []), st'.
      repeat split. rewrite E. now left.
Qed.

(** [m[0]] lies at [m.index], and the search leaves the string as it is. *)
Lemma search_whole r aft bef m :
  search r bef aft = Some m ->
  (exists a b, rev bef ++ aft = a ++ whole m ++ b /\ length a = index m)
  /\ rev (rest_before m) ++ rest_after m = rev bef ++ aft.
Proof.
  intros H. destruct (search_found r _ _ _ H) as (st0 & st' & Hi & Hc & Hin & ->).
  split; [|rewrite <- Hi; exact (run_input _ _ _ Hin)].
  destruct (run_advanced _ r (charsIn_True r) _ _ Hin) as (w & A).
  exists (rev (before st0)), (after st'). cbn [whole index result].
  rewrite (consumed_advanced _ st0 st' w A). destruct A as (Ha & _).
  rewrite <- Hi. unfold input, pos. rewrite Ha, length_rev. auto.
Qed.

Lemma group_In n : forall gs w, group n gs = Some w -> In (n, w) gs.
Proof.
  induction gs as [|[k s] gs IH]; intros w H; simpl in H; [discriminate|].
  destruct (Nat.eqb_spec k n) as [->|_]; [injection H as ->; now left|].
  right. auto.
Qed.

(** [m[n]], which is the empty string here when the group took no part,
    occurs in the string searched. *)
Lemma search_group r s m n : exec r s = Some m -> factor (grp n m) s.
Proof.
  unfold exec. intros H.
  destruct (search_found r _ _ _ H) as (st0 & st' & Hi & Hc & Hin & ->).
  unfold grp. cbn [groups result].
  destruct (group n (caps st')) as [w|] eqn:E; [|now exists [], s].
  apply group_In in E. destruct (run_threads r _ _ Hin) as [_ Hcaps].
  destruct (Hcaps n w E) as [Hw|Hw].
  - rewrite Hc in Hw. destruct Hw.
  - now rewrite Hi in Hw.
Qed.

Lemma exec_loop_whole r : forall fuel bef aft m,
  In m (exec_loop fuel r bef aft) ->
  exists a b, rev bef ++ aft = a ++ whole m ++ b /\ length a = index m.
Proof.
  induction fuel as [|fuel IH]; intros bef aft m Hin; simpl in Hin; [destruct Hin|].
  destruct (search r bef aft) as [m0|] eqn:E; [|destruct Hin].
  destruct (search_whole r _ _ _ E) as [Hw Hrest].
  destruct Hin as [<-|Hin]; [exact Hw|].
  rewrite <- Hrest. eauto.
Qed.

Lemma in_run_Lit s : forall st st',
  In st' (run (Lit s) st) -> after st = s ++ after st'.
Proof.
  induction s as [|c s IH]; intros st st' Hin.
  - now destruct Hin as [<-|[]].
  - cbn [Lit] in Hin. apply in_run_seq in Hin. destruct Hin as (mid & Hmid & Hin).
    apply IH in Hin. cbn [run] in Hmid.
    destruct (after st) as [|x aft]; [destruct Hmid|]. unfold chr in Hmid.
    destruct (Ascii.eqb_spec x c) as [->|]; [|destruct Hmid].
    destruct Hmid as [<-|[]]. cbn [after] in Hin. now rewrite Hin.
Qed.

Lemma test_exec r s : test r s = true -> exists m, exec r s = Some m.
Proof. unfold test. destruct (exec r s); [eauto|discriminate]. Qed.

(** A line on which [\bword...] is found contains the word. *)
Lemma test_keyword_factor w rest s :
  test (Seq WordB (Seq (Lit w) rest)) s = true -> factor w s.
Proof.
  intros H. apply test_exec in H. destruct H as (m & H).
  destruct (search_found _ _ _ _ H) as (st0 & st' & Hi & _ & Hin & _).
  apply in_run_seq in Hin. destruct Hin as (mid & Hmid & Hin).
  cbn [run] in Hmid. destruct (xorb _ _); [|destruct Hmid].
  destruct Hmid as [<-|[]].
  apply in_run_seq in Hin. destruct Hin as (mid & Hmid & _).
  apply in_run_Lit in Hmid. exists (rev (before st0)), (after mid).
  simpl in Hi. rewrite <- Hi. unfold input. now rewrite Hmid.
Qed.

Lemma in_run_Chr p st st' :
  In st' (run (Chr p) st) -> exists c, p c = true /\ after st = c :: after st'.
Proof.
  cbn [run]. destruct (after st) as [|c aft]; [intros []|].
  destruct (p c) eqn:E; [|intros []]. intros [<-|[]]. eauto.
Qed.

Lemma in_run_Cat_last r : forall rs st st',
  In st' (run (Cat (rs ++ [r])) st) ->
  exists mid, input mid = input st /\ In st' (run r mid).
Proof.
  induction rs as [|a rs IH]; intros st st' Hin.
  - apply in_run_seq in Hin. destruct Hin as (mid & Hmid & Hin).
    destruct Hin as [<-|[]]. now exists st.
  - apply in_run_seq in Hin. destruct Hin as (mid & Hmid & Hin).
    destruct (IH _ _ Hin) as (x & Hx & Hin'). exists x.
    split; [|exact Hin']. rewrite Hx. exact (run_input _ _ _ Hmid).
Qed.

Lemma chr_eq a c : chr a c = true -> c = a.
Proof. unfold chr. now destruct (Ascii.eqb_spec c a). Qed.

End Captures.

Section Spots.

Lemma spot_diag line lineNumber c1 c2 msg sev :
  (0 <= c1 <= c2)%Z -> (c2 <= len line)%Z ->
  spot line lineNumber (diag (lineRange lineNumber c1 c2) msg sev).
Proof. intros H1 H2. split; [repeat split|left; simpl; lia]. Qed.

Lemma test_literal_factor w rest s :
  test (Seq (Lit w) rest) s = true -> factor w s.
Proof.
  intros H. apply test_exec in H. destruct H as (m & H).
  destruct (search_found _ _ _ _ H) as (st0 & st' & Hi & _ & Hin & _).
  apply in_run_seq in Hin. destruct Hin as (mid & Hmid & _).
  apply in_run_Lit in Hmid. exists (rev (before st0)), (after mid).
  simpl in Hi. rewrite <- Hi. unfold input. now rewrite Hmid.
Qed.

Lemma pipeline_spot line lineNumber d :
  In d (checkPipelineOperators line lineNumber) -> spot line lineNumber d.
Proof.
  unfold checkPipelineOperators. intros Hin. apply in_app_iff in Hin.
  destruct Hin as [Hin|Hin].
  - apply in_map_iff in Hin. destruct Hin as (m & <- & Hm).
    assert (Hi : In (index m) (badPipes 0 line)).
    { pose proof (pipeline_loop (length line) line [] (S (length line)) eq_refl
                    ltac:(lia)) as Hloop.
      change (length (@nil ascii)) with 0 in Hloop. rewrite <- Hloop.
      apply in_map. exact Hm. }
    destruct (badPipes_sound _ _ _ _ eq_refl Hi) as (j & c & -> & _ & Hc & _).
    assert (S j < length line) by (apply nth_error_Some; congruence).
    apply spot_diag; unfold len; lia.
  - destruct (endsWith (str "|>") (trim line)) eqn:E; [|destruct Hin].
    destruct Hin as [<-|[]].
    pose proof (lastIndexOf_factor _ _
                  (factor_trans _ _ _ (endsWith_factor _ _ E) (trim_factor line))) as H.
    change (len (str "|>")) with 2%Z in H. apply spot_diag; lia.
Qed.

Lemma keyword_spot w rest line lineNumber k msg sev :
  test (Seq WordB (Seq (Lit w) rest)) line = true ->
  k = len w ->
  spot line lineNumber
       (diag (lineRange lineNumber (indexOf w line) (indexOf w line + k)) msg sev).
Proof.
  intros H ->. pose proof (indexOf_factor _ _ (test_keyword_factor _ _ _ H)) as Hi.
  apply spot_diag; unfold len in *; lia.
Qed.

Lemma match_spot line lineNumber lines d :
  In d (checkMatchExpressions line lineNumber lines) -> spot line lineNumber d.
Proof.
  unfold checkMatchExpressions. intros Hin. apply in_app_iff in Hin.
  destruct Hin as [Hin|Hin].
  - destruct (test matchKeyword line) eqn:E; [|destruct Hin].
    destruct (findClosing _ _ _ _); [destruct Hin|]. destruct Hin as [<-|[]].
    exact (keyword_spot _ _ _ _ _ _ _ E eq_refl).
  - destruct (test matchArm (trim line)); [|destruct Hin].
    destruct (exec matchArm line) as [m|]; [|destruct Hin].
    destruct (trim (grp 1 m)); [|destruct Hin]. destruct Hin as [<-|[]].
    apply spot_diag; unfold len; lia.
Qed.

Lemma capture_spot r line m n lineNumber msg sev :
  exec r line = Some m ->
  spot line lineNumber
       (diag (lineRange lineNumber (indexOf (grp n m) line)
                        (indexOf (grp n m) line + len (grp n m))) msg sev).
Proof.
  intros H. pose proof (indexOf_factor _ _ (search_group r line m n H)) as Hi.
  apply spot_diag; unfold len in *; lia.
Qed.

Lemma linq_spot line lineNumber d :
  In d (checkLinqQueries line lineNumber) -> spot line lineNumber d.
Proof.
  unfold checkLinqQueries. intros Hin. apply in_app_iff in Hin.
  destruct Hin as [Hin|Hin].
  - destruct (test fromRegex line); [|destruct Hin].
    destruct (exec fromRegex line) as [m|] eqn:E; [|destruct Hin].
    destruct (negb _); [|destruct Hin]. destruct Hin as [<-|[]].
    exact (capture_spot _ _ _ _ _ _ _ E).
  - destruct (test (Cat [WordB; lit "from"; WordB]) line) eqn:E; [|destruct Hin].
    destruct (negb _); [|destruct Hin]. destruct Hin as [<-|[]].
    exact (keyword_spot _ _ _ _ _ _ _ E eq_refl).
Qed.

Lemma operator_spot line lineNumber d :
  In d (checkOperatorOverloading line lineNumber) -> spot line lineNumber d.
Proof.
  unfold checkOperatorOverloading. intros Hin.
  destruct (exec operatorRegex line) as [m|] eqn:E; [|destruct Hin].
  destruct (negb _); [|destruct Hin]. destruct Hin as [<-|[]].
  exact (capture_spot _ _ _ _ _ _ _ E).
Qed.

Lemma function_spot line lineNumber d :
  In d (checkFunctionSyntax line lineNumber) -> spot line lineNumber d.
Proof.
  unfold checkFunctionSyntax. intros Hin. apply in_app_iff in Hin.
  destruct Hin as [Hin|Hin].
  - destruct (exec functionRegex line) as [m|] eqn:E; [|destruct Hin].
    destruct (negb _); [|destruct Hin]. destruct Hin as [<-|[]].
    exact (capture_spot _ _ _ _ _ _ _ E).
  - destruct (test arrowRegex line) eqn:E; [|destruct Hin]. destruct Hin as [<-|[]].
    pose proof (lastIndexOf_factor _ _ (test_literal_factor _ _ _ E)) as H.
    change (len (str "=>")) with 2%Z in H. apply spot_diag; lia.
Qed.

Lemma nonSpace_none : forall aft bef,
  search nonSpace bef aft = None -> Forall (holds isSpace) aft.
Proof.
  induction aft as [|c aft IH]; intros bef H; [constructor|].
  cbn in H. destruct (isSpace c) eqn:E; cbn in H; [|discriminate].
  constructor; [exact E|]. exact (IH _ H).
Qed.

Lemma newRange_some a b c d r :
  newRange a b c d = Some r ->
  r = mkRange a b c d /\ (0 <= a /\ 0 <= b /\ 0 <= c /\ 0 <= d)%Z.
Proof.
  unfold newRange.
  destruct (Z.leb_spec 0 a), (Z.leb_spec 0 b), (Z.leb_spec 0 c), (Z.leb_spec 0 d);
    cbn; intros Hr; try discriminate.
  injection Hr as <-. auto.
Qed.

Lemma newRange_none a b c d :
  newRange a b c d = None -> (a < 0 \/ b < 0 \/ c < 0 \/ d < 0)%Z.
Proof.
  unfold newRange.
  destruct (Z.leb_spec 0 a), (Z.leb_spec 0 b), (Z.leb_spec 0 c), (Z.leb_spec 0 d);
    cbn; intros Hr; try discriminate; lia.
Qed.

(** [line.search(/\S/)] is [-1] on a line of blanks and the number of
    leading blanks otherwise. *)
Lemma nonSpace_search line :
  (search_index nonSpace line = (-1)%Z /\ Forall (holds isSpace) line)
  \/ (0 <= search_index nonSpace line <= len line
      /\ ~ Forall (holds isSpace) line)%Z.
Proof.
  unfold search_index. destruct (exec nonSpace line) as [m|] eqn:E.
  - right. pose proof E as E'. unfold exec in E'.
    destruct (search_found _ _ _ _ E') as (st0 & st' & Hi & _ & Hrun & _).
    destruct (search_whole _ _ _ _ E) as [(a & b & Hs & Ha) _].
    split.
    + apply (f_equal (@length ascii)) in Hs. rewrite !length_app in Hs.
      simpl in Hs. unfold len. lia.
    + intros Hall. apply in_run_Chr in Hrun. destruct Hrun as (c & Hc & Hafter).
      simpl in Hi. unfold input in Hi. rewrite Hafter in Hi.
      assert (Hin : In c line) by (rewrite <- Hi; apply in_app_iff; right; now left).
      apply (proj1 (List.Forall_forall _ _) Hall) in Hin. unfold holds in Hin.
      now rewrite Hin in Hc.
  - left. split; [reflexivity|]. exact (nonSpace_none _ _ E).
Qed.

Lemma indentation_spot line lineNumber lines ds d :
  checkBracesAndIndentation line lineNumber lines = Some ds ->
  In d ds -> spot line lineNumber d.
Proof.
  unfold checkBracesAndIndentation. intros Hds Hin.
  destruct (test tabsThenSpace line || test spacesThenTab line);
    [|injection Hds as <-; destruct Hin].
  destruct (newRange _ _ _ _) as [r|] eqn:Hr; [|discriminate].
  injection Hds as <-. destruct Hin as [<-|[]].
  apply newRange_some in Hr. destruct Hr as [-> (_ & _ & _ & Hend)].
  split; [repeat split|]. left. cbn [range diag startCharacter endCharacter].
  destruct (nonSpace_search line) as [[Hs _]|[Hs _]]; lia.
Qed.

Lemma matches_spot r line lineNumber m msg sev :
  In m (exec_all r line) ->
  spot line lineNumber
       (diag (lineRange lineNumber (Z.of_nat (index m))
                        (Z.of_nat (index m) + len (whole m))) msg sev).
Proof.
  intros Hm. destruct (exec_loop_whole _ _ _ _ _ Hm) as (a & b & Hs & Ha).
  apply (f_equal (@length ascii)) in Hs. rewrite !length_app in Hs. simpl in Hs.
  apply spot_diag; unfold len; lia.
Qed.

Lemma autoProperty_braces line :
  test autoPropertyRegex line = true ->
  factor (str "{") line /\ factor (str "}") line.
Proof.
  intros H. apply test_exec in H. destruct H as (m & H).
  destruct (search_found _ _ _ _ H) as (st0 & st' & Hi & _ & Hin & _).
  simpl in Hi. split.
  - apply in_run_seq in Hin. destruct Hin as (mid & Hmid & _).
    apply in_run_Chr in Hmid. destruct Hmid as (c & Hc & Hmid).
    apply chr_eq in Hc. subst c.
    exists (rev (before st0)), (after mid). rewrite <- Hi. unfold input.
    now rewrite Hmid.
  - change autoPropertyRegex with
      (Cat ([Chr (chr "{"); Star sp; Grp 1 (Alt (lit "get") (lit "set"));
             Star (Chr semiOrSpace); Opt (Grp 2 (Alt (lit "get") (lit "set")));
             Star (Chr semiOrSpace)] ++ [Chr (chr "}")])) in Hin.
    apply in_run_Cat_last in Hin. destruct Hin as (mid & Hmid & Hin).
    apply in_run_Chr in Hin. destruct Hin as (c & Hc & Hin).
    apply chr_eq in Hc. subst c.
    exists (rev (before mid)), (after st'). rewrite <- Hi, <- Hmid. unfold input.
    now rewrite Hin.
Qed.

Lemma general_spot line lineNumber d :
  In d (checkGeneralSyntax line lineNumber) -> spot line lineNumber d.
Proof.
  unfold checkGeneralSyntax. intros Hin.
  repeat (apply in_app_iff in Hin; destruct Hin as [Hin|Hin]).
  - unfold checkUnclosedStrings in Hin.
    destruct (stringScan line false None false) as [[|] q]; [|destruct Hin].
    destruct Hin as [<-|[]]. apply spot_diag; unfold len; lia.
  - apply in_map_iff in Hin. destruct Hin as (m & <- & Hm).
    exact (matches_spot _ _ _ _ _ _ Hm).
  - unfold checkSemicolonUsage in Hin.
    destruct (includes (str ":") line); [|destruct Hin].
    destruct (endsWith (str ";") (trim line)) eqn:E; [|destruct Hin].
    destruct Hin as [<-|[]].
    pose proof (lastIndexOf_factor _ _
                  (factor_trans _ _ _ (endsWith_factor _ _ E) (trim_factor line))) as H.
    change (len (str ";")) with 1%Z in H. apply spot_diag; lia.
  - unfold checkStructSyntax in Hin.
    destruct (exec structRegex line) as [m|] eqn:E; [|destruct Hin].
    destruct (negb _); [|destruct Hin]. destruct Hin as [<-|[]].
    exact (capture_spot _ _ _ _ _ _ _ E).
  - unfold checkAutoProperties in Hin.
    destruct (test autoPropertyRegex line) eqn:E; [|destruct Hin].
    destruct (exec braceBlock line) as [m|]; [|destruct Hin].
    destruct (negb _ && negb _); [|destruct Hin]. destruct Hin as [<-|[]].
    destruct (autoProperty_braces line E) as [Ho Hc].
    apply indexOf_factor in Ho, Hc.
    change (len (str "{")) with 1%Z in Ho. change (len (str "}")) with 1%Z in Hc.
    split; [repeat split|]. right. split; [reflexivity|].
    unfold colsWithin, autoPropertyError, diag, lineRange.
    cbn [range startCharacter endCharacter]. lia.
  - apply in_flat_map in Hin. destruct Hin as (m & Hm & Hin).
    unfold rangeCheck in Hin. destruct (negb _); [|destruct Hin].
    destruct (geq _ _); [|destruct Hin]. destruct Hin as [<-|[]].
    exact (matches_spot _ _ _ _ _ _ Hm).
  - unfold checkWithExpressions in Hin.
    destruct (test withRegex line) eqn:E; [|destruct Hin].
    destruct (negb _ || _); [|destruct Hin]. destruct Hin as [<-|[]].
    exact (keyword_spot _ _ _ _ _ _ _ E eq_refl).
Qed.

Lemma lineLoop_spot lines : forall rest pre ds d,
  lines = pre ++ rest ->
  lineLoop rest (length pre) lines = Some ds ->
  In d ds ->
  exists lineNumber line,
    nth_error lines lineNumber = Some line /\ spot line lineNumber d.
Proof.
  induction rest as [|line rest IH]; intros pre ds d Hl Hds Hin.
  - injection Hds as <-. destruct Hin.
  - cbn [lineLoop] in Hds.
    destruct (checkBracesAndIndentation line (length pre) lines) as [ind|] eqn:Hind;
      [|discriminate].
    destruct (lineLoop rest (S (length pre)) lines) as [later|] eqn:Hlater;
      [|discriminate].
    injection Hds as <-.
    assert (Hnth : nth_error lines (length pre) = Some line).
    { rewrite Hl, nth_error_app2, Nat.sub_diag by lia. reflexivity. }
    rewrite <- !app_assoc in Hin.
    do 7 (apply in_app_iff in Hin;
          destruct Hin as [Hin|Hin];
          [exists (length pre), line; split; [exact Hnth|];
           eauto using pipeline_spot, match_spot, linq_spot, operator_spot,
             function_spot, indentation_spot, general_spot|]).
    apply (IH (pre ++ [line]) later d).
    + now rewrite <- app_assoc.
    + rewrite length_app, Nat.add_1_r. exact Hlater.
    + exact Hin.
Qed.

Lemma multiLine_spot lines d :
  lines <> [] ->
  In d (checkMultiLineConstructs lines) ->
  spot (List.last lines []) (length lines - 1) d.
Proof.
  intros Hne Hin.
  assert (Hlen : length lines <> 0) by (destruct lines; [congruence|discriminate]).
  assert (Hall : forall msg,
            spot (List.last lines []) (length lines - 1)
                 (diag (lastLineRange lines) msg Error)).
  { intros msg. split; [repeat split; simpl; lia|]. left. simpl. unfold len. lia. }
  unfold checkMultiLineConstructs in Hin.
  destruct (countLoop lines 0 0 0) as [[b k] p].
  repeat (apply in_app_iff in Hin; destruct Hin as [Hin|Hin]).
  - destruct (0 <? b)%Z; [destruct Hin as [<-|[]]; apply Hall|].
    destruct (b <? 0)%Z; [destruct Hin as [<-|[]]; apply Hall|destruct Hin].
  - destruct (0 <? k)%Z; [destruct Hin as [<-|[]]; apply Hall|destruct Hin].
  - destruct (0 <? p)%Z; [destruct Hin as [<-|[]]; apply Hall|destruct Hin].
Qed.

Lemma nth_error_last (lines : list (list ascii)) :
  lines <> [] -> nth_error lines (length lines - 1) = Some (List.last lines []).
Proof.
  intros Hne. destruct (exists_last Hne) as (pre & x & ->).
  rewrite last_last, length_app, nth_error_app2 by (simpl; lia).
  simpl. replace (length pre + 1 - 1 - length pre) with 0 by lia. reflexivity.
Qed.

(** Every diagnostic of a scan sits on a line of the document. *)
Lemma collect_spot text ds d :
  collect text = Some ds ->
  In d ds ->
  exists lineNumber line,
    nth_error (split_lines text) lineNumber = Some line /\ spot line lineNumber d.
Proof.
  unfold collect. intros Hds Hin.
  destruct (lineLoop (split_lines text) 0 (split_lines text)) as [per|] eqn:Hper;
    [|discriminate].
  injection Hds as <-. apply in_app_iff in Hin. destruct Hin as [Hin|Hin].
  - exact (lineLoop_spot _ _ [] per d eq_refl Hper Hin).
  - pose proof (split_lines_nonempty text) as Hne.
    exists (length (split_lines text) - 1), (List.last (split_lines text) []).
    split; [exact (nth_error_last _ Hne)|exact (multiLine_spot _ _ Hne Hin)].
Qed.

Lemma spot_constructible line lineNumber d : spot line lineNumber d -> constructible d.
Proof.
  intros [(_ & Hs & He) Hcols]. unfold constructible, newRange.
  assert (H : (0 <= startCharacter (range d) /\ 0 <= endCharacter (range d))%Z).
  { destruct Hcols as [Hc|[_ [Hc1 Hc2]]]; lia. }
  rewrite Hs, He.
  destruct (Z.leb_spec 0 (Z.of_nat lineNumber)); [|lia].
  destruct (Z.leb_spec 0 (startCharacter (range d))); [|lia].
  destruct (Z.leb_spec 0 (endCharacter (range d))); [|lia].
  cbn. rewrite <- Hs at 1. rewrite <- He. now destruct (range d).
Qed.

(** Whatever the check methods other than [checkBracesAndIndentation] push
    is built from arguments the constructor accepts. *)
Lemma pushed_constructible line lineNumber lines d :
  In d (checkPipelineOperators line lineNumber
        ++ checkMatchExpressions line lineNumber lines
        ++ checkLinqQueries line lineNumber
        ++ checkOperatorOverloading line lineNumber
        ++ checkFunctionSyntax line lineNumber
        ++ checkGeneralSyntax line lineNumber)
  \/ (lines <> [] /\ In d (checkMultiLineConstructs lines)) ->
  constructible d.
Proof.
  intros [Hin|[Hne Hin]].
  - apply (spot_constructible line lineNumber).
    do 5 (apply in_app_iff in Hin;
          destruct Hin as [Hin|Hin];
          [eauto using pipeline_spot, match_spot, linq_spot, operator_spot,
             function_spot|]).
    now apply general_spot.
  - exact (spot_constructible _ _ d (multiLine_spot _ _ Hne Hin)).
Qed.

End Spots.

(** X8. In every diagnostic of a scan the start column is not after the end
    column, except possibly in the auto-property Error, whose columns are
    the first opening and the first closing brace of the line wherever they
    stand. *)
Theorem ranges_in_order text ds d :
  collect text = Some ds ->
  In d ds ->
  (startCharacter (range d) <= endCharacter (range d))%Z
  \/ exists lineNumber line,
       nth_error (split_lines text) lineNumber = Some line
       /\ d = autoPropertyError line lineNumber.
Proof.
  intros Hds Hin.
  destruct (collect_spot text ds d Hds Hin) as (ln & line & Hnth & _ & Hd).
  destruct Hd as [Hd|[Hd _]].
  - left. lia.
  - right. exists ln, line. auto.
Qed.

Lemma ranges_in_order_witness :
  (startCharacter (range (pipelineError 0 2))
   <= endCharacter (range (pipelineError 0 2)))%Z
  \/ exists lineNumber line,
       nth_error (split_lines (str "a | b")) lineNumber = Some line
       /\ pipelineError 0 2 = autoPropertyError line lineNumber.
Proof.
  apply (ranges_in_order (str "a | b") [pipelineError 0 2] (pipelineError 0 2)).
  - vm_compute. reflexivity.
  - now left.
Defined.

(** * What the literals match *)

Section Denotation.

Lemma star_loop_sound r :
  (forall st st', In st' (run r st) -> exists w, moved r st st' w) ->
  forall fuel st st',
    In st' (star_loop (run r) fuel st) -> exists w, moved (Star r) st st' w.
Proof.
  intros Hstep fuel. induction fuel as [|fuel IH]; intros st st' Hin; simpl in Hin.
  - destruct Hin as [<-|[]]. exists []. repeat split. constructor.
  - apply in_app_iff in Hin.
    destruct Hin as [Hin|[<-|[]]]; [|exists []; repeat split; constructor].
    apply in_flat_map in Hin. destruct Hin as (mid & Hmid & Hin).
    destruct (Nat.ltb_spec (length (after mid)) (length (after st))) as [Hlt|];
      [|destruct Hin].
    destruct (Hstep _ _ Hmid) as (w1 & Ha1 & Hb1 & D1).
    destruct (IH _ _ Hin) as (w2 & Ha2 & Hb2 & D2).
    exists (w1 ++ w2). repeat split.
    + now rewrite Ha1, Ha2, app_assoc.
    + now rewrite Hb2, Hb1, rev_app_distr, app_assoc.
    + apply d_star_cons.
      * intros ->. rewrite Ha1 in Hlt. simpl in Hlt. lia.
      * now rewrite <- Ha2.
      * now rewrite <- Hb1.
Qed.

(** Every way the matcher finds is a match of the literal. *)
Lemma run_sound r : forall st st',
  In st' (run r st) -> exists w, moved r st st' w.
Proof.
  induction r as [|p|r1 IH1 r2 IH2|r1 IH1 r2 IH2|r IH|n r IH| | |];
    intros st st' Hin.
  - destruct Hin as [<-|[]]. exists []. repeat split. constructor.
  - cbn [run] in Hin. destruct (after st) as [|c aft] eqn:Ea; [destruct Hin|].
    destruct (p c) eqn:Hp; [|destruct Hin]. destruct Hin as [<-|[]].
    exists [c]. repeat split; [exact Ea|]. now constructor.
  - apply in_flat_map in Hin. destruct Hin as (mid & Hmid & Hin).
    destruct (IH1 _ _ Hmid) as (w1 & Ha1 & Hb1 & D1).
    destruct (IH2 _ _ Hin) as (w2 & Ha2 & Hb2 & D2).
    exists (w1 ++ w2). repeat split.
    + now rewrite Ha1, Ha2, app_assoc.
    + now rewrite Hb2, Hb1, rev_app_distr, app_assoc.
    + constructor; [now rewrite <- Ha2|now rewrite <- Hb1].
  - apply in_app_iff in Hin. destruct Hin as [Hin|Hin].
    + destruct (IH1 _ _ Hin) as (w & Ha & Hb & D). exists w. repeat split; auto.
      now apply d_alt_l.
    + destruct (IH2 _ _ Hin) as (w & Ha & Hb & D). exists w. repeat split; auto.
      now apply d_alt_r.
  - exact (star_loop_sound r IH _ _ _ Hin).
  - cbn [run] in Hin. apply in_map_iff in Hin. destruct Hin as (x & <- & Hx).
    destruct (IH _ _ Hx) as (w & Ha & Hb & D). exists w. repeat split; auto.
    now constructor.
  - cbn [run] in Hin. destruct (before st) eqn:Eb; [|destruct Hin].
    destruct Hin as [<-|[]]. exists []. repeat split. rewrite Eb. constructor.
  - cbn [run] in Hin. destruct (after st) eqn:Ea; [|destruct Hin].
    destruct Hin as [<-|[]]. exists []. repeat split. rewrite Ea. constructor.
  - cbn [run] in Hin. destruct (xorb _ _) eqn:E; [|destruct Hin].
    destruct Hin as [<-|[]]. exists []. repeat split. now constructor.
Qed.

(** Every match of the literal is among the ways the matcher finds. *)
Lemma run_complete r B w rest :
  denotes r B w rest ->
  forall cs, exists st',
    In st' (run r (MState B (w ++ rest) cs))
    /\ before st' = rev w ++ B /\ after st' = rest.
Proof.
  induction 1 as [B rest|p c B rest Hp|r1 r2 B w1 w2 rest _ IH1 _ IH2
                  |r1 r2 B w rest _ IH|r1 r2 B w rest _ IH
                  |r B rest|r B w1 w2 rest Hne _ IH1 _ IH2
                  |n r B w rest _ IH|rest|B|B rest Hx]; intros cs.
  - exists (MState B rest cs). repeat split. now left.
  - exists (MState (c :: B) rest cs). repeat split. cbn. rewrite Hp. now left.
  - destruct (IH1 cs) as ([b1 a1 c1] & Hin1 & Hb1 & Ha1). simpl in Hb1, Ha1. subst.
    destruct (IH2 c1) as (st' & Hin2 & Hb2 & Ha2).
    exists st'. repeat split.
    + cbn [run]. apply in_flat_map. rewrite <- app_assoc. eauto.
    + now rewrite Hb2, rev_app_distr, app_assoc.
    + exact Ha2.
  - destruct (IH cs) as (st' & Hin & Hb & Ha). exists st'. repeat split; auto.
    cbn [run]. apply in_app_iff. now left.
  - destruct (IH cs) as (st' & Hin & Hb & Ha). exists st'. repeat split; auto.
    cbn [run]. apply in_app_iff. now right.
  - exists (MState B rest cs). repeat split. cbn [run after app].
    cbn [star_loop]. apply in_app_iff. right. now left.
  - destruct (IH1 cs) as ([b1 a1 c1] & Hin1 & Hb1 & Ha1). simpl in Hb1, Ha1. subst.
    destruct (IH2 c1) as (st' & Hin2 & Hb2 & Ha2).
    exists st'. repeat split.
    + cbn [run after]. cbn [star_loop]. apply in_app_iff. left.
      apply in_flat_map. exists (MState (rev w1 ++ B) (w2 ++ rest) c1).
      rewrite <- app_assoc. split; [exact Hin1|]. cbn [after].
      assert (Hlt : length (w2 ++ rest) < length (w1 ++ w2 ++ rest)).
      { rewrite (length_app w1). destruct w1; [congruence|simpl; lia]. }
      apply Nat.ltb_lt in Hlt. rewrite Hlt.
      cbn [run after] in Hin2.
      rewrite (star_loop_fuel (run r) (length (w2 ++ rest)) _
                 (length (w1 ++ w2 ++ rest)) (S (length (w2 ++ rest))));
        auto. apply Nat.ltb_lt in Hlt. exact Hlt.
    + now rewrite Hb2, rev_app_distr, app_assoc.
    + exact Ha2.
  - destruct (IH cs) as (st' & Hin & Hb & Ha).
    exists (MState (before st') (after st')
                   ((n, consumed (MState B (w ++ rest) cs) st') :: caps st')).
    repeat split; auto. cbn [run]. apply in_map_iff. eauto.
  - exists (MState [] rest cs). repeat split. now left.
  - exists (MState B [] cs). repeat split. now left.
  - exists (MState B rest cs). repeat split. cbn [run app].
    unfold wordBefore, wordAfter. cbn [before after].
    unfold firstIs in Hx. rewrite Hx. now left.
Qed.

(** A search succeeds exactly when the literal matches somewhere in what
    is left of the string. *)
Lemma search_denotes r : forall aft bef,
  (exists m, search r bef aft = Some m)
  <-> exists a w b, aft = a ++ w ++ b /\ denotes r (rev a ++ bef) w b.
Proof.
  induction aft as [|c aft IH]; intros bef.
  - split.
    + intros (m & H). destruct (search_found r _ _ _ H) as (st0 & st' & _).
      clear st0 st'. simpl in H.
      destruct (run r (MState bef [] [])) as [|st' tl] eqn:E; [discriminate|].
      destruct (run_sound r (MState bef [] []) st') as (w & Ha & Hb & D);
        [rewrite E; now left|].
      exists [], w, (after st'). auto.
    + intros (a & w & b & Hs & D). symmetry in Hs.
      apply app_eq_nil in Hs. destruct Hs as [-> Hs].
      apply app_eq_nil in Hs. destruct Hs as [-> ->].
      destruct (run_complete r _ _ _ D []) as (st' & Hin & _).
      simpl in *. destruct (run r (MState bef [] [])); [destruct Hin|eauto].
  - split.
    + intros (m & H). simpl in H.
      destruct (run r (MState bef (c :: aft) [])) as [|st' tl] eqn:E.
      * destruct (proj1 (IH (c :: bef)) (ex_intro _ m H)) as (a & w & b & Hs & D).
        exists (c :: a), w, b. split; [simpl; congruence|].
        simpl. now rewrite <- app_assoc.
      * destruct (run_sound r (MState bef (c :: aft) []) st') as (w & Ha & Hb & D);
          [rewrite E; now left|].
        exists [], w, (after st'). auto.
    + intros (a & w & b & Hs & D). simpl.
      destruct (run r (MState bef (c :: aft) [])) as [|st' tl] eqn:E; [|eauto].
      destruct a as [|x a].
      * simpl in Hs, D. destruct (run_complete r _ _ _ D []) as (st' & Hin & _).
        rewrite <- Hs, E in Hin. destruct Hin.
      * injection Hs as <- Hs. apply IH. exists a, w, b. split; [exact Hs|].
        simpl in D. now rewrite <- app_assoc in D.
Qed.

Lemma test_denotes r s :
  test r s = true <-> exists a w b, s = a ++ w ++ b /\ denotes r (rev a) w b.
Proof.
  unfold test, exec. split.
  - intros H. destruct (search r [] s) as [m|] eqn:E; [|discriminate].
    destruct (proj1 (search_denotes r s []) (ex_intro _ m E)) as (a & w & b & Hs & D).
    exists a, w, b. now rewrite app_nil_r in D.
  - intros (a & w & b & Hs & D).
    destruct (proj2 (search_denotes r s [])) as (m & ->); [|reflexivity].
    exists a, w, b. now rewrite app_nil_r.
Qed.

End Denotation.

Section Shapes.

Lemma denotes_seq r1 r2 B w rest :
  denotes (Seq r1 r2) B w rest <->
  exists w1 w2, w = w1 ++ w2 /\ denotes r1 B w1 (w2 ++ rest)
                /\ denotes r2 (rev w1 ++ B) w2 rest.
Proof.
  split.
  - inversion 1; subst. eauto.
  - intros (w1 & w2 & -> & H1 & H2). now constructor.
Qed.

Lemma denotes_eps B w rest : denotes Eps B w rest <-> w = [].
Proof. split; [now inversion 1|intros ->; constructor]. Qed.

Lemma denotes_chr p B w rest :
  denotes (Chr p) B w rest <-> exists c, w = [c] /\ p c = true.
Proof.
  split; [inversion 1; eauto|intros (c & -> & H); now constructor].
Qed.

Lemma denotes_bol B w rest : denotes Bol B w rest <-> w = [] /\ B = [].
Proof. split; [now inversion 1|intros [-> ->]; constructor]. Qed.

Lemma denotes_eol B w rest : denotes Eol B w rest <-> w = [] /\ rest = [].
Proof. split; [now inversion 1|intros [-> ->]; constructor]. Qed.

Lemma denotes_star_class p B w rest :
  denotes (Star (Chr p)) B w rest <-> Forall (holds p) w.
Proof.
  split.
  - intros H. remember (Star (Chr p)) as r eqn:Er.
    induction H; try discriminate; [constructor|].
    injection Er as ->. apply Forall_app. split; [|auto].
    apply denotes_chr in H0. destruct H0 as (c & -> & Hc). now repeat constructor.
  - revert B. induction w as [|c w IH]; intros B Hw; [constructor|].
    inversion Hw; subst. apply (d_star_cons (Chr p) B [c] w rest);
      [discriminate|now constructor|auto].
Qed.

Lemma denotes_plus_class p B w rest :
  denotes (Plus (Chr p)) B w rest <-> w <> [] /\ Forall (holds p) w.
Proof.
  unfold Plus. rewrite denotes_seq. split.
  - intros (w1 & w2 & -> & H1 & H2). apply denotes_chr in H1.
    destruct H1 as (c & -> & Hc). apply denotes_star_class in H2.
    split; [discriminate|now constructor].
  - intros [Hne Hw]. destruct w as [|c w]; [congruence|]. inversion Hw; subst.
    exists [c], w. repeat split; [now constructor|now apply denotes_star_class].
Qed.

Lemma denotes_lit s : forall B w rest, denotes (Lit s) B w rest <-> w = s.
Proof.
  induction s as [|c s IH]; intros B w rest; cbn [Lit].
  - apply denotes_eps.
  - rewrite denotes_seq. split.
    + intros (w1 & w2 & -> & H1 & H2). apply denotes_chr in H1.
      destruct H1 as (x & -> & Hx). apply chr_eq in Hx. apply IH in H2. now subst.
    + intros ->. exists [c], s. repeat split; [|now apply IH].
      constructor. apply Ascii.eqb_refl.
Qed.

Lemma class_repeat a w : Forall (holds (chr a)) w -> w = repeat a (length w).
Proof.
  induction 1 as [|c w Hc _ IH]; [reflexivity|].
  apply chr_eq in Hc. simpl. now rewrite <- IH, Hc.
Qed.

Lemma repeat_class a n : Forall (holds (chr a)) (repeat a n).
Proof. apply List.Forall_forall. intros c Hc. apply repeat_spec in Hc. subst. apply Ascii.eqb_refl. Qed.

(** A literal anchored at the start of the line is tried at column 0 only. *)
Lemma test_anchored r s :
  test (Seq Bol r) s = true <-> exists w b, s = w ++ b /\ denotes r [] w b.
Proof.
  rewrite test_denotes. split.
  - intros (a & w & b & -> & D). apply denotes_seq in D.
    destruct D as (w1 & w2 & -> & D1 & D2). apply denotes_bol in D1.
    destruct D1 as [-> Ha]. simpl in *.
    assert (a = []) by (destruct a; [reflexivity|]; simpl in Ha;
                        now apply app_eq_nil in Ha).
    subst. simpl in *. eauto.
  - intros (w & b & -> & D). exists [], w, b. split; [reflexivity|].
    apply (d_seq Bol r [] [] w b); [constructor|exact D].
Qed.

Lemma tabsThenSpace_shape line :
  test tabsThenSpace line = true <->
  exists n rest, line = repeat "009"%char (S n) ++ " "%char :: rest.
Proof.
  unfold tabsThenSpace. cbn [Cat fold_right]. rewrite test_anchored. split.
  - intros (w & b & -> & D). apply denotes_seq in D.
    destruct D as (w1 & w2 & -> & D1 & D2). apply denotes_plus_class in D1.
    apply denotes_seq in D2. destruct D2 as (w3 & w4 & -> & D2 & D3).
    apply denotes_plus_class in D2. apply denotes_eps in D3. subst w4.
    destruct D1 as [Hne1 H1], D2 as [Hne2 H2].
    apply class_repeat in H1. destruct w1 as [|t w1]; [congruence|].
    destruct w3 as [|x w3]; [congruence|]. inversion H2; subst.
    match goal with H : holds _ x |- _ => apply chr_eq in H; subst x end.
    exists (length w1), (w3 ++ b). rewrite H1 at 1.
    rewrite app_nil_r, <- !app_assoc. reflexivity.
  - intros (n & rest & ->). exists (repeat "009"%char (S n) ++ [" "%char]), rest.
    split; [now rewrite <- app_assoc|].
    apply denotes_seq. exists (repeat "009"%char (S n)), [" "%char].
    repeat split.
    + apply denotes_plus_class. split; [discriminate|apply repeat_class].
    + apply denotes_seq. exists [" "%char], []. repeat split.
      * apply denotes_plus_class. split; [discriminate|now repeat constructor].
      * constructor.
Qed.

Lemma spacesThenTab_shape line :
  test spacesThenTab line = true <->
  exists n rest, line = repeat " "%char (S n) ++ "009"%char :: rest.
Proof.
  unfold spacesThenTab. cbn [Cat fold_right]. rewrite test_anchored. split.
  - intros (w & b & -> & D). apply denotes_seq in D.
    destruct D as (w1 & w2 & -> & D1 & D2). apply denotes_plus_class in D1.
    apply denotes_seq in D2. destruct D2 as (w3 & w4 & -> & D2 & D3).
    apply denotes_chr in D2. apply denotes_eps in D3. subst w4.
    destruct D1 as [Hne1 H1], D2 as (x & -> & Hx). apply chr_eq in Hx. subst x.
    apply class_repeat in H1. destruct w1 as [|t w1]; [congruence|].
    exists (length w1), b. rewrite H1 at 1. rewrite <- !app_assoc. reflexivity.
  - intros (n & rest & ->). exists (repeat " "%char (S n) ++ ["009"%char]), rest.
    split; [now rewrite <- app_assoc|].
    apply denotes_seq. exists (repeat " "%char (S n)), ["009"%char].
    repeat split.
    + apply denotes_plus_class. split; [discriminate|apply repeat_class].
    + apply denotes_seq. exists ["009"%char], []. repeat split; [|constructor].
      now constructor.
Qed.

Lemma nonSpace_index : forall ws bef c rest,
  Forall (holds isSpace) ws -> isSpace c = false ->
  exists m, search nonSpace bef (ws ++ c :: rest) = Some m
            /\ index m = length bef + length ws.
Proof.
  induction ws as [|x ws IH]; intros bef c rest Hws Hc.
  - cbn. rewrite Hc. cbn. eexists. split; [reflexivity|].
    unfold result, pos. cbn [index before length]. lia.
  - inversion Hws; subst. cbn. rewrite H1. cbn.
    destruct (IH (x :: bef) c rest H2 Hc) as (m & Hm & Hi).
    exists m. split; [exact Hm|]. cbn [length] in *. lia.
Qed.

End Shapes.

Section Indentation.

Lemma mixedStart_test line :
  test tabsThenSpace line || test spacesThenTab line = true <-> mixedStart line.
Proof.
  rewrite orb_true_iff, tabsThenSpace_shape, spacesThenTab_shape. split.
  - intros [(n & rest & H)|(n & rest & H)]; exists n, rest; auto.
  - intros (n & rest & [H|H]); [left|right]; eauto.
Qed.

Lemma newRange_line lineNumber column :
  newRange (Z.of_nat lineNumber) 0 (Z.of_nat lineNumber) column
  = if (0 <=? column)%Z
    then Some (lineRange lineNumber 0 column)
    else None.
Proof.
  unfold newRange, lineRange.
  destruct (Z.leb_spec 0 (Z.of_nat lineNumber)); [|lia].
  now destruct (0 <=? column)%Z.
Qed.

(** The constructor throws in [checkBracesAndIndentation] exactly on a
    line of blanks with mixed indentation. *)
Lemma indentation_none line lineNumber lines :
  checkBracesAndIndentation line lineNumber lines = None <-> blankMixed line.
Proof.
  unfold checkBracesAndIndentation, blankMixed. rewrite newRange_line.
  destruct (test tabsThenSpace line || test spacesThenTab line) eqn:E.
  - apply mixedStart_test in E.
    destruct (nonSpace_search line) as [[Hs Hb]|[Hs Hb]].
    + rewrite Hs. cbn. tauto.
    + destruct (Z.leb_spec 0 (search_index nonSpace line)); [|lia].
      split; [discriminate|tauto].
  - split; [discriminate|]. intros [H _]. apply mixedStart_test in H. congruence.
Qed.

Lemma lineLoop_none lines : forall rest lineIndex,
  lineLoop rest lineIndex lines = None <-> Exists blankMixed rest.
Proof.
  induction rest as [|line rest IH]; intros lineIndex; cbn [lineLoop].
  - split; [discriminate|]. intros H. inversion H.
  - rewrite Exists_cons, <- (indentation_none line lineIndex lines),
      <- (IH (S lineIndex)).
    destruct (checkBracesAndIndentation line lineIndex lines); [|tauto].
    destruct (lineLoop rest (S lineIndex) lines).
    + split; [discriminate|]. intros [H|H]; discriminate.
    + tauto.
Qed.

Lemma lineText_length piece :
  len piece = (len (lineText piece) + carriageReturn piece)%Z.
Proof.
  unfold lineText, carriageReturn, len.
  destruct (lastIs (chr "013") piece) eqn:E; [|lia].
  destruct piece as [|c piece] using rev_ind; [discriminate|].
  rewrite removelast_last, length_app. simpl. lia.
Qed.

End Indentation.

(** X9. What [checkBracesAndIndentation] does with a line is settled by how
    the line starts and by whether it holds anything but blanks.  A line
    that starts with one or more tabs followed by a space, or with one or
    more spaces followed by a tab, gets the mixed-indentation Warning, and
    only it, when it holds a character that is not a blank; when it holds
    blanks only, the range constructor throws and nothing is pushed.  Any
    other line gets nothing.  The braces counted by the same method have no
    effect. *)
Theorem mixed_indentation_rule line lineNumber lines :
  (mixedStart line /\ ~ Forall (holds isSpace) line
   /\ checkBracesAndIndentation line lineNumber lines
      = Some [mixedIndentation line lineNumber])
  \/ (mixedStart line /\ Forall (holds isSpace) line
      /\ checkBracesAndIndentation line lineNumber lines = None)
  \/ (~ mixedStart line
      /\ checkBracesAndIndentation line lineNumber lines = Some []).
Proof.
  unfold checkBracesAndIndentation. rewrite newRange_line.
  destruct (test tabsThenSpace line || test spacesThenTab line) eqn:E.
  - apply mixedStart_test in E.
    destruct (nonSpace_search line) as [[Hs Hb]|[Hs Hb]].
    + right. left. rewrite Hs. cbn. auto.
    + left. destruct (Z.leb_spec 0 (search_index nonSpace line)); [|lia]. auto.
  - right. right. split; [|reflexivity]. intros H. apply mixedStart_test in H.
    congruence.
Qed.

(** X10. On a line that has a character other than a blank, the
    mixed-indentation Warning spans the leading blanks: from column 0 to the
    column of the first such character. *)
Theorem mixed_indentation_span ws c rest lineNumber :
  Forall (holds isSpace) ws -> isSpace c = false ->
  range (mixedIndentation (ws ++ c :: rest) lineNumber)
  = lineRange lineNumber 0 (len ws).
Proof.
  intros Hws Hc. unfold mixedIndentation, search_index, exec.
  destruct (nonSpace_index ws [] c rest Hws Hc) as (m & -> & Hi).
  cbn [range diag]. now rewrite Hi.
Qed.

Lemma mixed_indentation_span_witness :
  range (mixedIndentation (str (String "009" "  x")) 4) = lineRange 4 0 3.
Proof.
  apply (mixed_indentation_span (str (String "009" "  ")) "x" [] 4).
  - repeat constructor.
  - reflexivity.
Defined.

(** X7. The scan of a document ends in an exception exactly when one of
    the pieces of [text.split('\n')] starts with mixed indentation and
    holds blanks only.  Otherwise every diagnostic it produces carries the
    source "cscript", starts and ends on one line, is built from arguments
    the range constructor accepts, and lies within the pieces: an existing
    piece, both columns between 0 and the length of that piece.  The length
    of a piece is that of the editor's line, plus one when the piece ends
    with a carriage return: in a document with CRLF line ends a column can
    thus be one past the end of the editor's line, and not more. *)
Theorem ranges_within_document text :
  (collect text = None <-> Exists blankMixed (split_lines text))
  /\ forall ds d,
       collect text = Some ds -> In d ds ->
       source d = "cscript"
       /\ startLine (range d) = endLine (range d)
       /\ constructible d
       /\ inBounds (split_lines text) (range d)
       /\ exists lineNumber piece,
            nth_error (split_lines text) lineNumber = Some piece
            /\ startLine (range d) = Z.of_nat lineNumber
            /\ (0 <= startCharacter (range d)
                   <= len (lineText piece) + carriageReturn piece)%Z
            /\ (0 <= endCharacter (range d)
                   <= len (lineText piece) + carriageReturn piece)%Z.
Proof.
  split.
  - unfold collect. rewrite <- (lineLoop_none (split_lines text) _ 0).
    destruct (lineLoop _ _ _); [|tauto]. split; discriminate.
  - intros ds d Hds Hin.
    destruct (collect_spot text ds d Hds Hin) as (ln & line & Hnth & Hspot).
    pose proof (spot_constructible _ _ _ Hspot) as Hnew.
    destruct Hspot as ((Hsrc & Hs & He) & Hd).
    assert (Hcols : colsWithin line d).
    { destruct Hd as [Hd|[_ Hd]]; [unfold colsWithin; lia|exact Hd]. }
    destruct Hcols as [H1 H2].
    assert (Hlt : ln < length (split_lines text))
      by (apply nth_error_Some; congruence).
    assert (Hline : nth ln (split_lines text) [] = line) by now apply nth_error_nth.
    split; [exact Hsrc|]. split; [congruence|]. split; [exact Hnew|]. split.
    + unfold inBounds. rewrite Hs, He, Nat2Z.id, Hline. lia.
    + exists ln, line. rewrite <- lineText_length. auto.
Qed.

Lemma ranges_within_document_witness :
  let text := str "x |>" ++ ["013"; "010"; "y"]%char in
  let d := diag (lineRange 0 2 5)
                "Pipeline operator at end of line requires a continuation on the next line."
                Warning in
  collect text = Some [d]
  /\ nth_error (split_lines text) 0 = Some (str "x |>" ++ ["013"]%char)
  /\ lineText (str "x |>" ++ ["013"]%char) = str "x |>"
  /\ endCharacter (range d) = (len (str "x |>") + 1)%Z
  /\ exists lineNumber piece,
       nth_error (split_lines text) lineNumber = Some piece
       /\ startLine (range d) = Z.of_nat lineNumber
       /\ (0 <= startCharacter (range d)
              <= len (lineText piece) + carriageReturn piece)%Z
       /\ (0 <= endCharacter (range d)
              <= len (lineText piece) + carriageReturn piece)%Z.
Proof.
  intros text d.
  assert (Hds : collect text = Some [d]) by (vm_compute; reflexivity).
  split; [exact Hds|]. do 3 (split; [vm_compute; reflexivity|]).
  exact (proj2 (proj2 (proj2 (proj2
           (proj2 (ranges_within_document text) [d] d Hds (or_introl eq_refl)))))).
Defined.

Section Names.

(** A group around a class repetition, followed by pieces without groups:
    the group takes part in every match, and what it captures is a
    non-empty run of the class. *)
Lemma cat_group P n inner post :
  charsIn P inner -> capless inner = true -> consuming inner = true ->
  capless (Cat post) = true ->
  forall pre st st',
    In st' (run (Cat (pre ++ Grp n inner :: post)) st) ->
    exists w, group n (caps st') = Some w /\ w <> [] /\ Forall P w.
Proof.
  intros HP Hc Hcons Hpost. induction pre as [|a pre IH]; intros st st' Hin.
  - apply in_run_seq in Hin. destruct Hin as (mid & Hmid & Hin).
    pose proof (consuming_shortens (Grp n inner) Hcons _ _ Hmid) as Hlt.
    destruct (in_run_grp P n inner _ _ HP Hc Hmid) as (w & (Ha & _ & Hw) & Hcaps).
    exists w. rewrite (run_caps _ Hpost _ _ Hin), Hcaps. cbn [group].
    rewrite Nat.eqb_refl. repeat split; [|exact Hw].
    intros ->. rewrite Ha in Hlt. simpl in Hlt. lia.
  - apply in_run_seq in Hin. destruct Hin as (mid & _ & Hin). eauto.
Qed.

Lemma exec_group P n inner pre post line m :
  charsIn P inner -> capless inner = true -> consuming inner = true ->
  capless (Cat post) = true ->
  exec (Cat (pre ++ Grp n inner :: post)) line = Some m ->
  grp n m <> [] /\ Forall P (grp n m).
Proof.
  intros HP Hc Hcons Hpost H.
  destruct (search_found _ _ _ _ H) as (st0 & st' & _ & _ & Hin & ->).
  destruct (cat_group P n inner post HP Hc Hcons Hpost pre _ _ Hin) as (w & Hg & Hw).
  unfold grp. cbn [groups result]. now rewrite Hg.
Qed.

Lemma word_identStart c :
  isWord c = true -> isIdentStart c = negb (isDigit c).
Proof.
  destruct c as [[] [] [] [] [] [] [] []]; vm_compute; congruence.
Qed.

Lemma word_identPart c : isWord c = true -> isIdentPart c = true.
Proof.
  destruct c as [[] [] [] [] [] [] [] []]; vm_compute; congruence.
Qed.

Lemma word_upper c : isUpper c = true -> isWord c = true.
Proof.
  destruct c as [[] [] [] [] [] [] [] []]; vm_compute; congruence.
Qed.

Lemma anchored_class_shape first part w :
  test (Cat [Bol; Chr first; Star (Chr part); Eol]) w = true <->
  exists c tl, w = c :: tl /\ first c = true /\ Forall (holds part) tl.
Proof.
  cbn [Cat fold_right]. rewrite test_anchored. split.
  - intros (u & b & -> & D). apply denotes_seq in D.
    destruct D as (w1 & w2 & -> & D1 & D2). apply denotes_chr in D1.
    destruct D1 as (c & -> & Hc).
    apply denotes_seq in D2. destruct D2 as (w3 & w4 & -> & D2 & D3).
    apply denotes_star_class in D2.
    apply denotes_seq in D3. destruct D3 as (w5 & w6 & -> & D3 & D4).
    apply denotes_eol in D3. destruct D3 as [-> Hb]. apply denotes_eps in D4.
    subst. simpl in Hb. subst. exists c, w3. rewrite !app_nil_r. auto.
  - intros (c & tl & -> & Hc & Htl). exists (c :: tl), []. split; [now rewrite app_nil_r|].
    apply denotes_seq. exists [c], tl. repeat split; [now constructor|].
    apply denotes_seq. exists tl, []. repeat split;
      [now rewrite app_nil_r|now apply denotes_star_class|].
    apply denotes_seq. exists [], []. repeat split; constructor.
Qed.

(** A captured [\w+] is a valid identifier unless it starts with a digit:
    the [$] the identifier literal allows is not a [\w] character. *)
Lemma word_identifier w :
  w <> [] -> Forall (holds isWord) w ->
  test identifierRegex w = negb (firstIs isDigit w).
Proof.
  intros Hne Hw. destruct w as [|c tl]; [congruence|]. inversion Hw; subst.
  cbn [firstIs]. rewrite <- (word_identStart c) by assumption.
  destruct (isIdentStart c) eqn:E.
  - apply (proj2 (anchored_class_shape isIdentStart isIdentPart (c :: tl))).
    exists c, tl. repeat split; [exact E|].
    eapply List.Forall_impl; [|eassumption]. intros a Ha. now apply word_identPart.
  - destruct (test identifierRegex (c :: tl)) eqn:T; [|reflexivity].
    apply anchored_class_shape in T. destruct T as (c' & tl' & Heq & Hc & _).
    injection Heq as <- _. congruence.
Qed.

Lemma word_pascal w :
  Forall (holds isWord) w -> test pascalRegex w = firstIs isUpper w.
Proof.
  intros Hw. destruct (test pascalRegex w) eqn:T.
  - apply anchored_class_shape in T. destruct T as (c & tl & -> & Hc & _).
    now rewrite <- Hc.
  - destruct w as [|c tl]; [reflexivity|]. cbn [firstIs].
    destruct (isUpper c) eqn:E; [|reflexivity]. rewrite <- T.
    apply (proj2 (anchored_class_shape isUpper isWord (c :: tl))).
    exists c, tl. inversion Hw; subst. auto.
Qed.

Lemma sp_class : charsIn (fun _ => True) sp.
Proof. now intros c _. Qed.

End Names.

(** X11. When the function literal matches on a line, the name it captures
    is a non-empty run of word characters of the line, and the function-name
    rule reports it, with one Error over the first occurrence of that name
    in the line, exactly when the name starts with a digit.  No other name
    is reported: the dollar sign the identifier check would accept cannot be
    part of a captured name, and every other word is a valid identifier. *)
Theorem function_name_rule line lineNumber m :
  exec functionRegex line = Some m ->
  grp 1 m <> [] /\ Forall (holds isWord) (grp 1 m) /\ factor (grp 1 m) line
  /\ errorsOf (checkFunctionSyntax line lineNumber)
     = if firstIs isDigit (grp 1 m)
       then [diag (lineRange lineNumber (indexOf (grp 1 m) line)
                             (indexOf (grp 1 m) line + len (grp 1 m)))
                  "Invalid function name. Must be a valid identifier."
                  Error]
       else [].
Proof.
  intros H.
  destruct (exec_group (holds isWord) 1 (Plus (Chr isWord))
              [WordB; lit "function"; Plus sp] [Star sp; Chr (chr "(")] line m)
    as [Hne Hw]; try reflexivity; try exact H.
  { simpl. auto. }
  repeat split; [exact Hne|exact Hw|exact (search_group _ _ _ 1 H)|].
  unfold checkFunctionSyntax, errorsOf. rewrite H, List.filter_app.
  rewrite (word_identifier _ Hne Hw), negb_involutive.
  replace (List.filter isError (if test arrowRegex line then _ else []))
    with (@nil Diagnostic) by now destruct (test arrowRegex line).
  rewrite app_nil_r. now destruct (firstIs isDigit (grp 1 m)).
Qed.

Lemma function_name_rule_witness :
  exists m,
    exec functionRegex (str "function 2x(a)") = Some m
    /\ errorsOf (checkFunctionSyntax (str "function 2x(a)") 3)
       = [diag (lineRange 3 9 11)
               "Invalid function name. Must be a valid identifier." Error].
Proof.
  eexists. split.
  - vm_compute. reflexivity.
  - refine (eq_trans
              (proj2 (proj2 (proj2 (function_name_rule (str "function 2x(a)") 3 _ _))))
              _); [vm_compute; reflexivity|reflexivity].
Defined.

(** X12. When the [from ... in] literal matches on a line, the variable it
    captures is a non-empty run of word characters of the line, and the
    LINQ rule reports it with one Error, over the first occurrence of that
    text in the line, exactly when it starts with a digit. *)
Theorem linq_variable_rule line lineNumber m :
  exec fromRegex line = Some m ->
  grp 1 m <> [] /\ Forall (holds isWord) (grp 1 m) /\ factor (grp 1 m) line
  /\ errorsOf (checkLinqQueries line lineNumber)
     = if firstIs isDigit (grp 1 m)
       then [diag (lineRange lineNumber (indexOf (grp 1 m) line)
                             (indexOf (grp 1 m) line + len (grp 1 m)))
                  "Invalid variable name in LINQ query. Must be a valid identifier."
                  Error]
       else [].
Proof.
  intros H.
  destruct (exec_group (holds isWord) 1 (Plus (Chr isWord))
              [WordB; lit "from"; Plus sp] [Plus sp; lit "in"; Plus sp] line m)
    as [Hne Hw]; try reflexivity; try exact H.
  { simpl. auto. }
  repeat split; [exact Hne|exact Hw|exact (search_group _ _ _ 1 H)|].
  unfold checkLinqQueries, errorsOf, test. rewrite H, List.filter_app.
  fold (test identifierRegex (grp 1 m)).
  rewrite (word_identifier _ Hne Hw), negb_involutive.
  match goal with
  | |- _ ++ List.filter isError (if ?b then _ else []) = _ =>
      replace (List.filter isError (if b then _ else [])) with (@nil Diagnostic)
        by now destruct b
  end.
  rewrite app_nil_r. now destruct (firstIs isDigit (grp 1 m)).
Qed.

Lemma linq_variable_rule_witness :
  exists m,
    exec fromRegex (str "var q = from 1x in xs select 1x") = Some m
    /\ errorsOf (checkLinqQueries (str "var q = from 1x in xs select 1x") 0)
       = [diag (lineRange 0 13 15)
               "Invalid variable name in LINQ query. Must be a valid identifier."
               Error].
Proof.
  eexists. split.
  - vm_compute. reflexivity.
  - refine (eq_trans
              (proj2 (proj2 (proj2 (linq_variable_rule
                                      (str "var q = from 1x in xs select 1x") 0 _ _))))
              _); [vm_compute; reflexivity|reflexivity].
Defined.

(** X13. When the struct literal matches on a line, the name it captures is
    a non-empty run of word characters of the line, and the struct rule
    emits its naming Warning, over the first occurrence of that name in the
    line, exactly when the name does not start with an uppercase letter
    A to Z; it emits nothing else. *)
Theorem struct_name_rule line lineNumber m :
  exec structRegex line = Some m ->
  grp 1 m <> [] /\ Forall (holds isWord) (grp 1 m) /\ factor (grp 1 m) line
  /\ checkStructSyntax line lineNumber
     = if firstIs isUpper (grp 1 m)
       then []
       else [diag (lineRange lineNumber (indexOf (grp 1 m) line)
                             (indexOf (grp 1 m) line + len (grp 1 m)))
                  "Struct names should start with an uppercase letter and follow PascalCase convention."
                  Warning].
Proof.
  intros H.
  destruct (exec_group (holds isWord) 1 (Plus (Chr isWord))
              [WordB; lit "struct"; Plus sp] [] line m)
    as [Hne Hw]; try reflexivity; try exact H.
  { simpl. auto. }
  repeat split; [exact Hne|exact Hw|exact (search_group _ _ _ 1 H)|].
  unfold checkStructSyntax. rewrite H, (word_pascal _ Hw).
  now destruct (firstIs isUpper (grp 1 m)).
Qed.

Lemma struct_name_rule_witness :
  exists m,
    exec structRegex (str "struct point {") = Some m
    /\ checkStructSyntax (str "struct point {") 7
       = [diag (lineRange 7 7 12)
               "Struct names should start with an uppercase letter and follow PascalCase convention."
               Warning].
Proof.
  eexists. split.
  - vm_compute. reflexivity.
  - refine (eq_trans
              (proj2 (proj2 (proj2 (struct_name_rule (str "struct point {") 7 _ _))))
              _); [vm_compute; reflexivity|reflexivity].
Defined.

Section TrailingTokens.

Lemma lastIndexOfFrom_none p : forall s i,
  (forall a b, s = a ++ b -> startsWith p b = false) ->
  lastIndexOfFrom i p s = (-1)%Z.
Proof.
  induction s as [|x s IH]; intros i H; cbn [lastIndexOfFrom].
  - cbn. now rewrite (H [] [] eq_refl).
  - rewrite IH by (intros a b ->; exact (H (x :: a) b eq_refl)).
    cbn. now rewrite (H [] (x :: s) eq_refl).
Qed.

Lemma lastIndexOfFrom_skip p : forall x s i,
  (0 <= lastIndexOfFrom (i + length x) p s)%Z ->
  lastIndexOfFrom i p (x ++ s) = lastIndexOfFrom (i + length x) p s.
Proof.
  induction x as [|c x IH]; intros s i H.
  - simpl in *. now rewrite Nat.add_0_r in *.
  - cbn [app lastIndexOfFrom length] in *.
    replace (i + S (length x)) with (S i + length x) in * by lia.
    rewrite (IH s (S i) H).
    destruct (0 <=? lastIndexOfFrom (S i + length x) p s)%Z eqn:E; [reflexivity|].
    apply Z.leb_gt in E. lia.
Qed.

(** The last occurrence of a token without blanks that ends the line,
    blanks apart, is that final one. *)
Lemma lastIndexOf_trailing p x ws :
  p <> [] -> Forall solid p -> Forall (holds isSpace) ws ->
  lastIndexOf p (x ++ p ++ ws) = len x.
Proof.
  intros Hne Hp Hws. unfold lastIndexOf.
  assert (Hhere : lastIndexOfFrom (length x) p (p ++ ws) = len x).
  { destruct p as [|c p']; [congruence|].
    assert (Hst : startsWith (c :: p') (c :: p' ++ ws) = true)
      by (apply startsWith_iff; now exists ws).
    cbn [app lastIndexOfFrom].
    rewrite lastIndexOfFrom_none.
    - rewrite Hst. reflexivity.
    - intros a b Hs. apply not_true_iff_false. intros Hocc.
      apply startsWith_iff in Hocc. destruct Hocc as (b' & ->).
      destruct (exists_last Hne) as (q & l & Hq).
      assert (Hlen : length q = length p').
      { apply (f_equal (@length ascii)) in Hq. rewrite length_app in Hq.
        simpl in Hq. lia. }
      rewrite Hq in Hs, Hp.
      assert (Hl : nth_error (p' ++ ws) (length a + length q) = Some l).
      { rewrite Hs, nth_error_app2 by lia.
        replace (length a + length q - length a) with (length q) by lia.
        rewrite <- app_assoc, nth_error_app2, Nat.sub_diag by lia. reflexivity. }
      rewrite nth_error_app2 in Hl by lia. apply nth_error_In in Hl.
      apply List.Forall_forall with (x := l) in Hws; [|exact Hl].
      apply Forall_app in Hp. destruct Hp as [_ Hp]. inversion Hp; subst.
      unfold solid, holds in *. congruence. }
  rewrite lastIndexOfFrom_skip; simpl; rewrite Hhere; unfold len; lia.
Qed.

Lemma trimStart_solid c : forall x r,
  isSpace c = false -> trimStart (x ++ c :: r) = trimStart x ++ c :: r.
Proof.
  intros x r Hc. induction x as [|a x IH]; simpl; [now rewrite Hc|].
  now destruct (isSpace a).
Qed.

Lemma trimStart_blank ws : Forall (holds isSpace) ws -> trimStart ws = [].
Proof. induction 1 as [|c ws Hc _ IH]; [reflexivity|]. simpl. now rewrite Hc. Qed.

Lemma trim_trailing p x ws :
  p <> [] -> Forall solid p -> Forall (holds isSpace) ws ->
  trim (x ++ p ++ ws) = trimStart x ++ p.
Proof.
  intros Hne Hp Hws. unfold trim.
  destruct p as [|c p']; [congruence|]. inversion Hp as [|? ? Hc Hp']; subst.
  change ((c :: p') ++ ws) with (c :: p' ++ ws). rewrite (trimStart_solid c) by exact Hc.
  destruct (exists_last Hne) as (q & l & Hq).
  change (c :: p' ++ ws) with ((c :: p') ++ ws). rewrite Hq in *.
  apply Forall_app in Hp. destruct Hp as [_ Hl]. inversion Hl; subst.
  rewrite !rev_app_distr. cbn [rev app]. rewrite <- !app_assoc. cbn [app].
  rewrite (trimStart_solid l) by assumption.
  rewrite (trimStart_blank (rev ws)) by now apply Forall_rev.
  cbn [app rev]. rewrite !rev_app_distr, !rev_involutive. cbn [rev app].
  now rewrite <- app_assoc.
Qed.

(** [line.trim().endsWith(p)] for a token without blanks. *)
Lemma endsWith_trim p line :
  p <> [] -> Forall solid p ->
  endsWith p (trim line) = true <-> endsWithToken p line.
Proof.
  intros Hne Hp. split.
  - intros H. unfold endsWith in H. apply startsWith_iff in H.
    destruct H as (b & H).
    assert (Ht : trim line = rev b ++ p).
    { rewrite <- (rev_involutive (trim line)), H, rev_app_distr.
      now rewrite rev_involutive. }
    destruct (trimStart_split line) as (ws1 & Hs & _).
    destruct (trimEnd_split (trimStart line)) as (ws2 & He & Hws2).
    exists (ws1 ++ rev b), ws2. split; [|exact Hws2].
    rewrite Hs at 1. rewrite He at 1. fold (trim line). rewrite Ht.
    now rewrite <- !app_assoc.
  - intros (x & ws & -> & Hws). rewrite (trim_trailing p x ws Hne Hp Hws).
    unfold endsWith. apply startsWith_iff. exists (rev (trimStart x)).
    apply rev_app_distr.
Qed.

Lemma arrow_shape line :
  test arrowRegex line = true <-> endsWithToken (str "=>") line.
Proof.
  rewrite test_denotes. split.
  - intros (a & w & b & -> & D). unfold arrowRegex in D. cbn [Cat fold_right] in D.
    apply denotes_seq in D. destruct D as (w1 & w2 & -> & D1 & D2).
    apply denotes_lit in D1. subst w1.
    apply denotes_seq in D2. destruct D2 as (w3 & w4 & -> & D2 & D3).
    apply denotes_star_class in D2.
    apply denotes_seq in D3. destruct D3 as (w5 & w6 & -> & D3 & D4).
    apply denotes_eol in D3. destruct D3 as [-> Hb]. apply denotes_eps in D4.
    subst. simpl in Hb. subst. exists a, w3. split; [|exact D2].
    now rewrite !app_nil_r.
  - intros (x & ws & -> & Hws). exists x, (str "=>" ++ ws), [].
    split; [now rewrite app_nil_r|].
    unfold arrowRegex. cbn [Cat fold_right].
    apply denotes_seq. exists (str "=>"), ws. repeat split; [now apply denotes_lit|].
    apply denotes_seq. exists ws, []. repeat split;
      [now rewrite app_nil_r|now apply denotes_star_class|].
    apply denotes_seq. exists [], []. repeat split; constructor.
Qed.

Lemma includes_char c s : includes [c] s = true <-> In c s.
Proof.
  unfold includes, indexOf. generalize 0 as i.
  induction s as [|x s IH]; intros i.
  - cbn. split; [discriminate|intros []].
  - cbn [indexOfFrom startsWith]. destruct (Ascii.eqb_spec c x) as [->|Hne].
    + cbn. split; [now left|intros _; apply Z.leb_le; lia].
    + cbn [andb]. rewrite IH. split; [now right|]. now intros [Heq|H]; [congruence|].
Qed.

Lemma token_length x p ws : len (x ++ p ++ ws) = (len x + len p + len ws)%Z.
Proof. unfold len. rewrite !length_app. lia. Qed.

End TrailingTokens.

(** X14. The missing-body Warning of the function rule is emitted exactly
    when the line ends with the arrow, blanks apart; its range then runs
    from that final arrow to the end of the line. *)
Theorem arrow_rule line lineNumber :
  (exists x ws,
      line = x ++ str "=>" ++ ws /\ Forall (holds isSpace) ws
      /\ warningsOf (checkFunctionSyntax line lineNumber)
         = [diag (lineRange lineNumber (len x) (len line))
                 "Arrow function body is missing." Warning])
  \/ (~ endsWithToken (str "=>") line
      /\ warningsOf (checkFunctionSyntax line lineNumber) = []).
Proof.
  assert (Hname : warningsOf
                    (match exec functionRegex line with
                     | Some m =>
                         if negb (test identifierRegex (grp 1 m))
                         then [diag (lineRange lineNumber (indexOf (grp 1 m) line)
                                       (indexOf (grp 1 m) line + len (grp 1 m)))
                                 "Invalid function name. Must be a valid identifier."
                                 Error]
                         else []
                     | None => []
                     end) = []).
  { destruct (exec functionRegex line) as [m|]; [|reflexivity].
    now destruct (negb _). }
  unfold checkFunctionSyntax, warningsOf in *. rewrite List.filter_app, Hname.
  destruct (test arrowRegex line) eqn:E.
  - left. apply arrow_shape in E. destruct E as (x & ws & -> & Hws).
    exists x, ws. repeat split; [exact Hws|]. unfold arrowWarning.
    rewrite lastIndexOf_trailing; [reflexivity|discriminate| |exact Hws].
    repeat constructor.
  - right. split; [|reflexivity]. intros H. apply arrow_shape in H. congruence.
Qed.

(** X15. The continuation Warning of the pipeline rule is emitted exactly
    when the line ends with the pipeline operator, blanks apart; its range
    then runs from that final operator to the end of the line. *)
Theorem pipeline_continuation_rule line lineNumber :
  (exists x ws,
      line = x ++ str "|>" ++ ws /\ Forall (holds isSpace) ws
      /\ warningsOf (checkPipelineOperators line lineNumber)
         = [diag (lineRange lineNumber (len x) (len line))
                 "Pipeline operator at end of line requires a continuation on the next line."
                 Warning])
  \/ (~ endsWithToken (str "|>") line
      /\ warningsOf (checkPipelineOperators line lineNumber) = []).
Proof.
  assert (Hsolid : Forall solid (str "|>")) by (repeat constructor).
  assert (Herr : forall ms,
            warningsOf (map (fun m => pipelineError lineNumber (index m)) ms) = []).
  { induction ms as [|m ms IH]; [reflexivity|exact IH]. }
  unfold checkPipelineOperators, warningsOf in *. rewrite List.filter_app, Herr.
  destruct (endsWith (str "|>") (trim line)) eqn:E.
  - left. apply endsWith_trim in E; [|discriminate|exact Hsolid].
    destruct E as (x & ws & -> & Hws).
    exists x, ws. repeat split; [exact Hws|].
    rewrite lastIndexOf_trailing; [reflexivity|discriminate|exact Hsolid|exact Hws].
  - right. split; [|reflexivity]. intros H.
    apply endsWith_trim in H; [congruence|discriminate|exact Hsolid].
Qed.

(** X16. The semicolon rule emits its Information exactly when the line
    contains a colon and ends with a semicolon, blanks apart; its range
    then runs from that final semicolon to the end of the line. *)
Theorem semicolon_rule line lineNumber :
  (In ":"%char line
   /\ exists x ws,
        line = x ++ str ";" ++ ws /\ Forall (holds isSpace) ws
        /\ checkSemicolonUsage line lineNumber
           = [diag (lineRange lineNumber (len x) (len line))
                   "Semicolon not needed when using Python-style syntax with colons."
                   Information])
  \/ (~ (In ":"%char line /\ endsWithToken (str ";") line)
      /\ checkSemicolonUsage line lineNumber = []).
Proof.
  assert (Hsolid : Forall solid (str ";")) by (repeat constructor).
  unfold checkSemicolonUsage.
  destruct (includes (str ":") line) eqn:E1.
  - destruct (endsWith (str ";") (trim line)) eqn:E2.
    + left. apply includes_char in E1. split; [exact E1|].
      apply endsWith_trim in E2; [|discriminate|exact Hsolid].
      destruct E2 as (x & ws & -> & Hws). exists x, ws. repeat split; [exact Hws|].
      rewrite lastIndexOf_trailing; [reflexivity|discriminate|exact Hsolid|exact Hws].
    + right. split; [|reflexivity]. intros [_ H].
      apply endsWith_trim in H; [congruence|discriminate|exact Hsolid].
  - right. split; [|reflexivity]. intros [H _].
    apply (includes_char ":" line) in H. change [":"%char] with (str ":") in H.
    congruence.
Qed.

Section Strings.

Lemma stringScan_no_quote : forall chars escaped,
  Forall (fun c => isQuote c = false) chars ->
  stringScan chars false None escaped = (false, None).
Proof.
  induction chars as [|c chars IH]; intros escaped H; [reflexivity|].
  inversion H as [|? ? Hc Hrest]; subst. cbn [stringScan].
  destruct escaped; [auto|]. destruct (chr "\" c); [auto|].
  unfold isQuote in Hc. cbn [negb andb]. rewrite Hc. cbn [andb]. auto.
Qed.

Lemma stringScan_one_quote q : isQuote q = true ->
  forall chars, Forall (plainOrQuote q) chars ->
  forall inString,
    stringScan chars inString (if inString then Some q else None) false
    = let open := xorb inString (Nat.odd (count_occ ascii_dec chars q)) in
      (open, if open then Some q else None).
Proof.
  intros Hq. induction chars as [|c chars IH]; intros H inString.
  - cbn. now destruct inString.
  - inversion H as [|? ? [Hb Hc] Hrest]; subst. cbn [stringScan count_occ].
    assert (Hbs : chr "\" c = false).
    { unfold chr. now destruct (Ascii.eqb_spec c "\"%char). }
    rewrite Hbs. fold (isQuote c).
    destruct (ascii_dec c q) as [->|Hne].
    + rewrite Hq, Nat.odd_succ, <- Nat.negb_odd. destruct inString.
      * cbn [negb andb]. rewrite bool_decide_eq_true_2 by reflexivity.
        rewrite (IH Hrest false). cbn zeta.
        now destruct (Nat.odd (count_occ ascii_dec chars q)).
      * cbn [negb andb]. rewrite (IH Hrest true). cbn zeta.
        now destruct (Nat.odd (count_occ ascii_dec chars q)).
    + destruct (isQuote c) eqn:E; [now specialize (Hc eq_refl)|].
      rewrite andb_false_r. destruct inString.
      * cbn [andb]. rewrite bool_decide_eq_false_2 by congruence.
        exact (IH Hrest true).
      * cbn [andb]. exact (IH Hrest false).
Qed.

End Strings.

(** X17. On a line without backslashes whose only quote characters are
    occurrences of one quote character, the unclosed-string rule emits its
    Error over the whole line exactly when that character occurs an odd
    number of times; it is the template-literal message for the backtick
    and the string message for the two other quotes. *)
Theorem unclosed_string_parity q line lineNumber :
  isQuote q = true -> Forall (plainOrQuote q) line ->
  checkUnclosedStrings line lineNumber
  = if Nat.odd (count_occ ascii_dec line q)
    then [diag (lineRange lineNumber 0 (len line))
               ("Unclosed "
                ++ (if bool_decide (q = "`"%char)
                    then "template literal" else "string")
                ++ ".")
               Error]
    else [].
Proof.
  intros Hq Hline. unfold checkUnclosedStrings.
  rewrite (stringScan_one_quote q Hq line Hline false). cbn [xorb]. cbn zeta.
  destruct (Nat.odd (count_occ ascii_dec line q)); [|reflexivity].
  destruct (decide (q = "`"%char)) as [->|Hne].
  - reflexivity.
  - rewrite !bool_decide_eq_false_2 by congruence. reflexivity.
Qed.

Lemma unclosed_string_parity_witness :
  checkUnclosedStrings (str "let s = 'it's';") 2
  = [diag (lineRange 2 0 15) "Unclosed string." Error].
Proof.
  refine (eq_trans (unclosed_string_parity "'" (str "let s = 'it's';") 2 _ _) _).
  - reflexivity.
  - repeat constructor; try discriminate; intros _; reflexivity.
  - reflexivity.
Defined.

(** X18. A line without any quote character gets no unclosed-string
    diagnostic, whatever else it holds, backslashes included. *)
Theorem no_quote_no_unclosed_string line lineNumber :
  Forall (fun c => isQuote c = false) line ->
  checkUnclosedStrings line lineNumber = [].
Proof.
  intros H. unfold checkUnclosedStrings.
  now rewrite (stringScan_no_quote line false H).
Qed.

Lemma no_quote_no_unclosed_string_witness :
  checkUnclosedStrings (str "x = a \ b") 0 = [].
Proof.
  apply no_quote_no_unclosed_string. repeat constructor.
Defined.

Section DigitWords.

Lemma heads_plus_class p bef d ds rest cs :
  Forall (holds p) (d :: ds) -> startsOutside (holds p) rest ->
  heads (run (Plus (Chr p)) (MState bef (d :: ds ++ rest) cs))
        (MState (rev (d :: ds) ++ bef) rest cs).
Proof.
  intros Hds Hrest. inversion Hds; subst.
  rewrite run_plus_class; auto.
  destruct (backtrack_head (d :: bef) ds rest cs) as (tl & ->).
  exists tl. simpl. now rewrite <- app_assoc.
Qed.

Lemma digit_prefix : forall w,
  exists ds t, w = ds ++ t /\ Forall (holds isDigit) ds
               /\ startsOutside (holds isDigit) t.
Proof.
  induction w as [|c w (ds & t & -> & Hds & Ht)].
  - exists [], []. repeat split; [constructor|]. intros c s' H. discriminate.
  - destruct (isDigit c) eqn:E.
    + exists (c :: ds), t. repeat split; [now constructor|exact Ht].
    + exists [], (c :: ds ++ t). repeat split; [constructor|].
      intros x s' H Hx. injection H as <- _. unfold holds in Hx. congruence.
Qed.

Lemma heads_wordB st :
  xorb (wordBefore st) (wordAfter st) = true -> heads (run WordB st) st.
Proof. intros H. cbn [run]. rewrite H. now exists []. Qed.

Lemma wordAfter_outside B post cs :
  startsOutside wordChar post -> wordAfter (MState B post cs) = false.
Proof.
  intros Hpost. unfold wordAfter. simpl. destruct post as [|c post']; [reflexivity|].
  destruct (isWord c) eqn:Hc; [|reflexivity].
  exfalso. exact (Hpost c post' eq_refl Hc).
Qed.

(** A word that starts with a digit and has a second character is matched
    whole, first of all the ways the leading-digit literal matches there. *)
Lemma invalidIdentifier_at_word B d ws post :
  isDigit d = true -> ws <> [] -> Forall (holds isWord) ws ->
  wordBefore (MState B ((d :: ws) ++ post) []) = false ->
  startsOutside wordChar post ->
  heads (run invalidIdentifier (MState B ((d :: ws) ++ post) []))
        (MState (rev (d :: ws) ++ B) post []).
Proof.
  intros Hd Hne Hws HB Hpost.
  destruct (digit_prefix ws) as (ds & t & -> & Hds & Ht).
  destruct t as [|x t].
  - rewrite app_nil_r in *.
    destruct (invalidIdentifier_at_number B (d :: ds) post) as (tl & ->); auto.
    + destruct ds; [congruence|simpl; lia].
    + now exists tl.
  - apply Forall_app in Hws. destruct Hws as [_ Hxt].
    unfold invalidIdentifier, Cat. cbn [fold_right].
    apply heads_seq with (mid := MState B ((d :: ds ++ x :: t) ++ post) []).
    { apply heads_wordB. rewrite HB. unfold wordAfter. cbn [after app].
      now rewrite (digit_is_word d Hd). }
    apply heads_seq with (mid := MState (rev (d :: ds) ++ B) ((x :: t) ++ post) []).
    { change ((d :: ds ++ x :: t) ++ post) with (d :: (ds ++ x :: t) ++ post).
      rewrite <- app_assoc. apply heads_plus_class; [now constructor|].
      intros c s' H Hc. injection H as <- _. exact (Ht x t eq_refl Hc). }
    apply heads_seq
      with (mid := MState (rev (x :: t) ++ rev (d :: ds) ++ B) post []).
    { change ((x :: t) ++ post) with (x :: t ++ post).
      apply heads_plus_class; [exact Hxt|exact Hpost]. }
    replace (rev (d :: ds ++ x :: t) ++ B)
      with (rev (x :: t) ++ rev (d :: ds) ++ B)
      by (change (d :: ds ++ x :: t) with ((d :: ds) ++ x :: t);
          now rewrite rev_app_distr, <- app_assoc).
    apply heads_seq
      with (mid := MState (rev (x :: t) ++ rev (d :: ds) ++ B) post []);
      [|now exists []].
    apply heads_wordB. rewrite (wordAfter_outside _ post _ Hpost).
    unfold wordBefore. cbn [before].
    destruct (exists_last (l := x :: t)) as (q & l & Hq); [discriminate|].
    rewrite Hq in *. rewrite rev_app_distr. cbn [rev app].
    apply Forall_app in Hxt. destruct Hxt as [_ Hl]. inversion Hl; subst.
    unfold holds in *. now rewrite H1.
Qed.

Lemma startingAt_map_elsewhere (f : MatchResult -> Diagnostic) col ms :
  (forall m, startCharacter (range (f m)) = Z.of_nat (index m)) ->
  Forall (fun m => index m <> col) ms ->
  startingAt col (map f ms) = [].
Proof.
  intros Hf. induction 1 as [|m ms Hm _ IH]; [reflexivity|].
  unfold startingAt in *. cbn [map List.filter]. rewrite IH, Hf.
  destruct (Z.eqb_spec (Z.of_nat (index m)) (Z.of_nat col)); [lia|reflexivity].
Qed.

(** Every match of a loop is a match of the literal at some position of
    the string. *)
Lemma exec_loop_found r : forall fuel bef aft m,
  In m (exec_loop fuel r bef aft) ->
  exists st0 st', input st0 = rev bef ++ aft /\ caps st0 = []
                  /\ In st' (run r st0) /\ m = result st0 st'.
Proof.
  induction fuel as [|fuel IH]; intros bef aft m Hin; simpl in Hin; [destruct Hin|].
  destruct (search r bef aft) as [m0|] eqn:E; [|destruct Hin].
  destruct Hin as [<-|Hin]; [exact (search_found r _ _ _ E)|].
  destruct (search_whole r _ _ _ E) as [_ Hrest]. rewrite <- Hrest. eauto.
Qed.

End DigitWords.

(** X19. On any line, a word of two characters or more that starts with a
    digit and stands between characters that are not word characters is
    reported by the leading-digit rule over exactly its span, and by no
    other diagnostic of that rule starting at its column. *)
Theorem digit_word_flagged (pre w post : list ascii) (lineNumber : nat) :
  firstIs isDigit w = true ->
  forallb isWord w = true ->
  2 <= length w ->
  lastIs isWord pre = false ->
  firstIs isWord post = false ->
  startingAt (length pre) (checkInvalidIdentifiers (pre ++ w ++ post) lineNumber)
  = [diag (lineRange lineNumber (len pre) (len pre + len w))
          "Identifiers cannot start with a number." Error].
Proof.
  intros Hd Hw Hlen Hpre Hpost. apply forallb_holds in Hw.
  apply lastIs_endsOutside in Hpre. apply firstIs_startsOutside in Hpost.
  fold wordChar in Hpre, Hpost.
  destruct w as [|d ws]; [discriminate|]. cbn [firstIs] in Hd.
  inversion Hw as [|? ? _ Hws]; subst.
  assert (Hne : ws <> []) by (intros ->; simpl in Hlen; lia).
  destruct (invalidIdentifier_at_word (rev pre ++ []) d ws post Hd Hne Hws
              (wordBefore_endsOutside pre _ _ Hpre) Hpost) as (tl & Htok).
  destruct (exec_loop_reaches invalidIdentifier (endsOutside wordChar)
              (endsOutside_suffix wordChar)
              (charsIn_confined _ _ invalidIdentifier_chars) eq_refl
              (length pre) pre [] ((d :: ws) ++ post)
              (S (length (pre ++ (d :: ws) ++ post))) _ tl eq_refl
              (fun _ => Hpre) Htok)
    as (ms1 & ms2 & Heq & H1 & H2); [lia|].
  unfold checkInvalidIdentifiers, exec_all. rewrite Heq, map_app.
  unfold startingAt. rewrite List.filter_app. cbn [map List.filter].
  fold (startingAt (length pre) (map (identifierError lineNumber) ms1)).
  fold (startingAt (length pre) (map (identifierError lineNumber) ms2)).
  rewrite !startingAt_map_elsewhere; try reflexivity.
  - unfold identifierError at 1 2, result. cbn [index whole range startCharacter diag lineRange].
    rewrite consumed_word. unfold pos, len. cbn [before].
    rewrite app_nil_r, length_rev, Z.eqb_refl. reflexivity.
  - eapply List.Forall_impl; [|exact H2]. simpl. intros m Hm. lia.
  - eapply List.Forall_impl; [|exact H1]. simpl. intros m Hm. lia.
Qed.

Lemma digit_word_flagged_witness :
  startingAt 4 (checkInvalidIdentifiers (str "let 2nd = 1;") 0)
  = [diag (lineRange 0 4 7) "Identifiers cannot start with a number." Error].
Proof.
  apply (digit_word_flagged (str "let ") (str "2nd") (str " = 1;") 0);
    try reflexivity.
  simpl. lia.
Defined.

(** X20. Whatever the leading-digit rule reports on a line is a whole word
    of that line: the reported span holds word characters only, two or
    more, the first a digit, and no word character stands directly before
    or after it.  Digits inside a word that starts with a letter are thus
    never reported. *)
Theorem flagged_is_digit_word line lineNumber d :
  In d (checkInvalidIdentifiers line lineNumber) ->
  exists pre w post,
    line = pre ++ w ++ post
    /\ d = diag (lineRange lineNumber (len pre) (len pre + len w))
                "Identifiers cannot start with a number." Error
    /\ firstIs isDigit w = true /\ Forall (holds isWord) w /\ 2 <= length w
    /\ lastIs isWord pre = false /\ firstIs isWord post = false.
Proof.
  unfold checkInvalidIdentifiers, exec_all. intros Hin.
  apply in_map_iff in Hin. destruct Hin as (m & <- & Hm).
  destruct (exec_loop_found _ _ _ _ _ Hm) as (st0 & st' & Hi & _ & Hrun & ->).
  destruct (run_sound _ _ _ Hrun) as (w & Ha & Hb & D).
  unfold invalidIdentifier in D. cbn [Cat fold_right] in D.
  apply denotes_seq in D. destruct D as (u0 & ua & -> & D0 & D).
  inversion D0 as [| | | | | | | | | |? ? Hx0]; subst.
  apply denotes_seq in D. destruct D as (w1 & ub & -> & D1 & D).
  apply denotes_plus_class in D1. destruct D1 as [Hne1 Hw1].
  apply denotes_seq in D. destruct D as (w2 & uc & -> & D2 & D).
  apply denotes_plus_class in D2. destruct D2 as [Hne2 Hw2].
  apply denotes_seq in D. destruct D as (u1 & ud & -> & D3 & D4).
  apply denotes_eps in D4. subst ud.
  inversion D3 as [| | | | | | | | | |? ? Hx1]; subst.
  cbn [app rev] in *. rewrite !app_nil_r in *.
  destruct w1 as [|d1 w1]; [congruence|]. inversion Hw1 as [|? ? Hd1 _]; subst.
  exists (rev (before st0)), ((d1 :: w1) ++ w2), (after st').
  assert (Hword : Forall (holds isWord) ((d1 :: w1) ++ w2)).
  { apply Forall_app. split; [|exact Hw2].
    eapply List.Forall_impl; [|exact Hw1]. intros a. apply digit_is_word. }
  repeat split.
  - unfold input. now rewrite Ha.
  - unfold identifierError, result. cbn [index whole].
    rewrite (consumed_advanced (fun _ => True) st0 st' ((d1 :: w1) ++ w2))
      by (repeat split; auto; apply List.Forall_forall; auto).
    unfold pos, len. now rewrite length_rev.
  - exact Hd1.
  - exact Hword.
  - rewrite length_app. destruct w2; [congruence|simpl; lia].
  - unfold lastIs. rewrite rev_involutive.
    cbn [firstIs app] in Hx0. rewrite (digit_is_word d1 Hd1) in Hx0.
    unfold firstIs in Hx0. destruct (before st0) as [|c B]; [reflexivity|].
    now destruct (isWord c).
  - destruct (exists_last Hne2) as (q & l & ->).
    apply Forall_app in Hw2. destruct Hw2 as [_ Hl]. inversion Hl as [|? ? Hl' _]; subst.
    rewrite rev_app_distr in Hx1. cbn [rev app firstIs] in Hx1.
    unfold holds in Hl'. rewrite Hl' in Hx1.
    now destruct (firstIs isWord (after st')).
Qed.

Lemma flagged_is_digit_word_witness :
  exists pre w post,
    str "let 2nd = 1;" = pre ++ w ++ post
    /\ firstIs isDigit w = true /\ lastIs isWord pre = false.
Proof.
  destruct (flagged_is_digit_word (str "let 2nd = 1;") 0
              (diag (lineRange 0 4 7) "Identifiers cannot start with a number." Error)
              ltac:(vm_compute; left; reflexivity))
    as (pre & w & post & H1 & _ & H2 & _ & _ & H3 & _).
  exists pre, w, post. auto.
Defined.

Section Keywords.

Lemma denotes_wordb B w rest :
  denotes WordB B w rest <->
  w = [] /\ xorb (firstIs isWord B) (firstIs isWord rest) = true.
Proof. split; [now inversion 1|intros [-> H]; now constructor]. Qed.

Lemma lastIs_rev p a : lastIs p a = firstIs p (rev a).
Proof. reflexivity. Qed.

(** A word boundary in front of a word character: what precedes is not a
    word character. *)
Lemma boundary_before B c rest :
  isWord c = true ->
  xorb (firstIs isWord B) (firstIs isWord (c :: rest)) = true <->
  firstIs isWord B = false.
Proof. intros Hc. cbn [firstIs]. rewrite Hc. now destruct (firstIs isWord B). Qed.

Lemma boundary_after B c rest :
  isWord c = true ->
  xorb (firstIs isWord (c :: B)) (firstIs isWord rest) = true <->
  firstIs isWord rest = false.
Proof. intros Hc. cbn [firstIs]. rewrite Hc. now destruct (firstIs isWord rest). Qed.

Lemma wholeWord_shape kw c k q l line :
  kw = c :: k -> kw = q ++ [l] -> isWord c = true -> isWord l = true ->
  test (Cat [WordB; Lit kw; WordB]) line = true <-> wholeWord kw line.
Proof.
  intros Hfirst Hlast Hc Hl. cbn [Cat fold_right]. rewrite test_denotes.
  assert (Hrev : forall B, rev kw ++ B = l :: rev q ++ B).
  { intros B. rewrite Hlast, rev_app_distr. reflexivity. }
  split.
  - intros (a & w & b & -> & D).
    apply denotes_seq in D. destruct D as (u0 & ua & -> & D0 & D).
    apply denotes_wordb in D0. destruct D0 as [-> Hx0].
    apply denotes_seq in D. destruct D as (w1 & ub & -> & D1 & D).
    apply denotes_lit in D1. subst w1.
    apply denotes_seq in D. destruct D as (u1 & uc & -> & D2 & D3).
    apply denotes_wordb in D2. destruct D2 as [-> Hx1]. apply denotes_eps in D3.
    subst uc. cbn [app rev] in Hx0, Hx1. rewrite !app_nil_r in *.
    exists a, b. repeat split.
    + rewrite lastIs_rev. rewrite Hfirst in Hx0. cbn [app] in Hx0.
      now apply (boundary_before _ c) in Hx0.
    + rewrite Hrev in Hx1. now apply boundary_after in Hx1.
  - intros (a & b & -> & Ha & Hb). exists a, kw, b. split; [reflexivity|].
    apply denotes_seq. exists [], kw. repeat split.
    + apply denotes_wordb. split; [reflexivity|]. rewrite Hfirst. cbn [app].
      apply boundary_before; [exact Hc|]. now rewrite <- lastIs_rev.
    + cbn [rev app]. apply denotes_seq. exists kw, []. repeat split;
        [now rewrite app_nil_r|now apply denotes_lit|].
      apply denotes_seq. exists [], []. repeat split; [|constructor].
      apply denotes_wordb. split; [reflexivity|].
      cbn [app]. rewrite Hrev. now apply boundary_after.
Qed.

Lemma withRegex_shape line : test withRegex line = true <-> withBlock line.
Proof.
  unfold withRegex. cbn [Cat fold_right]. rewrite test_denotes. split.
  - intros (a & w & b & -> & D).
    apply denotes_seq in D. destruct D as (u0 & ua & -> & D0 & D).
    apply denotes_wordb in D0. destruct D0 as [-> Hx0].
    apply denotes_seq in D. destruct D as (w1 & ub & -> & D1 & D).
    apply denotes_lit in D1. subst w1.
    apply denotes_seq in D. destruct D as (ws & uc & -> & D2 & D).
    apply denotes_star_class in D2.
    apply denotes_seq in D. destruct D as (w3 & ud & -> & D3 & D4).
    apply denotes_chr in D3. destruct D3 as (x & -> & Hx). apply chr_eq in Hx.
    apply denotes_eps in D4. subst.
    exists a, ws, b. split; [|split; [|exact D2]].
    + f_equal. rewrite <- !app_assoc. reflexivity.
    + rewrite lastIs_rev. cbn [rev] in Hx0.
      change (str "with") with ("w"%char :: str "ith") in Hx0. cbn [app] in Hx0.
      now apply (boundary_before _ "w") in Hx0.
  - intros (a & ws & b & -> & Ha & Hws).
    exists a, (str "with" ++ ws ++ ["{"%char]), b.
    split; [now rewrite <- !app_assoc|].
    apply denotes_seq. exists [], (str "with" ++ ws ++ ["{"%char]). repeat split.
    + apply denotes_wordb. split; [reflexivity|].
      apply (boundary_before _ "w"); [reflexivity|]. now rewrite <- lastIs_rev.
    + apply denotes_seq. exists (str "with"), (ws ++ ["{"%char]).
      repeat split; [now apply denotes_lit|].
      apply denotes_seq. exists ws, ["{"%char].
      repeat split; [now apply denotes_star_class|].
      apply denotes_seq. exists ["{"%char], []. repeat split; constructor.
      reflexivity.
Qed.

Lemma trim_startsWith p line :
  p <> [] -> Forall solid p ->
  startsWith p (trim line) = startsWith p (trimStart line).
Proof.
  intros Hne Hp.
  destruct (trimEnd_split (trimStart line)) as (ws & He & Hws). fold (trim line) in He.
  destruct (startsWith p (trim line)) eqn:E.
  - apply startsWith_iff in E. destruct E as (b & E). symmetry.
    apply startsWith_iff. exists (b ++ ws). rewrite He, E. now rewrite <- app_assoc.
  - destruct (startsWith p (trimStart line)) eqn:E'; [|reflexivity].
    apply startsWith_iff in E'. destruct E' as (b & E'). rewrite <- E.
    unfold trim. rewrite E'.
    assert (Hkeep : forall q r, Forall solid q ->
              rev (trimStart (rev (q ++ r))) = q ++ rev (trimStart (rev r))).
    { induction q as [|c q IH]; intros r Hq; [reflexivity|].
      inversion Hq; subst. cbn [app]. rewrite trimEnd_cons by assumption.
      now rewrite IH. }
    rewrite (Hkeep _ _ Hp). apply startsWith_iff. eauto.
Qed.

End Keywords.

(** X21. The select Information of the LINQ rule is emitted exactly when
    [from] stands in the line as a whole word and [select] does not; it is
    anchored at the first place the four letters of [from] occur in the
    line, whether or not that place is the whole word. *)
Theorem linq_select_rule line lineNumber :
  (wholeWord (str "from") line /\ ~ wholeWord (str "select") line
   /\ informationOf (checkLinqQueries line lineNumber)
      = [diag (lineRange lineNumber (indexOf (str "from") line)
                         (indexOf (str "from") line + 4))
              "LINQ query should end with a select clause." Information])
  \/ (~ (wholeWord (str "from") line /\ ~ wholeWord (str "select") line)
      /\ informationOf (checkLinqQueries line lineNumber) = []).
Proof.
  assert (Hfrom : test (Cat [WordB; lit "from"; WordB]) line = true
                  <-> wholeWord (str "from") line)
    by (apply (wholeWord_shape (str "from") "f" (str "rom") (str "fro") "m");
        reflexivity).
  assert (Hsel : test (Cat [WordB; lit "select"; WordB]) line = true
                 <-> wholeWord (str "select") line)
    by (apply (wholeWord_shape (str "select") "s" (str "elect") (str "selec") "t");
        reflexivity).
  assert (Hvar : informationOf
                   (if test fromRegex line
                    then match exec fromRegex line with
                         | Some m =>
                             if negb (test identifierRegex (grp 1 m))
                             then [diag (lineRange lineNumber (indexOf (grp 1 m) line)
                                           (indexOf (grp 1 m) line + len (grp 1 m)))
                                     "Invalid variable name in LINQ query. Must be a valid identifier."
                                     Error]
                             else []
                         | None => []
                         end
                    else []) = []).
  { destruct (test fromRegex line); [|reflexivity].
    destruct (exec fromRegex line) as [m|]; [|reflexivity]. now destruct (negb _). }
  unfold checkLinqQueries, informationOf in *. rewrite List.filter_app, Hvar.
  destruct (test (Cat [WordB; lit "from"; WordB]) line) eqn:E1.
  - destruct (test (Cat [WordB; lit "select"; WordB]) line) eqn:E2.
    + right. split; [|reflexivity]. intros [_ H]. apply H. now apply Hsel.
    + left. repeat split; [now apply Hfrom|].
      intros H. apply Hsel in H. congruence.
  - right. split; [|reflexivity]. intros [H _]. apply Hfrom in H. congruence.
Qed.

(** X22. The with-expression rule emits its Warning exactly when the line
    holds [with], not directly preceded by a word character and followed,
    blanks apart, by an opening brace, and moreover either has no equals
    sign anywhere or starts, leading blanks apart, with [with].  The
    Warning is anchored at the first place the four letters occur. *)
Theorem with_rule line lineNumber :
  let flagged :=
    withBlock line
    /\ (~ In "="%char line \/ exists r, trimStart line = str "with" ++ r) in
  (flagged
   /\ checkWithExpressions line lineNumber
      = [diag (lineRange lineNumber (indexOf (str "with") line)
                         (indexOf (str "with") line + 4))
              (dq ++ "with" ++ dq
               ++ " expression must be used with an assignment or return statement.")
              Warning])
  \/ (~ flagged /\ checkWithExpressions line lineNumber = []).
Proof.
  cbv zeta. unfold checkWithExpressions.
  assert (Hsolid : Forall solid (str "with")) by (repeat constructor).
  rewrite (trim_startsWith (str "with") line ltac:(discriminate) Hsolid).
  destruct (test withRegex line) eqn:E.
  - apply withRegex_shape in E.
    destruct (includes (str "=") line) eqn:E1.
    + apply (includes_char "=" line) in E1. cbn [negb orb].
      destruct (startsWith (str "with") (trimStart line)) eqn:E2.
      * left. apply startsWith_iff in E2. repeat split; [exact E|now right].
      * right. split; [|reflexivity]. intros [_ [H|H]]; [contradiction|].
        apply startsWith_iff in H. congruence.
    + left. repeat split; [exact E|]. left. intros H.
      apply (includes_char "=" line) in H. change ["="%char] with (str "=") in H.
      congruence.
  - right. split; [|reflexivity]. intros [H _]. apply withRegex_shape in H.
    congruence.
Qed.

Section RangeMatches.

Lemma in_run_char a st st' :
  In st' (run (Chr (chr a)) st) ->
  after st = a :: after st' /\ before st' = a :: before st /\ caps st' = caps st.
Proof.
  cbn [run]. destruct (after st) as [|c aft]; [intros []|].
  destruct (chr a c) eqn:E; [|intros []]. apply chr_eq in E. subst c.
  intros [<-|[]]. auto.
Qed.

Lemma in_run_digits st st' :
  In st' (run (Plus (Chr isDigit)) st) ->
  exists w, after st = w ++ after st' /\ before st' = rev w ++ before st
            /\ caps st' = caps st /\ w <> [] /\ Forall (holds isDigit) w
            /\ consumed st st' = w.
Proof.
  intros Hin.
  pose proof (consuming_shortens (Plus (Chr isDigit)) eq_refl _ _ Hin) as Hlt.
  destruct (in_run_plain (holds isDigit) (Plus (Chr isDigit)) st st') as (w & A & Hc);
    [simpl; auto|reflexivity|exact Hin|].
  exists w. pose proof (consumed_advanced _ _ _ _ A) as Hw.
  destruct A as (Ha & Hb & Hd). repeat split; auto.
  intros ->. rewrite Ha in Hlt. simpl in Hlt. lia.
Qed.

Lemma in_run_Grp n r st st' :
  In st' (run (Grp n r) st) ->
  exists x, In x (run r st)
            /\ st' = MState (before x) (after x) ((n, consumed st x) :: caps x).
Proof.
  cbn [run]. intros H. apply in_map_iff in H. destruct H as (x & <- & Hx). eauto.
Qed.

Lemma in_run_Alt r1 r2 st st' :
  In st' (run (Alt r1 r2) st) -> In st' (run r1 st) \/ In st' (run r2 st).
Proof. cbn [run]. apply in_app_iff. Qed.

(** What a match of the range literal is made of, and what it captures. *)
Lemma rangeRegex_match st st' :
  caps st = [] -> In st' (run rangeRegex st) ->
  exists N M,
    after st = N ++ str ".." ++ M ++ after st'
    /\ before st' = rev (N ++ str ".." ++ M) ++ before st
    /\ caps st' = [(2, M); (1, N)]
    /\ N <> [] /\ Forall (holds isDigit) N
    /\ (M = str "_" \/ (M <> [] /\ Forall (holds isDigit) M)).
Proof.
  unfold rangeRegex, Cat. cbn [fold_right]. intros Hcs H.
  apply in_run_seq in H. destruct H as (m1 & H1 & H).
  apply in_run_seq in H. destruct H as (m2 & H2 & H).
  apply in_run_seq in H. destruct H as (m3 & H3 & H).
  apply in_run_seq in H. destruct H as (m4 & H4 & H).
  destruct H as [<-|[]].
  apply in_run_Grp in H1. destruct H1 as (x1 & H1 & ->).
  apply in_run_digits in H1. destruct H1 as (N & Ha1 & Hb1 & Hc1 & HN & HdN & Hw1).
  apply in_run_char in H2. cbn [before after caps] in H2.
  destruct H2 as (Ha2 & Hb2 & Hc2).
  apply in_run_char in H3. destruct H3 as (Ha3 & Hb3 & Hc3).
  apply in_run_Grp in H4. destruct H4 as (x4 & H4 & ->).
  cbn [before after caps].
  apply in_run_Alt in H4. destruct H4 as [H4|H4].
  - apply in_run_digits in H4.
    destruct H4 as (M & Ha4 & Hb4 & Hc4 & HM & HdM & Hw4).
    exists N, M. rewrite Hw4, Hc4, Hc3, Hc2, Hw1, Hc1, Hcs.
    repeat split; auto.
    + rewrite Ha1, Ha2, Ha3, Ha4. reflexivity.
    + rewrite Hb4, Hb3, Hb2, Hb1. apply afterRange_before.
  - pose proof (run_advanced _ _ (charsIn_True _) _ _ H4) as (w & A).
    pose proof (consumed_advanced _ _ _ _ A) as Hw4.
    apply in_run_char in H4. destruct H4 as (Ha4 & Hb4 & Hc4).
    destruct A as (Ha & _). rewrite Ha4 in Ha.
    change ("_"%char :: after x4) with (str "_" ++ after x4) in Ha.
    apply app_inv_tail in Ha. subst w.
    exists N, (str "_"). rewrite Hw4, Hc4, Hc3, Hc2, Hw1, Hc1, Hcs.
    repeat split; auto.
    + rewrite Ha1, Ha2, Ha3, Ha4. reflexivity.
    + rewrite Hb4, Hb3, Hb2, Hb1. apply (afterRange_before _ N (str "_")).
Qed.

End RangeMatches.



Section LoneBlock.

Lemma unique_occurrence (c : ascii) : forall a a' x y,
  count_occ ascii_dec (a ++ c :: x) c <= 1 ->
  a ++ c :: x = a' ++ c :: y -> a = a' /\ x = y.
Proof.
  induction a as [|h a IH]; intros a' x y Hc Heq.
  - destruct a' as [|h' a']; [injection Heq as ->; auto|].
    injection Heq as <- ->. exfalso. cbn [app] in Hc.
    rewrite count_occ_cons_eq, count_occ_app, count_occ_cons_eq in Hc by reflexivity.
    lia.
  - destruct a' as [|h' a'].
    + injection Heq as -> <-. exfalso. cbn [app] in Hc.
      rewrite count_occ_cons_eq, count_occ_app, count_occ_cons_eq in Hc by reflexivity.
      lia.
    + injection Heq as <- Heq. cbn [app] in Hc.
      destruct (ascii_dec h c) as [->|Hne].
      * exfalso.
        rewrite count_occ_cons_eq, count_occ_app, count_occ_cons_eq in Hc by reflexivity.
        lia.
      * rewrite count_occ_cons_neq in Hc by exact Hne.
        destruct (IH a' x y Hc Heq) as [-> ->]. auto.
Qed.

Lemma first_occurrence (c : ascii) : forall p q x y,
  Forall (fun a => a <> c) p -> Forall (fun a => a <> c) q ->
  p ++ c :: x = q ++ c :: y -> p = q.
Proof.
  induction p as [|h p IH]; intros q x y Hp Hq Heq.
  - destruct q as [|h' q]; [reflexivity|]. injection Heq as <- _.
    inversion Hq; subst. congruence.
  - destruct q as [|h' q].
    + injection Heq as -> _. inversion Hp; subst. congruence.
    + injection Heq as <- Heq. inversion Hp; inversion Hq; subst.
      f_equal. eauto.
Qed.

Lemma blank_prefix : forall p y u k z,
  Forall (holds isSpace) p -> solid k ->
  p ++ y = u ++ k :: z -> exists u', u = p ++ u'.
Proof.
  induction p as [|h p IH]; intros y u k z Hp Hk Heq; [now exists u|].
  inversion Hp as [|? ? Hh Hp']; subst. destruct u as [|h' u].
  - injection Heq as -> _. unfold solid, holds in *. congruence.
  - injection Heq as <- Heq. destruct (IH _ _ _ _ Hp' Hk Heq) as (u' & ->).
    now exists u'.
Qed.

(** A token without blanks inside a text stays inside what is left of the
    text when blanks are taken off both ends. *)
Lemma solid_core ws kw T ws1 w1 ws2 :
  kw <> [] -> Forall solid kw ->
  Forall (holds isSpace) ws1 -> Forall (holds isSpace) ws2 ->
  ws ++ kw ++ T = ws1 ++ w1 ++ ws2 -> factor kw w1.
Proof.
  intros Hne Hkw H1 H2 Heq.
  destruct kw as [|k kw']; [congruence|]. inversion Hkw as [|? ? Hk _]; subst.
  destruct (blank_prefix ws1 (w1 ++ ws2) ws k (kw' ++ T) H1 Hk (eq_sym Heq))
    as (u' & ->).
  rewrite <- app_assoc in Heq. apply app_inv_head in Heq.
  destruct (exists_last Hne) as (q & l & Hq).
  assert (Hl : solid l).
  { rewrite Hq in Hkw. apply Forall_app in Hkw. destruct Hkw as [_ Hl].
    now inversion Hl. }
  assert (Hrev : rev ws2 ++ rev w1 = rev T ++ l :: rev q ++ rev u').
  { rewrite <- rev_app_distr, <- Heq, !rev_app_distr, Hq, rev_app_distr.
    cbn [rev app]. now rewrite <- !app_assoc. }
  destruct (blank_prefix (rev ws2) (rev w1) (rev T) l (rev q ++ rev u')
              (Forall_rev H2) Hl Hrev) as (v & Hv).
  assert (HT : T = rev v ++ ws2).
  { rewrite <- (rev_involutive T), Hv, rev_app_distr. now rewrite rev_involutive. }
  rewrite HT in Heq. rewrite !app_assoc in Heq. apply app_inv_tail in Heq.
  exists u', (rev v). rewrite <- Heq. now rewrite <- !app_assoc.
Qed.

Lemma in_run_keyword st st' :
  In st' (run (Alt (lit "get") (lit "set")) st) ->
  exists kw, (kw = str "get" \/ kw = str "set") /\ after st = kw ++ after st'.
Proof.
  intros H. apply in_run_Alt in H. destruct H as [H|H]; apply in_run_Lit in H; eauto.
Qed.

(** The shape of a match of the auto-property literal. *)
Lemma autoProperty_match st st' :
  In st' (run autoPropertyRegex st) ->
  exists ws kw T,
    after st = "{"%char :: ws ++ kw ++ T ++ "}"%char :: after st'
    /\ Forall (holds isSpace) ws
    /\ (kw = str "get" \/ kw = str "set")
    /\ Forall (fun a => a <> "}"%char) T.
Proof.
  unfold autoPropertyRegex, Cat. cbn [fold_right]. intros H.
  apply in_run_seq in H. destruct H as (m1 & H1 & H).
  apply in_run_seq in H. destruct H as (m2 & H2 & H).
  apply in_run_seq in H. destruct H as (m3 & H3 & H).
  apply in_run_seq in H. destruct H as (m4 & H4 & H).
  apply in_run_seq in H. destruct H as (m5 & H5 & H).
  apply in_run_seq in H. destruct H as (m6 & H6 & H).
  apply in_run_seq in H. destruct H as (m7 & H7 & H).
  destruct H as [<-|[]].
  apply in_run_char in H1. destruct H1 as (Ha1 & _).
  apply (run_advanced (holds isSpace)) in H2; [|now intros c Hc].
  destruct H2 as (ws & Ha2 & _ & Hws).
  apply in_run_Grp in H3. destruct H3 as (x3 & H3 & ->). cbn [after] in *.
  apply in_run_keyword in H3. destruct H3 as (kw & Hkw & Ha3).
  assert (Hsemi : forall c, semiOrSpace c = true -> c <> "}"%char)
    by (intros c Hc ->; discriminate).
  assert (Hlit : forall s, Forall (fun a => a <> "}"%char) s ->
            charsIn (fun a => a <> "}"%char) (Lit s)).
  { induction s as [|a s IHs]; intros Hs; [exact I|]. inversion Hs; subst.
    split; [|auto]. intros c Hc. apply chr_eq in Hc. now subst. }
  apply (run_advanced (fun a => a <> "}"%char)) in H4; [|exact Hsemi].
  destruct H4 as (t1 & Ha4 & _ & Ht1). cbn [after] in Ha4.
  apply (run_advanced (fun a => a <> "}"%char)) in H5.
  2:{ unfold Opt. cbn [charsIn].
      split; [split; apply Hlit; repeat constructor; discriminate|exact I]. }
  destruct H5 as (o & Ha5 & _ & Ho).
  apply (run_advanced (fun a => a <> "}"%char)) in H6; [|exact Hsemi].
  destruct H6 as (t2 & Ha6 & _ & Ht2).
  apply in_run_char in H7. destruct H7 as (Ha7 & _).
  exists ws, kw, (t1 ++ o ++ t2). repeat split; auto.
  - rewrite Ha1, Ha2, Ha3, Ha4, Ha5, Ha6, Ha7. now rewrite <- !app_assoc.
  - repeat (apply Forall_app; split); auto.
Qed.

(** The shape of a match of the brace-block literal, and its capture. *)
Lemma braceBlock_match st st' :
  caps st = [] -> In st' (run braceBlock st) ->
  exists ws1 w1 ws2,
    after st = "{"%char :: ws1 ++ w1 ++ ws2 ++ "}"%char :: after st'
    /\ Forall (holds isSpace) ws1 /\ Forall (holds isSpace) ws2
    /\ Forall (fun a => a <> "}"%char) w1
    /\ caps st' = [(1, w1)].
Proof.
  unfold braceBlock, Cat. cbn [fold_right]. intros Hcs H.
  apply in_run_seq in H. destruct H as (m1 & H1 & H).
  apply in_run_seq in H. destruct H as (m2 & H2 & H).
  apply in_run_seq in H. destruct H as (m3 & H3 & H).
  apply in_run_seq in H. destruct H as (m4 & H4 & H).
  apply in_run_seq in H. destruct H as (m5 & H5 & H).
  destruct H as [<-|[]].
  apply in_run_char in H1. destruct H1 as (Ha1 & _ & Hc1).
  destruct (in_run_plain (holds isSpace) (Star sp) _ _ ltac:(now intros c Hc)
              eq_refl H2) as (ws1 & (Ha2 & _ & Hws1) & Hc2).
  destruct (in_run_grp (fun a => a <> "}"%char) 1 (Plus (Chr (notChr "}"))) m2 m3)
    as (w1 & (Ha3 & _ & Hw1) & Hc3); [|reflexivity|exact H3|].
  { assert (Hn : forall c, notChr "}" c = true -> c <> "}"%char)
      by (intros c Hc ->; discriminate).
    split; exact Hn. }
  destruct (in_run_plain (holds isSpace) (Star sp) _ _ ltac:(now intros c Hc)
              eq_refl H4) as (ws2 & (Ha4 & _ & Hws2) & Hc4).
  apply in_run_char in H5. destruct H5 as (Ha5 & _ & Hc5).
  exists ws1, w1, ws2. repeat split; auto.
  - rewrite Ha1, Ha2, Ha3, Ha4, Ha5. reflexivity.
  - now rewrite Hc5, Hc4, Hc3, Hc2, Hc1, Hcs.
Qed.

Lemma blank_not_brace ws :
  Forall (holds isSpace) ws -> Forall (fun a => a <> "}"%char) ws.
Proof.
  intros H. eapply List.Forall_impl; [|exact H]. intros a Ha ->. discriminate.
Qed.

End LoneBlock.

(** X24. The auto-property Error is only ever emitted on a line with two or
    more opening braces.  On a line with a single opening brace the block
    whose content is examined is the auto-property block itself, which
    holds [get] or [set] by the very pattern that triggers the check, so the
    rule reports nothing there. *)
Theorem auto_property_needs_two_braces line lineNumber d :
  In d (checkAutoProperties line lineNumber) ->
  2 <= count_occ ascii_dec line "{"%char.
Proof.
  unfold checkAutoProperties. intros Hin.
  destruct (test autoPropertyRegex line) eqn:E; [|destruct Hin].
  destruct (exec braceBlock line) as [m|] eqn:E2; [|destruct Hin].
  destruct (negb (includes (str "get") (grp 1 m))
            && negb (includes (str "set") (grp 1 m))) eqn:E3; [|destruct Hin].
  clear Hin. apply andb_true_iff in E3. destruct E3 as [Eg Es].
  apply negb_true_iff in Eg, Es.
  destruct (le_lt_dec 2 (count_occ ascii_dec line "{"%char)) as [|Hone]; [assumption|].
  exfalso.
  apply test_exec in E. destruct E as (m0 & E).
  destruct (search_found _ _ _ _ E) as (sa & sa' & Hia & _ & Hra & _).
  destruct (search_found _ _ _ _ E2) as (sb & sb' & Hib & Hcb & Hrb & ->).
  destruct (autoProperty_match _ _ Hra) as (ws & kw & T & Haa & Hws & Hkw & HT).
  destruct (braceBlock_match _ _ Hcb Hrb)
    as (ws1 & w1 & ws2 & Hab & Hws1 & Hws2 & Hw1 & Hcaps).
  simpl in Hia, Hib. unfold input in Hia, Hib. rewrite Haa in Hia. rewrite Hab in Hib.
  assert (Hc : count_occ ascii_dec
                 (rev (before sa) ++
                  "{"%char :: ws ++ kw ++ T ++ "}"%char :: after sa') "{"%char <= 1)
    by (rewrite Hia; lia).
  rewrite <- Hib in Hia.
  destruct (unique_occurrence _ _ _ _ _ Hc Hia) as [_ Hrest].
  assert (Hmid : (ws ++ kw ++ T) = (ws1 ++ w1 ++ ws2)).
  { apply (first_occurrence "}" _ _ (after sa') (after sb')).
    - repeat (apply Forall_app; split); auto using blank_not_brace.
      destruct Hkw as [->| ->]; repeat constructor; discriminate.
    - repeat (apply Forall_app; split); auto using blank_not_brace.
    - rewrite <- !app_assoc. exact Hrest. }
  assert (Hf : factor kw w1).
  { apply (solid_core ws kw T ws1 w1 ws2); auto.
    - destruct Hkw as [->| ->]; discriminate.
    - destruct Hkw as [->| ->]; repeat constructor. }
  assert (Hg : grp 1 (result sb sb') = w1).
  { unfold grp. cbn [groups result]. now rewrite Hcaps. }
  rewrite Hg in Eg, Es. apply indexOf_factor in Hf. destruct Hf as [Hf _].
  apply Z.leb_le in Hf. unfold includes in Eg, Es.
  destruct Hkw as [->| ->]; congruence.
Qed.

Lemma auto_property_needs_two_braces_witness :
  2 <= count_occ ascii_dec (str "{ x } { get; }") "{"%char.
Proof.
  apply (auto_property_needs_two_braces (str "{ x } { get; }") 0
           (autoPropertyError (str "{ x } { get; }") 0)).
  vm_compute. left. reflexivity.
Defined.

(** * Range tokens and the left-to-right scan *)

Section PassingThrough.

Variable r : regex.
Variable ok : list ascii -> Prop.
Variable rest : list ascii.
Hypothesis ok_suffix : forall a b, b <> [] -> ok (a ++ b) -> ok b.
Hypothesis r_stays : forall bef p st',
  p <> [] -> ok p -> In st' (run r (MState bef (p ++ rest) [])) ->
  exists w p', p = w ++ p' /\ after st' = p' ++ rest /\ before st' = rev w ++ bef.
Hypothesis r_consuming : consuming r = true.

(** Over a piece [p] in which every match stays, the loop comes to search
    from the end of [p]. *)
Lemma exec_loop_passes : forall n p bef fuel,
  length p = n -> (p <> [] -> ok p) -> length (p ++ rest) < fuel ->
  exists ms1 fuel',
    length rest < fuel'
    /\ exec_loop fuel r bef (p ++ rest) = ms1 ++ exec_loop fuel' r (rev p ++ bef) rest
    /\ Forall (fun m => index m < length bef + length p) ms1.
Proof.
  induction n as [n IH] using lt_wf_ind. intros p bef fuel Hn Hok Hfuel.
  destruct p as [|c p].
  - exists [], fuel. repeat split; auto.
  - destruct fuel as [|fuel]; [lia|].
    assert (Hokp : ok (c :: p)) by (apply Hok; discriminate).
    destruct (run r (MState bef ((c :: p) ++ rest) [])) as [|st' tl] eqn:E.
    + cbn [app] in E |- *. rewrite (exec_loop_miss _ _ _ _ _ E).
      destruct (IH (length p) ltac:(simpl in Hn; lia) p (c :: bef) (S fuel) eq_refl)
        as (ms1 & fuel' & Hf & Heq & Hms).
      { intros Hne. exact (ok_suffix [c] p Hne Hokp). }
      { rewrite length_app in *. simpl in Hfuel. lia. }
      exists ms1, fuel'. split; [exact Hf|]. split.
      * rewrite Heq. cbn [rev]. now rewrite <- app_assoc.
      * eapply List.Forall_impl; [|exact Hms]. cbn [length]. intros m Hm. lia.
    + assert (Hin : In st' (run r (MState bef ((c :: p) ++ rest) [])))
        by (rewrite E; now left).
      pose proof (consuming_shortens r r_consuming _ _ Hin) as Hlt.
      destruct (r_stays bef (c :: p) st' ltac:(discriminate) Hokp Hin)
        as (w & p' & Hp & Ha & Hb).
      cbn [after] in Hlt. rewrite Ha, Hp, <- app_assoc, !length_app in Hlt.
      rewrite (exec_loop_hit _ _ _ _ _ _ E), Ha, Hb.
      assert (Hlen : length (c :: p) = length w + length p')
        by (rewrite Hp; apply length_app).
      destruct (IH (length p') ltac:(lia) p' (rev w ++ bef) fuel eq_refl)
        as (ms1 & fuel' & Hf & Heq & Hms).
      { intros Hne. apply (ok_suffix w p' Hne). now rewrite <- Hp. }
      { rewrite Hp, <- app_assoc, !length_app in Hfuel. rewrite length_app. lia. }
      exists (result (MState bef ((c :: p) ++ rest) []) st' :: ms1), fuel'.
      split; [exact Hf|]. split.
      * rewrite Heq, Hp, rev_app_distr, <- (app_assoc (rev p') (rev w) bef).
        reflexivity.
      * constructor.
        -- unfold result, pos. cbn [index before]. lia.
        -- eapply List.Forall_impl; [|exact Hms]. cbn beta.
           rewrite length_app, length_rev. intros m Hm. lia.
Qed.

End PassingThrough.

Section RangeScan.

Lemma lastIs_app (p : ascii -> bool) a b : b <> [] -> lastIs p (a ++ b) = lastIs p b.
Proof.
  intros Hne. destruct (exists_last Hne) as (q & c & ->).
  unfold lastIs. now rewrite app_assoc, !rev_app_distr.
Qed.

Lemma lastIs_class (p : ascii -> bool) u :
  u <> [] -> Forall (holds p) u -> lastIs p u = true.
Proof.
  intros Hne Hu. destruct (exists_last Hne) as (q & c & ->).
  apply Forall_app in Hu. destruct Hu as [_ Hc]. inversion Hc; subst.
  unfold lastIs. now rewrite rev_app_distr.
Qed.

Lemma endsWithRange_digits Nm :
  Nm <> [] -> Forall (holds isDigit) Nm -> endsWithRange (Nm ++ str "..") = true.
Proof.
  intros Hne HN. destruct (exists_last Hne) as (q & c & ->).
  apply Forall_app in HN. destruct HN as [_ Hc]. inversion Hc as [|? ? Hd _]; subst.
  unfold endsWithRange. rewrite !rev_app_distr. cbn. exact Hd.
Qed.

Lemma endsWithRange_app a b :
  endsWithRange b = true -> endsWithRange (a ++ b) = true.
Proof.
  unfold endsWithRange. rewrite rev_app_distr.
  destruct (rev b) as [|d2 [|d1 [|c tl]]]; try discriminate. auto.
Qed.

(** A match of the range literal cannot have a digit of its own directly
    after a piece that neither ends with a digit nor with a digit and two
    dots. *)
Lemma range_crossing u d v Nm Mm :
  u ++ d :: v = Nm ++ str ".." ++ Mm ->
  u <> [] -> isDigit d = true ->
  Nm <> [] -> Forall (holds isDigit) Nm ->
  (Mm = str "_" \/ (Mm <> [] /\ Forall (holds isDigit) Mm)) ->
  lastIs isDigit u = true \/ endsWithRange u = true.
Proof.
  intros Heq Hu Hd HN HdN HM.
  apply app_eq_app in Heq. destruct Heq as (l & [[Hl Hr]|[Hl Hr]]).
  - destruct l as [|x [|y l2]].
    + cbn in Hr. injection Hr as <- _. discriminate.
    + cbn in Hr. injection Hr as _ <- _. discriminate.
    + cbn in Hr. injection Hr as <- <- Hr. destruct l2 as [|z l2].
      * right. rewrite Hl. now apply endsWithRange_digits.
      * left. rewrite Hl.
        change ("."%char :: "."%char :: z :: l2) with (str ".." ++ z :: l2).
        rewrite !app_assoc. rewrite lastIs_app by discriminate.
        apply lastIs_class; [discriminate|].
        destruct HM as [->|[_ HdM]].
        -- destruct l2; discriminate.
        -- rewrite Hr in HdM. apply Forall_app in HdM. tauto.
  - left. apply lastIs_class; [exact Hu|]. rewrite Hl in HdN.
    apply Forall_app in HdN. tauto.
Qed.

Lemma range_stays d rest0 bef p st' :
  isDigit d = true ->
  p <> [] -> lastIs isDigit p = false /\ endsWithRange p = false ->
  In st' (run rangeRegex (MState bef (p ++ d :: rest0) [])) ->
  exists w p', p = w ++ p' /\ after st' = p' ++ d :: rest0
               /\ before st' = rev w ++ bef.
Proof.
  intros Hd Hne [Hlast Hends] Hin.
  destruct (rangeRegex_match (MState bef (p ++ d :: rest0) []) st' eq_refl Hin)
    as (Nm & Mm & Ha & Hb & _ & HN & HdN & HM).
  cbn [after before] in Ha, Hb. rewrite !app_assoc in Ha.
  apply app_eq_app in Ha. destruct Ha as (l & [[Hl Hr]|[Hl Hr]]).
  - exists ((Nm ++ str "..") ++ Mm), l. rewrite <- !app_assoc in *. auto.
  - destruct l as [|x l2].
    + exists p, []. rewrite app_nil_r in Hl. cbn in Hr.
      rewrite app_nil_r, <- Hr. repeat split.
      rewrite Hb, <- Hl, <- !app_assoc. reflexivity.
    + exfalso. injection Hr as <- Hr. rewrite <- !app_assoc in Hl.
      destruct (range_crossing p d l2 Nm Mm (eq_sym Hl) Hne Hd HN HdN HM); congruence.
Qed.

Lemma range_miss bef c aft :
  isDigit c = false -> run rangeRegex (MState bef (c :: aft) []) = [].
Proof.
  intros Hc. destruct (run rangeRegex (MState bef (c :: aft) [])) as [|st' tl] eqn:E;
    [reflexivity|].
  assert (Hin : In st' (run rangeRegex (MState bef (c :: aft) [])))
    by (rewrite E; now left).
  destruct (rangeRegex_match (MState bef (c :: aft) []) st' eq_refl Hin)
    as (Nm & Mm & Ha & _ & _ & HN & HdN & _).
  cbn [after] in Ha. destruct Nm as [|n Nm]; [congruence|].
  injection Ha as <- _. inversion HdN; subst. unfold holds in *. congruence.
Qed.

Lemma free_suffix a b :
  b <> [] ->
  lastIs isDigit (a ++ b) = false /\ endsWithRange (a ++ b) = false ->
  lastIs isDigit b = false /\ endsWithRange b = false.
Proof.
  intros Hne [H1 H2]. rewrite lastIs_app in H1 by exact Hne. split; [exact H1|].
  destruct (endsWithRange b) eqn:E; [|reflexivity].
  now rewrite (endsWithRange_app a b E) in H2.
Qed.

Lemma scanAt_no_digit b pre : scanAt b pre -> lastIs isDigit pre = false.
Proof.
  destruct 1 as [pre H _|b pre D _ _ _]; [exact H|].
  rewrite app_assoc. now rewrite lastIs_app by discriminate.
Qed.

(** What the scan does when it comes to the end of [pre]. *)
Lemma scan_resumes b pre :
  scanAt b pre ->
  if b
  then forall d rest0,
         isDigit d = true ->
         resumes (pre ++ d :: rest0) (length pre) (rev pre) (d :: rest0)
  else forall N rest1,
         N <> [] -> Forall (holds isDigit) N ->
         startsOutside (holds isDigit) rest1 ->
         resumes (pre ++ N ++ rest1) (length pre) (rev (pre ++ N)) rest1.
Proof.
  induction 1 as [pre Hlast Hends|b pre D HD HdD Hscan IH].
  - intros d rest0 Hd.
    destruct (exec_loop_passes rangeRegex
                (fun p => lastIs isDigit p = false /\ endsWithRange p = false)
                (d :: rest0) free_suffix
                (fun bef p st' Hne Hok => range_stays d rest0 bef p st' Hd Hne Hok)
                eq_refl (length pre) pre [] (S (length (pre ++ d :: rest0)))
                eq_refl (fun _ => conj Hlast Hends) ltac:(lia))
      as (ms1 & fuel' & Hf & Heq & Hms).
    exists ms1, fuel'. rewrite app_nil_r in Heq. repeat split; auto.
  - destruct b; cbn [negb].
    + intros N rest1 HN HdN Hrest1.
      destruct D as [|d D']; [congruence|]. inversion HdD as [|? ? Hd _]; subst.
      destruct (IH d (D' ++ str ".." ++ N ++ rest1) Hd)
        as (ms1 & fuel' & Hf & Heq & Hms).
      destruct (rangeRegex_at_closed (rev pre) (d :: D') N rest1 HD HdD HN HdN Hrest1)
        as (tl & Hrun).
      destruct fuel' as [|fuel']; [lia|].
      change (d :: D' ++ str ".." ++ N ++ rest1)
        with ((d :: D') ++ str ".." ++ N ++ rest1) in Heq, Hf.
      rewrite (exec_loop_hit _ _ _ _ _ _ Hrun) in Heq.
      exists (ms1 ++ [result (MState (rev pre)
                                     ((d :: D') ++ str ".." ++ N ++ rest1) [])
                             (afterRange (rev pre) (d :: D') N rest1)]), fuel'.
      split; [|split].
      * rewrite !length_app in Hf. cbn [length] in Hf. lia.
      * replace ((pre ++ (d :: D') ++ str "..") ++ N ++ rest1)
          with (pre ++ (d :: D') ++ str ".." ++ N ++ rest1)
          by (now rewrite <- !app_assoc).
        rewrite Heq. unfold afterRange at 2 3. cbn [before after].
        replace (rev ((d :: D') ++ str ".." ++ N) ++ rev pre)
          with (rev ((pre ++ (d :: D') ++ str "..") ++ N))
          by (rewrite <- rev_app_distr; f_equal; now rewrite <- !app_assoc).
        rewrite <- (app_assoc ms1). reflexivity.
      * apply Forall_app. split.
        -- eapply List.Forall_impl; [|exact Hms]. cbn beta. rewrite !length_app.
           intros m Hm. lia.
        -- constructor; [|constructor]. unfold result, pos. cbn [index before].
           rewrite length_rev, !length_app. cbn [length]. lia.
    + intros d rest0 Hd.
      destruct (IH D (str ".." ++ d :: rest0) HD HdD)
        as (ms1 & fuel' & Hf & Heq & Hms).
      { intros c s' Hc Hdig. injection Hc as <- _. discriminate. }
      exists ms1, fuel'. split; [|split].
      * cbn [app length str list_ascii_of_string] in Hf. cbn [length]. lia.
      * replace ((pre ++ D ++ str "..") ++ d :: rest0)
          with (pre ++ D ++ str ".." ++ d :: rest0)
          by (now rewrite <- !app_assoc).
        rewrite Heq. f_equal. cbn [app str list_ascii_of_string].
        rewrite (exec_loop_miss _ _ _ _ _ (range_miss _ "." _ eq_refl)).
        rewrite (exec_loop_miss _ _ _ _ _ (range_miss _ "." _ eq_refl)).
        f_equal. rewrite !app_assoc, !rev_app_distr. reflexivity.
      * eapply List.Forall_impl; [|exact Hms]. cbn beta. rewrite !length_app.
        intros m Hm. lia.
Qed.

Lemma digit_suffix : forall q,
  exists pre' D, q = pre' ++ D /\ Forall (holds isDigit) D
                 /\ lastIs isDigit pre' = false.
Proof.
  induction q as [|x q (pre' & D & -> & HD & Hpre)] using rev_ind.
  - exists [], []. repeat split. constructor.
  - destruct (isDigit x) eqn:E.
    + exists pre', (D ++ [x]). rewrite app_assoc. repeat split; auto.
      apply Forall_app. split; [exact HD|]. now repeat constructor.
    + exists ((pre' ++ D) ++ [x]), []. rewrite app_nil_r. repeat split.
      * constructor.
      * unfold lastIs. now rewrite rev_app_distr.
Qed.

(** Every place where a range token can start is met or swallowed. *)
Lemma scan_total : forall n pre,
  length pre = n -> lastIs isDigit pre = false -> met pre \/ swallowed pre.
Proof.
  induction n as [n IH] using lt_wf_ind. intros pre Hn Hlast.
  destruct (endsWithRange pre) eqn:E; [|left; now constructor].
  unfold endsWithRange in E.
  destruct (rev pre) as [|d2 [|d1 [|c tl]]] eqn:Hrev; try discriminate.
  apply andb_true_iff in E. destruct E as [E Hc].
  apply andb_true_iff in E. destruct E as [E2 E1].
  apply chr_eq in E1, E2. subst d1 d2.
  assert (Hpre : pre = (rev tl ++ [c]) ++ str "..").
  { rewrite <- (rev_involutive pre), Hrev. cbn. now rewrite <- !app_assoc. }
  destruct (digit_suffix (rev tl ++ [c])) as (pre' & D & Hq & HD & Hpre').
  assert (HDne : D <> []).
  { intros ->. rewrite app_nil_r in Hq. rewrite <- Hq in Hpre'.
    unfold lastIs in Hpre'. rewrite rev_app_distr in Hpre'. cbn in Hpre'. congruence. }
  rewrite Hq, <- app_assoc in Hpre.
  assert (Hlen : length pre' < n).
  { rewrite <- Hn, Hpre, !length_app. destruct D; [congruence|]. simpl. lia. }
  rewrite Hpre.
  destruct (IH (length pre') Hlen pre' eq_refl Hpre') as [Hm|Hs].
  - right. exact (scan_next true pre' D HDne HD Hm).
  - left. exact (scan_next false pre' D HDne HD Hs).
Qed.

Lemma resumes_elsewhere line col bef rest lineNumber :
  resumes line col bef rest -> col < length bef ->
  startingAt col (checkRangeOperators line lineNumber) = [].
Proof.
  intros (ms1 & fuel' & _ & Heq & Hms) Hcol.
  unfold checkRangeOperators. rewrite Heq. apply startingAt_elsewhere.
  apply Forall_app. split.
  - eapply List.Forall_impl; [|exact Hms]. cbn beta. intros m Hm. lia.
  - apply List.Forall_forall. intros m Hm.
    apply exec_loop_index_ge in Hm. lia.
Qed.

(** A token that is met is the next match of the loop. *)
Lemma range_loop_met pre N M post :
  met pre -> N <> [] -> Forall (holds isDigit) N ->
  heads (run rangeRegex (MState (rev pre) (N ++ str ".." ++ M ++ post) []))
        (afterRange (rev pre) N M post) ->
  exists ms1 ms2,
    exec_all rangeRegex (pre ++ N ++ str ".." ++ M ++ post) =
      ms1 ++ result (MState (rev pre ++ []) (N ++ str ".." ++ M ++ post) [])
                    (afterRange (rev pre ++ []) N M post) :: ms2
    /\ Forall (fun m => index m <> length pre) ms1
    /\ Forall (fun m => index m <> length pre) ms2.
Proof.
  intros Hmet HN HdN (tl & Hrun).
  destruct N as [|d N']; [congruence|]. inversion HdN as [|? ? Hd _]; subst.
  destruct (scan_resumes true pre Hmet d (N' ++ str ".." ++ M ++ post) Hd)
    as (ms1 & fuel' & Hf & Heq & Hms).
  destruct fuel' as [|fuel']; [lia|].
  change (d :: N' ++ str ".." ++ M ++ post)
    with ((d :: N') ++ str ".." ++ M ++ post) in Heq.
  rewrite (exec_loop_hit _ _ _ _ _ _ Hrun) in Heq.
  rewrite app_nil_r. eexists ms1, _. split; [exact Heq|]. split.
  - eapply List.Forall_impl; [|exact Hms]. cbn beta. intros m Hm. lia.
  - apply List.Forall_forall. intros m Hm. apply exec_loop_index_ge in Hm.
    unfold afterRange in Hm. cbn [before] in Hm.
    rewrite ?length_app, ?length_rev, ?length_app in Hm. cbn [length] in Hm. lia.
Qed.

(** What a met token with a numeric upper bound contributes at its
    column. *)
Lemma range_met_report pre N M post lineNumber :
  met pre -> N <> [] -> Forall (holds isDigit) N ->
  M <> [] -> Forall (holds isDigit) M -> firstIs isDigit post = false ->
  startingAt (length pre)
    (checkRangeOperators (pre ++ N ++ str ".." ++ M ++ post) lineNumber) =
  if geq (parseInt N) (parseInt M) then [rangeErrorAt lineNumber pre N M] else [].
Proof.
  intros Hpre HN HdN HM HdM Hpost.
  destruct (range_loop_met pre N M post Hpre HN HdN)
    as (ms1 & ms2 & Heq & H1 & H2).
  { apply rangeRegex_at_closed; auto using firstIs_startsOutside. }
  destruct (range_match_fields pre N M post) as (Hi & Hw & Hg1 & Hg2).
  unfold checkRangeOperators. rewrite Heq, flat_map_app. cbn [flat_map].
  unfold startingAt. rewrite !List.filter_app.
  fold (startingAt (length pre) (flat_map (rangeCheck lineNumber) ms1)).
  fold (startingAt (length pre) (flat_map (rangeCheck lineNumber) ms2)).
  rewrite !startingAt_elsewhere by assumption. rewrite app_nil_r. cbn [app].
  unfold rangeCheck. rewrite Hg1, Hg2.
  rewrite (bool_decide_eq_false_2 _ (digits_not_underscore M HdM)). cbn [negb].
  destruct (geq (parseInt N) (parseInt M)); [|reflexivity].
  cbn [List.filter].
  unfold rangeError, rangeErrorAt, len. rewrite Hi, Hw.
  cbn [range startCharacter diag lineRange].
  rewrite Z.eqb_refl. repeat f_equal.
  rewrite !length_app. cbn [length str list_ascii_of_string]. lia.
Qed.

(** A swallowed token contributes nothing at its column. *)
Lemma range_swallowed_silent pre N rest lineNumber :
  swallowed pre -> N <> [] -> Forall (holds isDigit) N ->
  startingAt (length pre)
    (checkRangeOperators (pre ++ N ++ str ".." ++ rest) lineNumber) = [].
Proof.
  intros Hpre HN HdN.
  apply (resumes_elsewhere _ _ (rev (pre ++ N)) (str ".." ++ rest)).
  - apply (scan_resumes false pre Hpre N (str ".." ++ rest) HN HdN).
    intros c s' Hc Hdig. injection Hc as <- _. discriminate.
  - rewrite length_rev, length_app. destruct N; [congruence|]. simpl. lia.
Qed.

(** No position is both. *)
Lemma scan_exclusive pre : met pre -> swallowed pre -> False.
Proof.
  intros Hmet Hsw.
  pose proof (range_met_report pre (str "1") (str "0") [] 0 Hmet
                ltac:(discriminate) ltac:(repeat constructor)
                ltac:(discriminate) ltac:(repeat constructor) eq_refl) as H1.
  pose proof (range_swallowed_silent pre (str "1") (str "0") 0 Hsw
                ltac:(discriminate) ltac:(repeat constructor)) as H2.
  rewrite app_nil_r in H1. rewrite H2 in H1.
  assert (Hg : geq (parseInt (str "1")) (parseInt (str "0")) = true)
    by (vm_compute; reflexivity).
  rewrite Hg in H1. discriminate.
Qed.

End RangeScan.

(** C7, as amended.  Take a token [N..M] or [N.._] on a line, [N] and [M]
    whole digit sequences: no digit directly before [N] nor, for a numeric
    [M], directly after it.  The scan goes left to right and its matches do
    not overlap, so the token is either met or swallowed, never both:
    swallowed exactly when it directly follows a range [D..], [D] a whole
    digit sequence, that is itself met, the match found there being
    [D..N], and so on alternately along a chain of dotted numbers; met
    otherwise, whatever else precedes it.  Where the token is
    met, the range rule reports at its column exactly one Error, over the
    token's span, if [parseInt(N) >= parseInt(M)] as JavaScript numbers,
    and nothing otherwise; so, when the values of [N] and [M] are both
    below [2^53], it reports nothing if [N < M] and exactly one Error if
    [N >= M]; with [_] as upper bound it reports nothing there, whatever
    [N] is.  Where the token is swallowed, nothing is reported at its
    column, whatever its bounds. *)
Theorem range_token_rule (pre N post : list ascii) (lineNumber : nat) :
  N <> [] -> forallb isDigit N = true -> lastIs isDigit pre = false ->
  (met pre \/ swallowed pre)
  /\ ~ (met pre /\ swallowed pre)
  /\ (swallowed pre <->
      exists pre' D, pre = pre' ++ D ++ str ".."
                     /\ D <> [] /\ forallb isDigit D = true
                     /\ lastIs isDigit pre' = false /\ met pre')
  /\ (met pre ->
      (forall M,
          M <> [] -> forallb isDigit M = true -> firstIs isDigit post = false ->
          startingAt (length pre)
            (checkRangeOperators (pre ++ N ++ str ".." ++ M ++ post) lineNumber) =
          (if geq (parseInt N) (parseInt M)
           then [rangeErrorAt lineNumber pre N M] else [])
          /\ ((decimal N < 2 ^ 53)%Z -> (decimal M < 2 ^ 53)%Z ->
              startingAt (length pre)
                (checkRangeOperators (pre ++ N ++ str ".." ++ M ++ post) lineNumber) =
              if (decimal N <? decimal M)%Z
              then [] else [rangeErrorAt lineNumber pre N M]))
      /\ startingAt (length pre)
           (checkRangeOperators (pre ++ N ++ str ".." ++ str "_" ++ post) lineNumber)
         = [])
  /\ (swallowed pre ->
      forall M,
        startingAt (length pre)
          (checkRangeOperators (pre ++ N ++ str ".." ++ M ++ post) lineNumber) = []).
Proof.
  intros HN HdN Hlast. apply forallb_holds in HdN.
  split; [exact (scan_total (length pre) pre eq_refl Hlast)|].
  split; [intros [Hmet Hsw]; exact (scan_exclusive pre Hmet Hsw)|].
  split; [|split].
  - split.
    + intros Hsw. unfold swallowed in Hsw.
      inversion Hsw as [|b pre' D HD HdD Hpre' Hb Heq].
      destruct b; [|discriminate].
      exists pre', D. split; [reflexivity|]. split; [exact HD|].
      split; [apply forallb_forall, List.Forall_forall; exact HdD|].
      split; [exact (scanAt_no_digit _ _ Hpre')|exact Hpre'].
    + intros (pre' & D & -> & HD & HdD & _ & Hmet).
      exact (scan_next true pre' D HD (forallb_holds _ _ HdD) Hmet).
  - intros Hpre. split.
    + intros M HM HdM Hpost. apply forallb_holds in HdM.
      pose proof (range_met_report pre N M post lineNumber Hpre HN HdN HM HdM Hpost)
        as Hrule.
      split; [exact Hrule|].
      intros HNlt HMlt. rewrite Hrule, !parseInt_exact by assumption. cbn [geq].
      destruct (Z.ltb_spec (decimal N) (decimal M)) as [Hlt|Hge].
      * apply Z.leb_gt in Hlt. now rewrite Hlt.
      * apply Z.leb_le in Hge. now rewrite Hge.
    + destruct (range_loop_met pre N (str "_") post Hpre HN HdN)
        as (ms1 & ms2 & Heq & H1 & H2).
      { apply rangeRegex_at_open; auto. }
      unfold checkRangeOperators. rewrite Heq, flat_map_app. cbn [flat_map].
      unfold startingAt. rewrite !List.filter_app.
      fold (startingAt (length pre) (flat_map (rangeCheck lineNumber) ms1)).
      fold (startingAt (length pre) (flat_map (rangeCheck lineNumber) ms2)).
      rewrite !startingAt_elsewhere by assumption. reflexivity.
  - intros Hpre M.
    exact (range_swallowed_silent pre N (M ++ post) lineNumber Hpre HN HdN).
Qed.

Lemma range_token_rule_witness :
  startingAt 4 (checkRangeOperators (str "    10..5 => x") 0)
  = [rangeErrorAt 0 (str "    ") (str "10") (str "5")]
  /\ startingAt 2 (checkRangeOperators (str "a.5..3") 0)
     = [rangeErrorAt 0 (str "a.") (str "5") (str "3")]
  /\ startingAt 3 (checkRangeOperators (str "1..2..1") 0) = [].
Proof.
  split; [|split].
  - exact (proj2 (proj1 (proj1 (proj2 (proj2 (proj2
                   (range_token_rule (str "    ") (str "10") (str " => x") 0
                      ltac:(discriminate) eq_refl eq_refl))))
                               (scan_free (str "    ") eq_refl eq_refl))
                        (str "5") ltac:(discriminate) eq_refl eq_refl)
                 ltac:(vm_compute; reflexivity) ltac:(vm_compute; reflexivity)).
  - exact (proj2 (proj1 (proj1 (proj2 (proj2 (proj2
                   (range_token_rule (str "a.") (str "5") [] 0
                      ltac:(discriminate) eq_refl eq_refl))))
                               (scan_free (str "a.") eq_refl eq_refl))
                        (str "3") ltac:(discriminate) eq_refl eq_refl)
                 ltac:(vm_compute; reflexivity) ltac:(vm_compute; reflexivity)).
  - exact (proj2 (proj2 (proj2 (proj2
                   (range_token_rule (str "1..") (str "2") [] 0
                      ltac:(discriminate) eq_refl eq_refl))))
                 (scan_next true [] (str "1") ltac:(discriminate)
                    ltac:(repeat constructor) (scan_free [] eq_refl eq_refl))
                 (str "1")).
Defined.

(** C7 as stated fails in two ways.  For bounds a JavaScript number cannot
    tell apart: [9007199254740992 < 9007199254740993], yet [parseInt] maps
    both to [2^53] and the rule reports the token.  And for a token that
    the match before it has taken: in [1..2..1] the token [2..1] has a
    start that is not less than its end, yet the scan matches [1..2], goes
    on behind it, and reports nothing. *)
Lemma range_rule_counterexamples :
  ((decimal (str "9007199254740992") < decimal (str "9007199254740993"))%Z
   /\ checkRangeOperators (str "9007199254740992..9007199254740993") 0
      = [rangeErrorAt 0 [] (str "9007199254740992") (str "9007199254740993")])
  /\ ((decimal (str "2") >= decimal (str "1"))%Z
      /\ str "1..2..1" = str "1.." ++ str "2" ++ str ".." ++ str "1"
      /\ swallowed (str "1..")
      /\ checkRangeOperators (str "1..2..1") 0 = []).
Proof.
  repeat split; try (vm_compute; try reflexivity; discriminate).
  exact (scan_next true [] (str "1") ltac:(discriminate)
           ltac:(repeat constructor) (scan_free [] eq_refl eq_refl)).
Qed.
